(** * Poisson surface reconstruction: the implicit-field pipeline

    A shallow embedding of [poisson_surface_reconstruction]
    (src/poisson_surface_reconstruction.cpp) and the properties its
    specification states about it.

    The source computes on [double] and [int], on Eigen dense vectors and
    on Eigen sparse matrices.  The embedding is written once over an
    interface of the operations the source applies to [double]
    ([Scalar]), and instantiated three ways:
    - [xreal]: exact rational arithmetic extended with the IEEE special
      values (infinities and NaN).  Rounding is not modelled, the sign of
      zero is not tracked.  The quantified theorems about the values
      computed are proved for this instance.
    - [float] (binary64, the kernel's primitive floats): the source's
      arithmetic bit for bit.  It is used to replay the source on
      concrete inputs, and for the clamp of the grid dimensions.
    Theorems about the structure of the computation (which products are
    formed, in which order, what is read and written) are proved for
    every instance.
    - [Q]: the plain field of rationals, the reference semantics in which
      the linear algebra is carried out before it is transported to
      [xreal]. *)

From Stdlib Require Import ZArith QArith Qround Qabs Qminmax Lqa Lia List Bool.
From Stdlib Require Import Finite.
From Stdlib Require Import Floats.PrimFloat Floats.SpecFloat Floats.FloatOps Floats.FloatAxioms.
From Stdlib Require Import Setoid Morphisms.
Import ListNotations.

Local Open Scope Z_scope.

(* ================================================================== *)
(** * Scalars *)

(** The operations of [double] that the source uses: conversion from
    [int], the four arithmetic operations, [operator<] (through which
    [std::max], [std::min] and Eigen's coefficient reductions compare),
    and the implicit conversion to [int], which is undefined on NaN, on
    the infinities and outside the range of [int]. *)
Class Scalar (D : Type) := {
  of_int : Z -> D;
  add : D -> D -> D;
  sub : D -> D -> D;
  mul : D -> D -> D;
  div : D -> D -> D;
  ltb : D -> D -> bool;
  to_int : D -> option Z
}.

Definition int_min : Z := - 2 ^ 31.
Definition int_max : Z := 2 ^ 31 - 1.

Definition in_int_range (z : Z) : bool := (int_min <=? z) && (z <=? int_max).

(** ** Exact arithmetic with the IEEE special values *)

Inductive xreal : Type :=
| Fin (q : Q)
| PInf
| NInf
| NaN.

Definition Qltb (a b : Q) : bool := negb (Qle_bool b a).

(** Truncation toward zero, the rounding of a C++ floating-integral
    conversion. *)
Definition Qtruncate (q : Q) : Z := Z.quot (Qnum q) (Zpos (Qden q)).

Module XReal.

Definition opp (x : xreal) : xreal :=
  match x with
  | Fin a => Fin (- a)
  | PInf => NInf
  | NInf => PInf
  | NaN => NaN
  end.

Definition add (x y : xreal) : xreal :=
  match x, y with
  | NaN, _ | _, NaN => NaN
  | Fin a, Fin b => Fin (a + b)
  | PInf, NInf | NInf, PInf => NaN
  | PInf, _ | _, PInf => PInf
  | NInf, _ | _, NInf => NInf
  end.

Definition sub (x y : xreal) : xreal := add x (opp y).

(** The infinity of the sign of [q], NaN for zero. *)
Definition inf_of_sign (q : Q) : xreal :=
  match Qcompare q 0 with
  | Gt => PInf
  | Lt => NInf
  | Eq => NaN
  end.

Definition mul (x y : xreal) : xreal :=
  match x, y with
  | NaN, _ | _, NaN => NaN
  | Fin a, Fin b => Fin (a * b)
  | PInf, Fin b | Fin b, PInf => inf_of_sign b
  | NInf, Fin b | Fin b, NInf => inf_of_sign (- b)
  | PInf, PInf | NInf, NInf => PInf
  | PInf, NInf | NInf, PInf => NInf
  end.

(** A zero divisor is taken as [+0]: [a/0] is the infinity of the sign
    of [a], and [0/0] is NaN. *)
Definition div (x y : xreal) : xreal :=
  match x, y with
  | NaN, _ | _, NaN => NaN
  | Fin a, Fin b => if Qeq_bool b 0 then inf_of_sign a else Fin (a / b)
  | Fin _, (PInf | NInf) => Fin 0
  | (PInf | NInf), (PInf | NInf) => NaN
  | PInf, Fin b => if Qltb b 0 then NInf else PInf
  | NInf, Fin b => if Qltb b 0 then PInf else NInf
  end.

(** Every comparison with NaN is false. *)
Definition ltb (x y : xreal) : bool :=
  match x, y with
  | NaN, _ | _, NaN => false
  | Fin a, Fin b => Qltb a b
  | NInf, (Fin _ | PInf) => true
  | Fin _, PInf => true
  | _, _ => false
  end.

Definition to_int (x : xreal) : option Z :=
  match x with
  | Fin q => let z := Qtruncate q in
             if in_int_range z then Some z else None
  | _ => None
  end.

End XReal.

#[export] Instance Scalar_xreal : Scalar xreal := {
  of_int z := Fin (inject_Z z);
  add := XReal.add;
  sub := XReal.sub;
  mul := XReal.mul;
  div := XReal.div;
  ltb := XReal.ltb;
  to_int := XReal.to_int
}.

(** ** binary64 *)

Module Binary64.

Definition of_int (z : Z) : float :=
  if z <? 0
  then PrimFloat.opp (PrimFloat.of_uint63 (Uint63Axioms.of_Z (- z)))
  else PrimFloat.of_uint63 (Uint63Axioms.of_Z z).

(** The integer part of [m * 2^e], toward zero. *)
Definition trunc_scaled (m : positive) (e : Z) : Z :=
  if 0 <=? e then Zpos m * 2 ^ e else Zpos m / 2 ^ (- e).

Definition to_int (f : float) : option Z :=
  match Prim2SF f with
  | S754_zero _ => Some 0
  | S754_finite s m e =>
      let z := if s then - trunc_scaled m e else trunc_scaled m e in
      if in_int_range z then Some z else None
  | S754_infinity _ | S754_nan => None
  end.

End Binary64.

#[export] Instance Scalar_binary64 : Scalar float := {
  of_int := Binary64.of_int;
  add := PrimFloat.add;
  sub := PrimFloat.sub;
  mul := PrimFloat.mul;
  div := PrimFloat.div;
  ltb := PrimFloat.ltb;
  to_int := Binary64.to_int
}.

(** ** The rationals *)

#[export] Instance Scalar_Q : Scalar Q := {
  of_int := inject_Z;
  add := Qplus;
  sub := Qminus;
  mul := Qmult;
  div := Qdiv;
  ltb := Qltb;
  to_int q := Some (Qtruncate q)
}.

(* ================================================================== *)
(** * Outcomes of a call *)

(** The error taxonomy of the specification.  The source contains no
    [throw]; the type is what a caller of a C++ routine can observe. *)
Inductive error : Type :=
| InvalidInput
| DegenerateGrid
| SolverNonConvergence
| ExtractionFailure.

(** A call returns, leaves by an exception, or has no defined result
    (a violated Eigen precondition, an undefined conversion to [int],
    signed overflow). *)
Inductive outcome (A : Type) : Type :=
| Returns (a : A)
| Throws (e : error)
| Undefined.

Arguments Returns {A} a.
Arguments Throws {A} e.
Arguments Undefined {A}.

Definition bind {A B : Type} (c : outcome A) (k : A -> outcome B) : outcome B :=
  match c with
  | Returns a => k a
  | Throws e => Throws e
  | Undefined => Undefined
  end.

Notation "x <- c ;; k" := (bind c (fun x => k))
  (at level 61, c at next level, right associativity).
Notation "' p <- c ;; k" := (bind c (fun p => k))
  (at level 61, p pattern, c at next level, right associativity).

Definition of_option {A : Type} (o : option A) : outcome A :=
  match o with
  | Some a => Returns a
  | None => Undefined
  end.

(** [eigen_assert b]: an [eigen_assert] or a language precondition. *)
Definition eigen_assert (b : bool) : outcome unit :=
  if b then Returns tt else Undefined.

(** [int] arithmetic: signed overflow is undefined. *)
Definition checked_int (z : Z) : outcome Z :=
  if in_int_range z then Returns z else Undefined.

(* ================================================================== *)
(** * Dense data *)

(** A row of an [n x 3] matrix ([Eigen::RowVector3d]). *)
Record RowVector3 (D : Type) : Type := Row3 { c0 : D; c1 : D; c2 : D }.

Arguments Row3 {D} c0 c1 c2.
Arguments c0 {D} r.
Arguments c1 {D} r.
Arguments c2 {D} r.

(** [Eigen::MatrixXd] with three columns, by rows; [Eigen::VectorXd]. *)
Definition Matrix3 (D : Type) : Type := list (RowVector3 D).
Definition Vector (D : Type) : Type := list D.

Definition rows {A : Type} (M : list A) : Z := Z.of_nat (length M).

(** [0, 1, ..., n-1], the values a [for (int i = 0; i < n; i++)] loop
    takes (none when [n <= 0]). *)
Definition range (n : Z) : list Z := map Z.of_nat (seq 0 (Z.to_nat n)).

Section Dense.

Context {D : Type} `{Scalar D}.

Definition std_max (a b : D) : D := if ltb a b then b else a.
Definition std_min (a b : D) : D := if ltb b a then b else a.

(** Eigen's reductions assert a non-empty operand. *)
Definition maxCoeff (l : Vector D) : outcome D :=
  match l with
  | [] => Undefined
  | a :: t => Returns (fold_left std_max t a)
  end.

Definition minCoeff (l : Vector D) : outcome D :=
  match l with
  | [] => Undefined
  | a :: t => Returns (fold_left std_min t a)
  end.

Definition col0 (M : Matrix3 D) : Vector D := map c0 M.
Definition col1 (M : Matrix3 D) : Vector D := map c1 M.
Definition col2 (M : Matrix3 D) : Vector D := map c2 M.

Definition row_add (a b : RowVector3 D) : RowVector3 D :=
  Row3 (add (c0 a) (c0 b)) (add (c1 a) (c1 b)) (add (c2 a) (c2 b)).

Definition row_scale (s : D) (a : RowVector3 D) : RowVector3 D :=
  Row3 (mul s (c0 a)) (mul s (c1 a)) (mul s (c2 a)).

(** [v.sum()], from the zero of the scalar type. *)
Definition vsum (l : Vector D) : D := fold_left add l (of_int 0).

End Dense.

(* ================================================================== *)
(** * The finite-difference grid (source lines 29-44) *)

Record Grid (D : Type) : Type := MkGrid {
  g_corner : RowVector3 D;
  g_h : D;
  g_nx : Z;
  g_ny : Z;
  g_nz : Z
}.

Arguments MkGrid {D} g_corner g_h g_nx g_ny g_nz.
Arguments g_corner {D} g.
Arguments g_h {D} g.
Arguments g_nx {D} g.
Arguments g_ny {D} g.
Arguments g_nz {D} g.

(** The [double] values of the grid construction, before the three
    conversions to [int]. *)
Record GridReals (D : Type) : Type := MkGridReals {
  r_max_extent : D;
  r_h : D;
  r_corner : RowVector3 D;
  r_qx : D;
  r_qy : D;
  r_qz : D
}.

Arguments MkGridReals {D} r_max_extent r_h r_corner r_qx r_qy r_qz.
Arguments r_max_extent {D} g.
Arguments r_h {D} g.
Arguments r_corner {D} g.
Arguments r_qx {D} g.
Arguments r_qy {D} g.
Arguments r_qz {D} g.

Section GridBuilder.

Context {D : Type} `{Scalar D}.

(** [const double pad = 8;] *)
Definition pad : D := of_int 8.

(** [P.colwise().maxCoeff()], [P.colwise().minCoeff()] *)
Definition colwise_maxCoeff (P : Matrix3 D) : outcome (RowVector3 D) :=
  a <- maxCoeff (col0 P) ;; b <- maxCoeff (col1 P) ;; c <- maxCoeff (col2 P) ;;
  Returns (Row3 a b c).

Definition colwise_minCoeff (P : Matrix3 D) : outcome (RowVector3 D) :=
  a <- minCoeff (col0 P) ;; b <- minCoeff (col1 P) ;; c <- minCoeff (col2 P) ;;
  Returns (Row3 a b c).

(** [(P.colwise().maxCoeff()-P.colwise().minCoeff()).maxCoeff()] *)
Definition max_extent (P : Matrix3 D) : outcome D :=
  hi <- colwise_maxCoeff P ;;
  lo <- colwise_minCoeff P ;;
  maxCoeff [sub (c0 hi) (c0 lo); sub (c1 hi) (c1 lo); sub (c2 hi) (c2 lo)].

(** [(P.col(a).maxCoeff()-P.col(a).minCoeff()+(2.*pad)*h)/h] inside
    [std::max(., 3.)] *)
Definition dim_quotient (colP : Vector D) (h : D) : outcome D :=
  hi <- maxCoeff colP ;;
  lo <- minCoeff colP ;;
  Returns (std_max (div (add (sub hi lo) (mul (mul (of_int 2) pad) h)) h)
                   (of_int 3)).

Definition grid_reals (P : Matrix3 D) : outcome (GridReals D) :=
  e <- max_extent P ;;
  let h := div e (add (of_int 30) (mul (of_int 2) pad)) in
  lo <- colwise_minCoeff P ;;
  let corner := Row3 (sub (c0 lo) (mul pad h))
                     (sub (c1 lo) (mul pad h))
                     (sub (c2 lo) (mul pad h)) in
  qx <- dim_quotient (col0 P) h ;;
  qy <- dim_quotient (col1 P) h ;;
  qz <- dim_quotient (col2 P) h ;;
  Returns (MkGridReals e h corner qx qy qz).

(** The assignments [nx = ...; ny = ...; nz = ...;] convert the
    [double] result of [std::max] to [int]. *)
Definition build_grid (P : Matrix3 D) : outcome (Grid D) :=
  r <- grid_reals P ;;
  nx <- of_option (to_int (r_qx r)) ;;
  ny <- of_option (to_int (r_qy r)) ;;
  nz <- of_option (to_int (r_qz r)) ;;
  Returns (MkGrid (r_corner r) (r_h r) nx ny nz).

End GridBuilder.

(* ================================================================== *)
(** * Node positions (source lines 46-59) *)

(** [const auto ind = i + nx*(j + k * ny);] *)
Definition sub2ind (nx ny i j k : Z) : Z := i + nx * (j + k * ny).

(** [M.row(ind) = r] on a matrix whose rows start out unassigned
    ([Eigen::MatrixXd x(rows, 3)] allocates without initialising). *)
Fixpoint set_nth {A : Type} (n : nat) (a : A) (l : list A) : list A :=
  match l, n with
  | [], _ => []
  | _ :: t, O => a :: t
  | b :: t, S n' => b :: set_nth n' a t
  end.

Definition set_row {A : Type} (M : list (option A)) (ind : Z) (r : A)
  : list (option A) :=
  if ind <? 0 then M else set_nth (Z.to_nat ind) (Some r) M.

(** A sequence of row assignments, in order. *)
Definition assign_all {A : Type} (l : list (Z * A)) (M : list (option A))
  : list (option A) :=
  fold_left (fun x a => set_row x (fst a) (snd a)) l M.

Definition get_row {A : Type} (M : list (option A)) (ind : Z) : option A :=
  if ind <? 0 then None else nth (Z.to_nat ind) M None.

Section NodePositions.

Context {D : Type} `{Scalar D}.

(** [corner + h*Eigen::RowVector3d(i,j,k)] *)
Definition node_position (corner : RowVector3 D) (h : D) (i j k : Z)
  : RowVector3 D :=
  row_add corner (row_scale h (Row3 (of_int i) (of_int j) (of_int k))).

(** The assignments of the three nested loops, in execution order. *)
Definition node_assignments (nx ny nz : Z) (corner : RowVector3 D) (h : D)
  : list (Z * RowVector3 D) :=
  flat_map (fun i =>
    flat_map (fun j =>
      map (fun k => (sub2ind nx ny i j k, node_position corner h i j k))
          (range nz))
      (range ny))
    (range nx).

Definition node_positions (nx ny nz : Z) (corner : RowVector3 D) (h : D)
  : list (option (RowVector3 D)) :=
  assign_all (node_assignments nx ny nz corner h)
             (repeat None (Z.to_nat (nx * ny * nz))).

End NodePositions.

(* ================================================================== *)
(** * Sparse matrices *)

(** [Eigen::SparseMatrix<double>] as its shape and its list of
    (row, column, value) triplets; the coefficient at a position is the
    sum of the triplets there.  The compressed storage and the order in
    which Eigen's kernels add up are not modelled. *)
Record SparseMatrix (D : Type) : Type := MkSparse {
  sp_rows : Z;
  sp_cols : Z;
  sp_entries : list (Z * Z * D)
}.

Arguments MkSparse {D} sp_rows sp_cols sp_entries.
Arguments sp_rows {D} s.
Arguments sp_cols {D} s.
Arguments sp_entries {D} s.

(** Every triplet lies inside the shape: an invariant of Eigen's sparse
    matrices. *)
Definition sp_wf {D : Type} (A : SparseMatrix D) : Prop :=
  0 <= sp_rows A /\ 0 <= sp_cols A /\
  Forall (fun e => 0 <= fst (fst e) < sp_rows A /\ 0 <= snd (fst e) < sp_cols A)
         (sp_entries A).

Fixpoint add_at {D : Type} (f : D -> D -> D) (n : nat) (a : D) (l : list D)
  : list D :=
  match l, n with
  | [], _ => []
  | b :: t, O => f b a :: t
  | b :: t, S n' => b :: add_at f n' a t
  end.

Section Sparse.

Context {D : Type} `{Scalar D}.

(** [Eigen::SparseMatrix<double> A(rows, cols);] *)
Definition sp_empty (r c : Z) : SparseMatrix D := MkSparse r c [].

(** [A.transpose()] *)
Definition transpose (A : SparseMatrix D) : SparseMatrix D :=
  MkSparse (sp_cols A) (sp_rows A)
           (map (fun e => (snd (fst e), fst (fst e), snd e)) (sp_entries A)).

Definition vget (x : Vector D) (c : Z) : D := nth (Z.to_nat c) x (of_int 0).

(** [y(r) += w * x(c)] for every triplet, from [y = 0]. *)
Definition accumulate (es : list (Z * Z * D)) (x : Vector D) (y : Vector D)
  : Vector D :=
  fold_left (fun y e =>
               add_at add (Z.to_nat (fst (fst e))) (mul (snd e) (vget x (snd (fst e)))) y)
            es y.

(** [A * x], sparse times dense vector. *)
Definition spmv (A : SparseMatrix D) (x : Vector D) : outcome (Vector D) :=
  _ <- eigen_assert (sp_cols A =? rows x) ;;
  Returns (accumulate (sp_entries A) x (repeat (of_int 0) (Z.to_nat (sp_rows A)))).

(** [A * B], sparse times sparse. *)
Definition sp_mul (A B : SparseMatrix D) : outcome (SparseMatrix D) :=
  _ <- eigen_assert (sp_cols A =? sp_rows B) ;;
  Returns (MkSparse (sp_rows A) (sp_cols B)
    (flat_map (fun a =>
       flat_map (fun b =>
         if snd (fst a) =? fst (fst b)
         then [(fst (fst a), snd (fst b), mul (snd a) (snd b))]
         else [])
         (sp_entries B))
       (sp_entries A))).

(** [g.array() - sigma] *)
Definition array_sub (g : Vector D) (sigma : D) : Vector D :=
  map (fun gi => sub gi sigma) g.

End Sparse.

(* ================================================================== *)
(** * The pipeline (source lines 19-108) *)

Module Eigen.
(** [Eigen::ComputationInfo], what [solver.info()] reports. *)
Inductive ComputationInfo : Type :=
| Success
| NumericalIssue
| NoConvergence
| InvalidInput.
End Eigen.

(** [Eigen::MatrixXi] with three columns. *)
Definition FaceMatrix : Type := list (Z * Z * Z).

(** [a * b * c] and [a + b + c] on [int]. *)
Definition int_mul3 (a b c : Z) : outcome Z :=
  t <- checked_int (a * b) ;; checked_int (t * c).

Definition int_add3 (a b c : Z) : outcome Z :=
  t <- checked_int (a + b) ;; checked_int (t + c).

(** The staggered interpolation matrices and the right-hand side
    (lines 62-83). *)
Record Staggered (D : Type) : Type := MkStaggered {
  s_Wx : SparseMatrix D;
  s_Wy : SparseMatrix D;
  s_Wz : SparseMatrix D;
  s_vx : Vector D;
  s_vy : Vector D;
  s_vz : Vector D;
  s_v : Vector D
}.

Arguments MkStaggered {D}.
Arguments s_Wx {D} s.
Arguments s_Wy {D} s.
Arguments s_Wz {D} s.
Arguments s_vx {D} s.
Arguments s_vy {D} s.
Arguments s_vz {D} s.
Arguments s_v {D} s.

(** The gradient matrix, the system handed to the solver, and the
    solver's answer with the status it would report (lines 85-93). *)
Record Potential (D : Type) : Type := MkPotential {
  p_G : SparseMatrix D;
  p_A : SparseMatrix D;
  p_b : Vector D;
  p_solved : Vector D;
  p_info : Eigen.ComputationInfo
}.

Arguments MkPotential {D}.
Arguments p_G {D} p.
Arguments p_A {D} p.
Arguments p_b {D} p.
Arguments p_solved {D} p.
Arguments p_info {D} p.

(** The interpolation matrix of the primary grid, the iso-value and the
    shifted field (lines 96-101). *)
Record Calibration (D : Type) : Type := MkCalibration {
  k_W : SparseMatrix D;
  k_sigma : D;
  k_g : Vector D
}.

Arguments MkCalibration {D}.
Arguments k_W {D} c.
Arguments k_sigma {D} c.
Arguments k_g {D} c.

(** What the routine has computed when it reaches the extraction call. *)
Record Locals (D : Type) : Type := MkLocals {
  l_n : Z;
  l_grid : Grid D;
  l_x : list (option (RowVector3 D));
  l_staggered : Staggered D;
  l_potential : Potential D;
  l_calibration : Calibration D
}.

Arguments MkLocals {D}.
Arguments l_n {D} l.
Arguments l_grid {D} l.
Arguments l_x {D} l.
Arguments l_staggered {D} l.
Arguments l_potential {D} l.
Arguments l_calibration {D} l.

(** The caller's matrices live in a store, by address: an
    [Eigen::MatrixXd] holds points, normals or vertices, an
    [Eigen::MatrixXi] holds faces. *)
Inductive object (D : Type) : Type :=
| MatrixXd (M : Matrix3 D)
| MatrixXi (M : FaceMatrix).

Arguments MatrixXd {D} M.
Arguments MatrixXi {D} M.

Definition address : Type := nat.

Definition store (D : Type) : Type := address -> option (object D).

(** Writing through a reference replaces the object at its address. *)
Definition store_write {D : Type} (m : store D) (p : address) (o : object D)
  : store D :=
  fun q => if Nat.eqb q p then Some o else m q.

Definition store_of {D : Type} (l : list (object D)) : store D :=
  fun q => nth_error l q.

(** The four references of a call, [const Eigen::MatrixXd & P],
    [const Eigen::MatrixXd & N], [Eigen::MatrixXd & V] and
    [Eigen::MatrixXi & F].  Nothing keeps two of them from naming the
    same object. *)
Record Arguments_ : Type := MkArgs {
  arg_P : address;
  arg_N : address;
  arg_V : address;
  arg_F : address
}.

(** [(nx-1)*ny*nz + nx*(ny-1)*nz + nx*ny*(nz-1)] on [int]. *)
Definition int_staggered_total (nx ny nz : Z) : outcome Z :=
  sx <- int_mul3 (nx - 1) ny nz ;;
  sy <- int_mul3 nx (ny - 1) nz ;;
  sz <- int_mul3 nx ny (nz - 1) ;;
  int_add3 sx sy sz.

Section Pipeline.

Context {D : Type} `{Scalar D}.

(** The routines the source calls and that are not part of it.
    [fd_interpolate] and [fd_grad] receive the matrix they fill by
    reference, already sized by the caller; [BiCGSTAB A b] is
    [solver.compute(A); solver.solve(b)] together with the status a
    later [solver.info()] would report; [marching_cubes] receives the
    caller's [V] and [F] by reference. *)
Variable fd_interpolate :
  Z -> Z -> Z -> D -> RowVector3 D -> Matrix3 D -> SparseMatrix D -> SparseMatrix D.
Variable fd_grad : Z -> Z -> Z -> D -> SparseMatrix D -> SparseMatrix D.
Variable BiCGSTAB : SparseMatrix D -> Vector D -> Vector D * Eigen.ComputationInfo.
Variable marching_cubes :
  Vector D -> list (option (RowVector3 D)) -> Z -> Z -> Z ->
  Matrix3 D -> FaceMatrix -> Matrix3 D * FaceMatrix.

(** Lines 62-83: the three staggered interpolation matrices, the
    scattered normal components and their concatenation [v]. *)
Definition staggered_samples (grid : Grid D) (P N : Matrix3 D)
  : outcome (Staggered D) :=
  let n := rows P in
  let nx := g_nx grid in
  let ny := g_ny grid in
  let nz := g_nz grid in
  let h := g_h grid in
  let corner := g_corner grid in
  sx <- int_mul3 (nx - 1) ny nz ;;
  sy <- int_mul3 nx (ny - 1) nz ;;
  sz <- int_mul3 nx ny (nz - 1) ;;
  let Wx := fd_interpolate (nx - 1) ny nz h
              (row_add corner (Row3 (div h (of_int 2)) (of_int 0) (of_int 0)))
              P (sp_empty n sx) in
  let Wy := fd_interpolate nx (ny - 1) nz h
              (row_add corner (Row3 (of_int 0) (div h (of_int 2)) (of_int 0)))
              P (sp_empty n sy) in
  let Wz := fd_interpolate nx ny (nz - 1) h
              (row_add corner (Row3 (of_int 0) (of_int 0) (div h (of_int 2))))
              P (sp_empty n sz) in
  vx <- spmv (transpose Wx) (col0 N) ;;
  vy <- spmv (transpose Wy) (col1 N) ;;
  vz <- spmv (transpose Wz) (col2 N) ;;
  total <- int_add3 sx sy sz ;;
  let v := vx ++ vy ++ vz in
  _ <- eigen_assert (rows v =? total) ;;
  Returns (MkStaggered Wx Wy Wz vx vy vz v).

(** Lines 85-93: the gradient matrix and the solve. *)
Definition solve_potential (grid : Grid D) (v : Vector D)
  : outcome (Potential D) :=
  let nx := g_nx grid in
  let ny := g_ny grid in
  let nz := g_nz grid in
  total <- int_staggered_total nx ny nz ;;
  nodes <- int_mul3 nx ny nz ;;
  let G := fd_grad nx ny nz (g_h grid) (sp_empty total nodes) in
  A <- sp_mul (transpose G) G ;;
  b <- spmv (transpose G) v ;;
  let solved := BiCGSTAB A b in
  Returns (MkPotential G A b (fst solved) (snd solved)).

(** [(W * g).sum() / n] (line 100). *)
Definition iso_value (W : SparseMatrix D) (g : Vector D) (n : Z) : outcome D :=
  Wg <- spmv W g ;;
  Returns (div (vsum Wg) (of_int n)).

(** Lines 96-101: the iso-value and the shift of [g]. *)
Definition calibrate (grid : Grid D) (P : Matrix3 D) (g : Vector D)
  : outcome (Calibration D) :=
  let n := rows P in
  let nx := g_nx grid in
  let ny := g_ny grid in
  let nz := g_nz grid in
  nodes <- int_mul3 nx ny nz ;;
  let W := fd_interpolate nx ny nz (g_h grid) (g_corner grid) P (sp_empty n nodes) in
  sigma <- iso_value W g n ;;
  Returns (MkCalibration W sigma (array_sub g sigma)).

Definition poisson_locals (P N : Matrix3 D) : outcome (Locals D) :=
  let n := rows P in
  grid <- build_grid P ;;
  _ <- int_mul3 (g_nx grid) (g_ny grid) (g_nz grid) ;;
  let x := node_positions (g_nx grid) (g_ny grid) (g_nz grid)
                          (g_corner grid) (g_h grid) in
  s <- staggered_samples grid P N ;;
  p <- solve_potential grid (s_v s) ;;
  k <- calibrate grid P (p_solved p) ;;
  Returns (MkLocals n grid x s p k).

(** The routine: everything above, then
    [igl::copyleft::marching_cubes(g, x, nx, ny, nz, V, F)]. *)
Definition poisson_surface_reconstruction
  (P N : Matrix3 D) (V : Matrix3 D) (F : FaceMatrix)
  : outcome (Matrix3 D * FaceMatrix) :=
  l <- poisson_locals P N ;;
  Returns (marching_cubes (k_g (l_calibration l)) (l_x l)
             (g_nx (l_grid l)) (g_ny (l_grid l)) (g_nz (l_grid l)) V F).

(** The call as the caller sees it.  [P] and [N] are read through
    their references; the only writes are those of the extraction, the
    last statement, through [V] and [F].  A reference to no object, or to
    one of the other matrix type, is no call of this routine. *)
Definition call (a : Arguments_) (m : store D) : outcome (store D) :=
  match m (arg_P a), m (arg_N a), m (arg_V a), m (arg_F a) with
  | Some (MatrixXd P), Some (MatrixXd N), Some (MatrixXd V), Some (MatrixXi F) =>
      VF <- poisson_surface_reconstruction P N V F ;;
      Returns (store_write (store_write m (arg_V a) (MatrixXd (fst VF)))
                           (arg_F a) (MatrixXi (snd VF)))
  | _, _, _, _ => Undefined
  end.

End Pipeline.

(* ================================================================== *)
(** * The two routines of the repository that the source calls *)

Section Collaborators.

Context {D : Type} `{Scalar D}.

(** Modelled from the spec: the rows of one block of the gradient
    matrix ([fd_grad] is declared in fd_grad.h; its definition is not
    among the sources).  Section 4.4: for each node [(i,j,k)] of the
    grid staggered along the axis [(dx,dy,dz)], a row with [-1/h] at
    the primary node [(i,j,k)] and [+1/h] at the next primary node
    along the axis; rows and columns are numbered by the node index of
    section 3, the rows within the staggered grid, after the [offset]
    rows of the blocks before. *)
Definition fd_partial (nx ny nz : Z) (h : D) (dx dy dz : Z) (offset : Z)
  : list (Z * Z * D) :=
  let sx := nx - dx in
  let sy := ny - dy in
  let sz := nz - dz in
  flat_map (fun i =>
    flat_map (fun j =>
      flat_map (fun k =>
        [ (offset + sub2ind sx sy i j k, sub2ind nx ny i j k,
           div (of_int (-1)) h);
          (offset + sub2ind sx sy i j k, sub2ind nx ny (i + dx) (j + dy) (k + dz),
           div (of_int 1) h) ])
        (range sz))
      (range sy))
    (range sx).

(** Modelled from the spec: [fd_grad] (definition not among the
    sources).  Sections 3 and 4.4: shape (sum of the staggered node
    counts, primary node count), the x-, y- and z-derivative blocks
    stacked in that order. *)
Definition fd_grad (nx ny nz : Z) (h : D) (G : SparseMatrix D)
  : SparseMatrix D :=
  let sx := (nx - 1) * ny * nz in
  let sy := nx * (ny - 1) * nz in
  let sz := nx * ny * (nz - 1) in
  MkSparse (sx + sy + sz) (nx * ny * nz)
    (fd_partial nx ny nz h 1 0 0 0 ++
     fd_partial nx ny nz h 0 1 0 sx ++
     fd_partial nx ny nz h 0 0 1 (sx + sy)).

(** Modelled from the spec: the cell of a coordinate, section 4.2:
    [floor(q)] clamped to the valid cells [0 .. n-2], computed as the
    last [i] of that range that is not above [q] (cell [0] when there
    is none). *)
Definition cell_index (q : D) (n : Z) : Z :=
  fold_left (fun acc i => if ltb q (of_int i) then acc else i) (range (n - 1)) 0.

(** Modelled from the spec: the row of the interpolation matrix for the
    point [pt] of index [p], section 4.2: the eight corner nodes of the
    cell of [pt], each with the product over the axes of [1 - t] (lower
    corner) or [t] (upper corner), [t] the offset of [pt] in its cell
    in units of [h]. *)
Definition interp_row (nx ny nz : Z) (h : D) (corner : RowVector3 D)
  (p : Z) (pt : RowVector3 D) : list (Z * Z * D) :=
  let qx := div (sub (c0 pt) (c0 corner)) h in
  let qy := div (sub (c1 pt) (c1 corner)) h in
  let qz := div (sub (c2 pt) (c2 corner)) h in
  let i := cell_index qx nx in
  let j := cell_index qy ny in
  let k := cell_index qz nz in
  let tx := sub qx (of_int i) in
  let ty := sub qy (of_int j) in
  let tz := sub qz (of_int k) in
  let w (t : D) (d : Z) : D := if d =? 0 then sub (of_int 1) t else t in
  flat_map (fun di =>
    flat_map (fun dj =>
      map (fun dk =>
             (p, sub2ind nx ny (i + di) (j + dj) (k + dk),
              mul (mul (w tx di) (w ty dj)) (w tz dk)))
          [0; 1])
      [0; 1])
    [0; 1].

(** Modelled from the spec: [fd_interpolate] (declared in
    fd_interpolate.h; definition not among the sources).  Sections 3
    and 4.2: shape (number of points, node count), one row per point. *)
Definition fd_interpolate (nx ny nz : Z) (h : D) (corner : RowVector3 D)
  (P : Matrix3 D) (W : SparseMatrix D) : SparseMatrix D :=
  MkSparse (rows P) (nx * ny * nz)
    (flat_map (fun ip => interp_row nx ny nz h corner (fst ip) (snd ip))
              (combine (range (rows P)) P)).

End Collaborators.

(* ================================================================== *)
(** * Staggered grids and the pieces of the specification *)

Inductive axis : Type := AxisX | AxisY | AxisZ.

Section Staggered.

Context {D : Type} `{Scalar D}.

(** The grid staggered along an axis (section 3): one node fewer along
    the axis, the corner moved by [h/2] along it. *)
Definition staggered_grid (a : axis) (g : Grid D) : Grid D :=
  let s := div (g_h g) (of_int 2) in
  let o := of_int 0 in
  match a with
  | AxisX => MkGrid (row_add (g_corner g) (Row3 s o o)) (g_h g)
                    (g_nx g - 1) (g_ny g) (g_nz g)
  | AxisY => MkGrid (row_add (g_corner g) (Row3 o s o)) (g_h g)
                    (g_nx g) (g_ny g - 1) (g_nz g)
  | AxisZ => MkGrid (row_add (g_corner g) (Row3 o o s)) (g_h g)
                    (g_nx g) (g_ny g) (g_nz g - 1)
  end.

Definition node_count (g : Grid D) : Z := g_nx g * g_ny g * g_nz g.

(** The number of rows of the gradient matrix and of [v]. *)
Definition staggered_count (g : Grid D) : Z :=
  node_count (staggered_grid AxisX g) +
  node_count (staggered_grid AxisY g) +
  node_count (staggered_grid AxisZ g).

Definition column (a : axis) (M : Matrix3 D) : Vector D :=
  match a with
  | AxisX => col0 M
  | AxisY => col1 M
  | AxisZ => col2 M
  end.

Definition s_W_axis (a : axis) (s : Staggered D) : SparseMatrix D :=
  match a with
  | AxisX => s_Wx s
  | AxisY => s_Wy s
  | AxisZ => s_Wz s
  end.

Definition s_v_axis (a : axis) (s : Staggered D) : Vector D :=
  match a with
  | AxisX => s_vx s
  | AxisY => s_vy s
  | AxisZ => s_vz s
  end.

End Staggered.

Section Contracts.

Context {D : Type} `{Scalar D}.

(** The shapes the specification gives the matrices of the two absent
    routines (section 3), and the size of a solver's answer. *)
Definition interpolation_shape
  (fdi : Z -> Z -> Z -> D -> RowVector3 D -> Matrix3 D -> SparseMatrix D -> SparseMatrix D)
  : Prop :=
  forall nx ny nz h c P W,
    sp_rows (fdi nx ny nz h c P W) = rows P /\
    sp_cols (fdi nx ny nz h c P W) = nx * ny * nz.

Definition gradient_shape
  (fdg : Z -> Z -> Z -> D -> SparseMatrix D -> SparseMatrix D) : Prop :=
  forall nx ny nz h G,
    sp_rows (fdg nx ny nz h G) =
      (nx - 1) * ny * nz + nx * (ny - 1) * nz + nx * ny * (nz - 1) /\
    sp_cols (fdg nx ny nz h G) = nx * ny * nz.

Definition solver_shape
  (solver : SparseMatrix D -> Vector D -> Vector D * Eigen.ComputationInfo) : Prop :=
  forall A b, 0 <= sp_cols A -> rows (fst (solver A b)) = sp_cols A.

(** The extraction writes [V] and [F] without reading them. *)
Definition extraction_overwrites
  (mc : Vector D -> list (option (RowVector3 D)) -> Z -> Z -> Z ->
        Matrix3 D -> FaceMatrix -> Matrix3 D * FaceMatrix) : Prop :=
  forall g x nx ny nz V F V' F',
    mc g x nx ny nz V F = mc g x nx ny nz V' F'.

(** Grids whose index arithmetic stays inside [int]. *)
Definition grid_fits_int (g : Grid D) : Prop :=
  1 <= g_nx g /\ 1 <= g_ny g /\ 1 <= g_nz g /\
  3 * (g_nx g * g_ny g * g_nz g) <= int_max.

End Contracts.

Section Doubles.

Context {D : Type} `{Scalar D}.

(** A solver that stops before its first iteration: the zero start
    vector, reported as not converged. *)
Definition unconverged_solver (A : SparseMatrix D) (b : Vector D)
  : Vector D * Eigen.ComputationInfo :=
  (repeat (of_int 0) (Z.to_nat (sp_cols A)), Eigen.NoConvergence).

(** An extraction that finds no sign change: the empty mesh. *)
Definition empty_mesh (g : Vector D) (x : list (option (RowVector3 D)))
  (nx ny nz : Z) (V : Matrix3 D) (F : FaceMatrix) : Matrix3 D * FaceMatrix :=
  ([], []).

End Doubles.

(** Two points, extents 46, 1.5 and 0, in binary64, and a normal for
    each. *)
Definition two_points_f : Matrix3 float := [Row3 0 0 0; Row3 46 1.5 0]%float.
Definition two_normals_f : Matrix3 float := [Row3 0 0 1; Row3 0 0 1]%float.
Definition two_points_grid_f : Grid float :=
  MkGrid (Row3 (-8) (-8) (-8))%float 1%float 62 17 16.

(** Two points far from the origin: extents 2, 1 and 0 at x = 1e16,
    where consecutive binary64 numbers are 2 apart. *)
Definition far_points_f : Matrix3 float :=
  [Row3 1e16 0 0; Row3 10000000000000002 1 0]%float.

(** * The grid of the specification (section 4.1), in the arithmetic of
    the code *)

Section ReferenceAlgorithm.

Context {D : Type} `{Scalar D}.

(** The largest and the smallest of [a] and the members of [l]. *)
Fixpoint largest_of (a : D) (l : list D) : D :=
  match l with
  | [] => a
  | b :: t => largest_of (if ltb a b then b else a) t
  end.

Fixpoint smallest_of (a : D) (l : list D) : D :=
  match l with
  | [] => a
  | b :: t => smallest_of (if ltb b a then b else a) t
  end.

(** Section 4.1 of the specification, in the arithmetic of the scalar
    type: [pad = 8], [h = max_extent/(30+2*pad)], [corner = min(P) -
    pad*h], and per axis the quotient [(max - min + 2*pad*h)/h], kept at
    3 or more and [round]ed to an integer. *)
Definition reference_count (round : D -> option Z) (lo hi h : D) : option Z :=
  let q := div (add (sub hi lo) (mul (mul (of_int 2) (of_int 8)) h)) h in
  round (if ltb q (of_int 3) then of_int 3 else q).

Definition reference_build (round : D -> option Z) (p : RowVector3 D) (t : Matrix3 D)
  : option (Grid D) :=
  let lo := Row3 (smallest_of (c0 p) (map c0 t)) (smallest_of (c1 p) (map c1 t))
                 (smallest_of (c2 p) (map c2 t)) in
  let hi := Row3 (largest_of (c0 p) (map c0 t)) (largest_of (c1 p) (map c1 t))
                 (largest_of (c2 p) (map c2 t)) in
  let max_extent :=
    largest_of (sub (c0 hi) (c0 lo)) [sub (c1 hi) (c1 lo); sub (c2 hi) (c2 lo)] in
  let h := div max_extent (add (of_int 30) (mul (of_int 2) (of_int 8))) in
  let corner := Row3 (sub (c0 lo) (mul (of_int 8) h)) (sub (c1 lo) (mul (of_int 8) h))
                     (sub (c2 lo) (mul (of_int 8) h)) in
  match reference_count round (c0 lo) (c0 hi) h with
  | Some nx =>
      match reference_count round (c1 lo) (c1 hi) h with
      | Some ny =>
          match reference_count round (c2 lo) (c2 hi) h with
          | Some nz => Some (MkGrid corner h nx ny nz)
          | None => None
          end
      | None => None
      end
  | None => None
  end.

End ReferenceAlgorithm.

(** * The grid of the specification (section 4.1), over the rationals *)

Definition bbox_min (l : list Q) : Q :=
  match l with
  | [] => 0%Q
  | a :: t => fold_left Qmin t a
  end.

Definition bbox_max (l : list Q) : Q :=
  match l with
  | [] => 0%Q
  | a :: t => fold_left Qmax t a
  end.

Definition extent (l : list Q) : Q := (bbox_max l - bbox_min l)%Q.

Definition bbox_max_extent (P : Matrix3 Q) : Q :=
  Qmax (Qmax (extent (col0 P)) (extent (col1 P))) (extent (col2 P)).

Definition reference_h (P : Matrix3 Q) : Q := (bbox_max_extent P / (30 + 2 * 8))%Q.

Definition reference_dim (round : Q -> Z) (l : list Q) (h : Q) : Z :=
  Z.max (round ((bbox_max l - bbox_min l + 2 * 8 * h) / h)%Q) 3.

Definition reference_grid (round : Q -> Z) (P : Matrix3 Q) : Grid Q :=
  let h := reference_h P in
  MkGrid (Row3 (bbox_min (col0 P) - 8 * h)%Q
               (bbox_min (col1 P) - 8 * h)%Q
               (bbox_min (col2 P) - 8 * h)%Q)
         h
         (reference_dim round (col0 P) h)
         (reference_dim round (col1 P) h)
         (reference_dim round (col2 P) h).

(** [x] is the finite value [q]. *)
Definition xeq (x : xreal) (q : Q) : Prop :=
  match x with
  | Fin a => a == q
  | _ => False
  end.

Definition row_agrees (r : RowVector3 xreal) (s : RowVector3 Q) : Prop :=
  xeq (c0 r) (c0 s) /\ xeq (c1 r) (c1 s) /\ xeq (c2 r) (c2 s).

Definition grid_agrees (g : Grid xreal) (r : Grid Q) : Prop :=
  row_agrees (g_corner g) (g_corner r) /\ xeq (g_h g) (g_h r) /\
  g_nx g = g_nx r /\ g_ny g = g_ny r /\ g_nz g = g_nz r.

Definition fin_row (r : RowVector3 Q) : RowVector3 xreal :=
  Row3 (Fin (c0 r)) (Fin (c1 r)) (Fin (c2 r)).

Definition fin_matrix (P : Matrix3 Q) : Matrix3 xreal := map fin_row P.

(* ================================================================== *)
(** * Facts *)

(** * Facts about [range] and the node index *)

Lemma in_range (n z : Z) : In z (range n) <-> 0 <= z < n.
Proof.
  unfold range. rewrite in_map_iff. split.
  - intros [m [<- Hm]]. apply in_seq in Hm. lia.
  - intros Hz. exists (Z.to_nat z). split; [lia|]. apply in_seq. lia.
Qed.

Lemma NoDup_range (n : Z) : NoDup (range n).
Proof.
  unfold range. apply Injective_map_NoDup.
  - intros a b Hab. lia.
  - apply seq_NoDup.
Qed.

Lemma length_range (n : Z) : length (range n) = Z.to_nat n.
Proof. unfold range. now rewrite length_map, length_seq. Qed.

Lemma sub2ind_bounds (nx ny nz i j k : Z) :
  0 <= i < nx -> 0 <= j < ny -> 0 <= k < nz ->
  0 <= sub2ind nx ny i j k < nx * ny * nz.
Proof.
  intros Hi Hj Hk. unfold sub2ind.
  assert (0 <= j + k * ny <= ny * nz - 1) by nia.
  nia.
Qed.

Lemma sub2ind_inj (nx ny i j k i' j' k' : Z) :
  0 <= i < nx -> 0 <= j < ny -> 0 <= i' < nx -> 0 <= j' < ny ->
  sub2ind nx ny i j k = sub2ind nx ny i' j' k' ->
  i = i' /\ j = j' /\ k = k'.
Proof.
  unfold sub2ind. intros Hi Hj Hi' Hj' E.
  assert (E1 : j + k * ny = j' + k' * ny /\ i = i').
  { apply (Z.div_mod_unique nx); lia. }
  destruct E1 as [E1 ->].
  assert (E2 : k = k' /\ j = j').
  { apply (Z.div_mod_unique ny); lia. }
  lia.
Qed.

(** The inverse of [sub2ind]. *)
Definition ind2sub (nx ny ind : Z) : Z * Z * Z :=
  (ind mod nx, (ind / nx) mod ny, ind / nx / ny).

Lemma ind2sub_spec (nx ny nz ind : Z) :
  0 < nx -> 0 < ny -> 0 <= ind < nx * ny * nz ->
  let '(i, j, k) := ind2sub nx ny ind in
  0 <= i < nx /\ 0 <= j < ny /\ 0 <= k < nz /\ sub2ind nx ny i j k = ind.
Proof.
  intros Hx Hy Hind. unfold ind2sub, sub2ind.
  pose proof (Z.mod_pos_bound ind nx Hx).
  pose proof (Z.mod_pos_bound (ind / nx) ny Hy).
  pose proof (Z.div_mod ind nx ltac:(lia)).
  pose proof (Z.div_mod (ind / nx) ny ltac:(lia)).
  assert (0 <= ind / nx) by (apply Z.div_pos; lia).
  assert (0 <= ind / nx / ny) by (apply Z.div_pos; lia).
  assert (ind / nx / ny < nz).
  { apply Z.div_lt_upper_bound; [lia|]. apply Z.div_lt_upper_bound; [lia|]. nia. }
  repeat split; try lia.
Qed.

(** * Assignments to a matrix whose rows start out unassigned *)

Lemma length_set_nth {A : Type} (n : nat) (a : A) (l : list A) :
  length (set_nth n a l) = length l.
Proof.
  revert n. induction l as [|b t IH]; intros [|n]; simpl; auto.
Qed.

Lemma nth_set_nth_eq {A : Type} (n : nat) (a d : A) (l : list A) :
  (n < length l)%nat -> nth n (set_nth n a l) d = a.
Proof.
  revert n. induction l as [|b t IH]; intros [|n] Hn; simpl in *; try lia; auto.
  apply IH. lia.
Qed.

Lemma nth_set_nth_neq {A : Type} (n m : nat) (a d : A) (l : list A) :
  n <> m -> nth m (set_nth n a l) d = nth m l d.
Proof.
  revert n m. induction l as [|b t IH]; intros [|n] [|m] Hnm; simpl; auto; try lia.
Qed.

Lemma length_set_row {A : Type} (M : list (option A)) (ind : Z) (r : A) :
  length (set_row M ind r) = length M.
Proof.
  unfold set_row. destruct (ind <? 0); [reflexivity | apply length_set_nth].
Qed.

Lemma get_set_row_eq {A : Type} (M : list (option A)) (ind : Z) (r : A) :
  0 <= ind < Z.of_nat (length M) ->
  get_row (set_row M ind r) ind = Some r.
Proof.
  intros Hind. unfold get_row, set_row.
  destruct (ind <? 0) eqn:E; [lia|].
  apply nth_set_nth_eq. lia.
Qed.

Lemma get_set_row_neq {A : Type} (M : list (option A)) (ind ind' : Z) (r : A) :
  ind <> ind' -> get_row (set_row M ind r) ind' = get_row M ind'.
Proof.
  intros Hne. unfold get_row, set_row.
  destruct (ind' <? 0) eqn:E'; [reflexivity|].
  destruct (ind <? 0) eqn:E; [reflexivity|].
  apply nth_set_nth_neq. lia.
Qed.

Lemma length_assign_all {A : Type} (l : list (Z * A)) (M : list (option A)) :
  length (assign_all l M) = length M.
Proof.
  revert M. induction l as [|a l IH]; intros M; simpl; [reflexivity|].
  unfold assign_all in *. simpl. rewrite IH. apply length_set_row.
Qed.

Lemma get_assign_all_other {A : Type} (l : list (Z * A)) (M : list (option A)) (ind : Z) :
  ~ In ind (map fst l) -> get_row (assign_all l M) ind = get_row M ind.
Proof.
  revert M. induction l as [|a l IH]; intros M Hnin; [reflexivity|].
  unfold assign_all in *. simpl in *.
  rewrite IH by tauto. apply get_set_row_neq. tauto.
Qed.

Lemma get_assign_all_in {A : Type} (l : list (Z * A)) (M : list (option A))
  (ind : Z) (r : A) :
  NoDup (map fst l) -> In (ind, r) l -> 0 <= ind < Z.of_nat (length M) ->
  get_row (assign_all l M) ind = Some r.
Proof.
  revert M. induction l as [|a l IH]; intros M Hnd Hin Hind; [contradiction|].
  simpl in Hnd. apply NoDup_cons_iff in Hnd as [Hfresh Hnd].
  destruct Hin as [-> | Hin].
  - change (get_row (assign_all l (set_row M ind r)) ind = Some r).
    rewrite get_assign_all_other by exact Hfresh.
    now apply get_set_row_eq.
  - change (get_row (assign_all l (set_row M (fst a) (snd a))) ind = Some r).
    apply IH; auto. now rewrite length_set_row.
Qed.

Lemma NoDup_flat_map {A B : Type} (f : A -> list B) (l : list A) :
  NoDup l ->
  (forall a, In a l -> NoDup (f a)) ->
  (forall a a' b, In a l -> In a' l -> In b (f a) -> In b (f a') -> a = a') ->
  NoDup (flat_map f l).
Proof.
  induction l as [|a l IH]; intros Hnd Hf Hdisj; simpl; [constructor|].
  apply NoDup_cons_iff in Hnd as [Hfresh Hnd].
  apply NoDup_app.
  - apply Hf. now left.
  - apply IH; auto.
    + intros; apply Hf; now right.
    + intros a1 a2 b H1 H2; apply Hdisj; now right.
  - intros b Hb Hb'. apply in_flat_map in Hb' as [a' [Ha' Hb']].
    assert (a = a') by (apply (Hdisj a a' b); auto; [now left | now right]).
    subst. contradiction.
Qed.

Lemma map_flat_map {A B C : Type} (f : B -> C) (g : A -> list B) (l : list A) :
  map f (flat_map g l) = flat_map (fun a => map f (g a)) l.
Proof.
  induction l as [|a l IH]; simpl; [reflexivity|]. now rewrite map_app, IH.
Qed.

Section NodeFacts.

Context {D : Type} `{Scalar D}.
Variables (nx ny nz : Z) (corner : RowVector3 D) (h : D).

Lemma in_node_assignments (ind : Z) (r : RowVector3 D) :
  In (ind, r) (node_assignments nx ny nz corner h) <->
  exists i j k, 0 <= i < nx /\ 0 <= j < ny /\ 0 <= k < nz /\
                ind = sub2ind nx ny i j k /\ r = node_position corner h i j k.
Proof.
  unfold node_assignments. rewrite in_flat_map. split.
  - intros [i [Hi Hin]]. apply in_flat_map in Hin as [j [Hj Hin]].
    apply in_map_iff in Hin as [k [E Hk]]. inversion E; subst.
    exists i, j, k. rewrite in_range in Hi, Hj, Hk. auto.
  - intros (i & j & k & Hi & Hj & Hk & -> & ->).
    exists i. split; [now apply in_range|].
    apply in_flat_map. exists j. split; [now apply in_range|].
    apply in_map_iff. exists k. split; [reflexivity | now apply in_range].
Qed.

Lemma node_assignment_rows :
  map fst (node_assignments nx ny nz corner h) =
  flat_map (fun i => flat_map (fun j => map (fun k => sub2ind nx ny i j k) (range nz)) (range ny)) (range nx).
Proof.
  unfold node_assignments. rewrite map_flat_map.
  apply flat_map_ext; intros i. rewrite map_flat_map.
  apply flat_map_ext; intros j. now rewrite map_map.
Qed.

Lemma NoDup_node_assignment_rows :
  NoDup (map fst (node_assignments nx ny nz corner h)).
Proof.
  rewrite node_assignment_rows.
  apply NoDup_flat_map; [apply NoDup_range | |].
  - intros i Hi. apply NoDup_flat_map; [apply NoDup_range | |].
    + intros j Hj. apply Injective_map_NoDup_in; [|apply NoDup_range].
      intros k k' Hk Hk' E. apply in_range in Hi, Hj.
      apply sub2ind_inj in E; tauto.
    + intros j j' b Hj Hj' Hb Hb'.
      apply in_map_iff in Hb as [k [<- Hk]].
      apply in_map_iff in Hb' as [k' [E Hk']].
      apply in_range in Hi, Hj, Hj'. apply sub2ind_inj in E; tauto || lia.
  - intros i i' b Hi Hi' Hb Hb'.
    apply in_flat_map in Hb as [j [Hj Hb]]. apply in_map_iff in Hb as [k [<- Hk]].
    apply in_flat_map in Hb' as [j' [Hj' Hb']]. apply in_map_iff in Hb' as [k' [E Hk']].
    apply in_range in Hi, Hi', Hj, Hj'. apply sub2ind_inj in E; lia.
Qed.

Lemma length_node_positions :
  length (node_positions nx ny nz corner h) = Z.to_nat (nx * ny * nz).
Proof.
  unfold node_positions.
  change (length (assign_all (node_assignments nx ny nz corner h)
                             (repeat None (Z.to_nat (nx * ny * nz)))) = Z.to_nat (nx * ny * nz)).
  now rewrite length_assign_all, repeat_length.
Qed.

Lemma get_node_positions (i j k : Z) :
  0 <= i < nx -> 0 <= j < ny -> 0 <= k < nz ->
  get_row (node_positions nx ny nz corner h) (sub2ind nx ny i j k)
  = Some (node_position corner h i j k).
Proof.
  intros Hi Hj Hk.
  apply (get_assign_all_in (node_assignments nx ny nz corner h)).
  - apply NoDup_node_assignment_rows.
  - apply in_node_assignments. exists i, j, k. auto.
  - rewrite repeat_length. pose proof (sub2ind_bounds nx ny nz i j k Hi Hj Hk). lia.
Qed.

Lemma node_assigned_once (ind : Z) :
  0 <= nx -> 0 <= ny -> 0 <= ind < nx * ny * nz ->
  count_occ Z.eq_dec (map fst (node_assignments nx ny nz corner h)) ind = 1%nat.
Proof.
  intros Hx Hy Hind.
  apply NoDup_count_occ'; [apply NoDup_node_assignment_rows|].
  assert (nx <> 0) by (intros ->; lia).
  assert (ny <> 0) by (intros ->; lia).
  pose proof (ind2sub_spec nx ny nz ind ltac:(lia) ltac:(lia) Hind) as S.
  destruct (ind2sub nx ny ind) as [[i j] k]. destruct S as (Hi & Hj & Hk & E).
  apply in_map_iff. exists (ind, node_position corner h i j k). split; [reflexivity|].
  apply in_node_assignments. exists i, j, k. auto.
Qed.

End NodeFacts.

(** C9.  For non-negative dimensions, the node-position matrix [x] has
    [nx*ny*nz] rows; the row of index [sub2ind nx ny i j k] holds
    [corner + h*(i,j,k)] for every subscript in range; the index map is
    injective on the subscripts in range and reaches every row index, and
    the loops assign every row exactly once.  Holds for any scalar
    arithmetic. *)
Theorem node_index_bijection {D : Type} `{Scalar D}
  (nx ny nz : Z) (corner : RowVector3 D) (h : D) :
  0 <= nx -> 0 <= ny -> 0 <= nz ->
  let x := node_positions nx ny nz corner h in
  rows x = nx * ny * nz /\
  (forall i j k, 0 <= i < nx -> 0 <= j < ny -> 0 <= k < nz ->
     0 <= sub2ind nx ny i j k < nx * ny * nz /\
     get_row x (sub2ind nx ny i j k) = Some (node_position corner h i j k)) /\
  (forall i j k i' j' k',
     0 <= i < nx -> 0 <= j < ny -> 0 <= k < nz ->
     0 <= i' < nx -> 0 <= j' < ny -> 0 <= k' < nz ->
     sub2ind nx ny i j k = sub2ind nx ny i' j' k' ->
     i = i' /\ j = j' /\ k = k') /\
  (forall ind, 0 <= ind < nx * ny * nz ->
     (exists i j k, 0 <= i < nx /\ 0 <= j < ny /\ 0 <= k < nz /\
                    sub2ind nx ny i j k = ind) /\
     count_occ Z.eq_dec (map fst (node_assignments nx ny nz corner h)) ind = 1%nat).
Proof.
  intros Hx Hy Hz x. split; [|split; [|split]].
  - unfold x, rows. rewrite length_node_positions. nia.
  - intros i j k Hi Hj Hk. split.
    + now apply sub2ind_bounds.
    + now apply get_node_positions.
  - intros i j k i' j' k' Hi Hj Hk Hi' Hj' Hk'.
    now apply sub2ind_inj.
  - intros ind Hind. split.
    + assert (nx <> 0) by (intros E; rewrite E in *; lia).
      assert (ny <> 0) by (intros E; rewrite E in *; lia).
      pose proof (ind2sub_spec nx ny nz ind ltac:(lia) ltac:(lia) Hind) as S.
      destruct (ind2sub nx ny ind) as [[i j] k]. exists i, j, k. tauto.
    + now apply node_assigned_once.
Qed.

Lemma node_index_bijection_witness :
  (0 <= 2 /\ 0 <= 3 /\ 0 <= 2) /\
  get_row (node_positions 2 3 2 (Row3 0 0 0) 0.5)%float (sub2ind 2 3 1 2 1)
  = Some (Row3 0.5 1 0.5)%float.
Proof.
  split; [lia|].
  exact (proj2 (proj1 (proj2
    (node_index_bijection (D := float) 2 3 2 (Row3 0 0 0)%float 0.5%float
       ltac:(lia) ltac:(lia) ltac:(lia))) 1 2 1 ltac:(lia) ltac:(lia) ltac:(lia))).
Defined.

Lemma Qltb_true (a b : Q) : Qltb a b = true <-> (a < b)%Q.
Proof.
  unfold Qltb. rewrite negb_true_iff. split.
  - intros E. apply Qnot_le_lt. intros L. apply Qle_bool_iff in L. congruence.
  - intros L. destruct (Qle_bool b a) eqn:E; [|reflexivity].
    apply Qle_bool_iff in E. apply Qlt_not_le in L. contradiction.
Qed.

Lemma Qltb_false (a b : Q) : Qltb a b = false <-> (b <= a)%Q.
Proof.
  unfold Qltb. rewrite negb_false_iff. apply Qle_bool_iff.
Qed.

Lemma std_max_Q (a b : Q) : std_max (D := Q) a b = Qmax a b.
Proof.
  unfold std_max, Qmax, GenericMinMax.gmax.
  change (ltb a b) with (Qltb a b).
  destruct (Qcompare_spec a b) as [E | E | E].
  - assert (L : (b <= a)%Q) by (rewrite E; apply Qle_refl).
    apply Qltb_false in L. now rewrite L.
  - apply Qltb_true in E. now rewrite E.
  - apply Qlt_le_weak, Qltb_false in E. now rewrite E.
Qed.

Lemma std_min_Q (a b : Q) : std_min (D := Q) a b = Qmin a b.
Proof.
  unfold std_min, Qmin, GenericMinMax.gmin.
  change (ltb b a) with (Qltb b a).
  destruct (Qcompare_spec a b) as [E | E | E].
  - assert (L : (a <= b)%Q) by (rewrite E; apply Qle_refl).
    apply Qltb_false in L. now rewrite L.
  - apply Qlt_le_weak, Qltb_false in E. now rewrite E.
  - apply Qltb_true in E. now rewrite E.
Qed.

Lemma std_max_fin (a b : Q) : std_max (Fin a) (Fin b) = Fin (Qmax a b).
Proof.
  rewrite <- std_max_Q. unfold std_max.
  change (ltb (Fin a) (Fin b)) with (Qltb a b).
  change (ltb a b) with (Qltb a b).
  now destruct (Qltb a b).
Qed.

Lemma std_min_fin (a b : Q) : std_min (Fin a) (Fin b) = Fin (Qmin a b).
Proof.
  rewrite <- std_min_Q. unfold std_min.
  change (ltb (Fin b) (Fin a)) with (Qltb b a).
  change (ltb b a) with (Qltb b a).
  now destruct (Qltb b a).
Qed.

Lemma fold_std_max_fin (t : list Q) (a : Q) :
  fold_left std_max (map Fin t) (Fin a) = Fin (fold_left Qmax t a).
Proof.
  revert a. induction t as [|b t IH]; intros a; simpl; [reflexivity|].
  now rewrite std_max_fin, IH.
Qed.

Lemma fold_std_min_fin (t : list Q) (a : Q) :
  fold_left std_min (map Fin t) (Fin a) = Fin (fold_left Qmin t a).
Proof.
  revert a. induction t as [|b t IH]; intros a; simpl; [reflexivity|].
  now rewrite std_min_fin, IH.
Qed.

Lemma maxCoeff_fin (l : list Q) :
  l <> [] -> maxCoeff (map Fin l) = Returns (Fin (bbox_max l)).
Proof.
  destruct l as [|a t]; [congruence|]. intros _. simpl.
  now rewrite fold_std_max_fin.
Qed.

Lemma minCoeff_fin (l : list Q) :
  l <> [] -> minCoeff (map Fin l) = Returns (Fin (bbox_min l)).
Proof.
  destruct l as [|a t]; [congruence|]. intros _. simpl.
  now rewrite fold_std_min_fin.
Qed.

(** Bounds of the bounding box. *)
Lemma fold_Qmax_ge (t : list Q) (a : Q) :
  (a <= fold_left Qmax t a)%Q /\ forall x, In x t -> (x <= fold_left Qmax t a)%Q.
Proof.
  revert a. induction t as [|b t IH]; intros a; simpl.
  - split; [apply Qle_refl | contradiction].
  - destruct (IH (Qmax a b)) as [H1 H2]. split.
    + eapply Qle_trans; [apply Q.le_max_l | exact H1].
    + intros x [<- | Hx]; [|now apply H2].
      eapply Qle_trans; [apply Q.le_max_r | exact H1].
Qed.

Lemma fold_Qmin_le (t : list Q) (a : Q) :
  (fold_left Qmin t a <= a)%Q /\ forall x, In x t -> (fold_left Qmin t a <= x)%Q.
Proof.
  revert a. induction t as [|b t IH]; intros a; simpl.
  - split; [apply Qle_refl | contradiction].
  - destruct (IH (Qmin a b)) as [H1 H2]. split.
    + eapply Qle_trans; [exact H1 | apply Q.le_min_l].
    + intros x [<- | Hx]; [|now apply H2].
      eapply Qle_trans; [exact H1 | apply Q.le_min_r].
Qed.

Lemma bbox_bounds (l : list Q) (x : Q) :
  In x l -> (bbox_min l <= x <= bbox_max l)%Q.
Proof.
  destruct l as [|a t]; [contradiction|]. simpl.
  destruct (fold_Qmax_ge t a) as [M1 M2], (fold_Qmin_le t a) as [m1 m2].
  intros [<- | Hx]; split; auto.
Qed.

Lemma extent_nonneg (l : list Q) : (0 <= extent l)%Q.
Proof.
  unfold extent. destruct l as [|a t]; simpl; [lra|].
  pose proof (bbox_bounds (a :: t) a (or_introl eq_refl)) as B. simpl in B. lra.
Qed.

(** * The grid construction on finite inputs *)

Lemma div_fin (a b : Q) : ~ b == 0 -> div (Fin a) (Fin b) = Fin (a / b).
Proof.
  intros Hb. simpl. unfold XReal.div.
  destruct (Qeq_bool b 0) eqn:E; [|reflexivity].
  apply Qeq_bool_iff in E. contradiction.
Qed.

Lemma Qtruncate_nonneg (q : Q) : (0 <= q)%Q -> Qtruncate q = Qfloor q.
Proof.
  destruct q as [n d]. unfold Qle, Qtruncate, Qfloor. simpl. intros Hn.
  apply Z.quot_div_nonneg; lia.
Qed.

Lemma reference_h_pos (P : Matrix3 Q) :
  (0 < bbox_max_extent P)%Q -> (0 < reference_h P)%Q.
Proof.
  intros HE. unfold reference_h. apply Qlt_shift_div_l; lra.
Qed.

Lemma extent_le_max (P : Matrix3 Q) :
  (extent (col0 P) <= bbox_max_extent P)%Q /\
  (extent (col1 P) <= bbox_max_extent P)%Q /\
  (extent (col2 P) <= bbox_max_extent P)%Q.
Proof.
  unfold bbox_max_extent.
  pose proof (Q.le_max_l (Qmax (extent (col0 P)) (extent (col1 P))) (extent (col2 P))).
  pose proof (Q.le_max_r (Qmax (extent (col0 P)) (extent (col1 P))) (extent (col2 P))).
  pose proof (Q.le_max_l (extent (col0 P)) (extent (col1 P))).
  pose proof (Q.le_max_r (extent (col0 P)) (extent (col1 P))).
  repeat split; lra.
Qed.

(** The quotient whose integer part is a dimension. *)
Definition dim_ratio (l : list Q) (h : Q) : Q :=
  ((bbox_max l - bbox_min l + 2 * 8 * h) / h)%Q.

Lemma dim_ratio_bounds (l : list Q) (E : Q) :
  (0 < E)%Q -> (extent l <= E)%Q ->
  (16 <= dim_ratio l (E / (30 + 2 * 8)) <= 62)%Q.
Proof.
  intros HE Hl. pose proof (extent_nonneg l) as H0.
  unfold dim_ratio. unfold extent in *.
  set (h := (E / (30 + 2 * 8))%Q).
  assert (Hh : (0 < h)%Q) by (apply Qlt_shift_div_l; lra).
  assert (E46 : (46 * h == E)%Q) by (unfold h; field).
  split.
  - apply Qle_shift_div_l; [exact Hh | lra].
  - apply Qle_shift_div_r; [exact Hh | lra].
Qed.

Lemma dim_ratio_exact (l : list Q) (h : Q) :
  (0 < h)%Q -> (dim_ratio l h == extent l / h + 16)%Q.
Proof.
  intros Hh. unfold dim_ratio, extent. field. lra.
Qed.

Lemma Qmax_3_ratio (q : Q) : (16 <= q)%Q -> Qmax q 3 = q.
Proof.
  intros Hq. unfold Qmax, GenericMinMax.gmax.
  destruct (Qcompare_spec q 3); try reflexivity. lra.
Qed.

Lemma Qfloor_between (q : Q) (a b : Z) :
  (inject_Z a <= q <= inject_Z b)%Q -> a <= Qfloor q <= b.
Proof.
  intros [Ha Hb]. split.
  - rewrite <- (Qfloor_Z a). now apply Qfloor_resp_le.
  - rewrite <- (Qfloor_Z b). now apply Qfloor_resp_le.
Qed.

Lemma col_fin_matrix (P : Matrix3 Q) :
  col0 (fin_matrix P) = map Fin (col0 P) /\
  col1 (fin_matrix P) = map Fin (col1 P) /\
  col2 (fin_matrix P) = map Fin (col2 P).
Proof.
  unfold col0, col1, col2, fin_matrix. rewrite !map_map. auto.
Qed.

Lemma col_nonempty (P : Matrix3 Q) :
  P <> [] -> col0 P <> [] /\ col1 P <> [] /\ col2 P <> [].
Proof.
  destruct P; [congruence|]. intros _. repeat split; discriminate.
Qed.

Lemma dim_quotient_fin (l : list Q) (h : Q) :
  l <> [] -> (0 < h)%Q ->
  dim_quotient (map Fin l) (Fin h) = Returns (Fin (Qmax (dim_ratio l h) 3)).
Proof.
  intros Hl Hh. unfold dim_quotient.
  rewrite (maxCoeff_fin l Hl), (minCoeff_fin l Hl). cbn [bind].
  change (sub (Fin (bbox_max l)) (Fin (bbox_min l))) with (Fin (bbox_max l - bbox_min l)).
  change (mul (mul (of_int 2) pad) (Fin h)) with (Fin (inject_Z 2 * inject_Z 8 * h)).
  change (add (Fin (bbox_max l - bbox_min l)) (Fin (inject_Z 2 * inject_Z 8 * h)))
    with (Fin (bbox_max l - bbox_min l + inject_Z 2 * inject_Z 8 * h)).
  rewrite div_fin by lra.
  change (of_int 3) with (Fin (inject_Z 3)).
  now rewrite std_max_fin.
Qed.

Lemma grid_reals_fin (P : Matrix3 Q) :
  P <> [] -> (0 < bbox_max_extent P)%Q ->
  let h := reference_h P in
  grid_reals (fin_matrix P) =
  Returns (MkGridReals
             (Fin (bbox_max_extent P)) (Fin h)
             (Row3 (Fin (bbox_min (col0 P) - 8 * h))
                   (Fin (bbox_min (col1 P) - 8 * h))
                   (Fin (bbox_min (col2 P) - 8 * h)))
             (Fin (Qmax (dim_ratio (col0 P) h) 3))
             (Fin (Qmax (dim_ratio (col1 P) h) 3))
             (Fin (Qmax (dim_ratio (col2 P) h) 3))).
Proof.
  intros HP HE h.
  destruct (col_nonempty P HP) as (H0 & H1 & H2).
  destruct (col_fin_matrix P) as (E0 & E1 & E2).
  pose proof (reference_h_pos P HE) as Hh. fold h in Hh.
  unfold grid_reals, max_extent, colwise_maxCoeff, colwise_minCoeff.
  rewrite E0, E1, E2.
  rewrite (maxCoeff_fin _ H0), (maxCoeff_fin _ H1), (maxCoeff_fin _ H2).
  rewrite (minCoeff_fin _ H0), (minCoeff_fin _ H1), (minCoeff_fin _ H2).
  cbn [bind c0 c1 c2 maxCoeff fold_left].
  change (sub (Fin (bbox_max (col0 P))) (Fin (bbox_min (col0 P)))) with (Fin (extent (col0 P))).
  change (sub (Fin (bbox_max (col1 P))) (Fin (bbox_min (col1 P)))) with (Fin (extent (col1 P))).
  change (sub (Fin (bbox_max (col2 P))) (Fin (bbox_min (col2 P)))) with (Fin (extent (col2 P))).
  rewrite !std_max_fin. fold (bbox_max_extent P).
  change (add (of_int 30) (mul (of_int 2) pad)) with (Fin (30 + 2 * 8)).
  rewrite div_fin by lra. fold (reference_h P). fold h.
  rewrite !(dim_quotient_fin _ h) by assumption.
  reflexivity.
Qed.

Lemma to_int_fin (q : Q) :
  (16 <= q <= 62)%Q -> to_int (Fin q) = Some (Qfloor q).
Proof.
  intros Hq. simpl. unfold XReal.to_int.
  rewrite Qtruncate_nonneg by lra.
  pose proof (Qfloor_between q 16 62 Hq) as B.
  unfold in_int_range, int_min, int_max.
  destruct (- 2 ^ 31 <=? Qfloor q) eqn:E1; [|lia].
  destruct (Qfloor q <=? 2 ^ 31 - 1) eqn:E2; [reflexivity | lia].
Qed.

Lemma build_grid_fin (P : Matrix3 Q) :
  P <> [] -> (0 < bbox_max_extent P)%Q ->
  let h := reference_h P in
  build_grid (fin_matrix P) =
  Returns (MkGrid
             (Row3 (Fin (bbox_min (col0 P) - 8 * h))
                   (Fin (bbox_min (col1 P) - 8 * h))
                   (Fin (bbox_min (col2 P) - 8 * h)))
             (Fin h)
             (Qfloor (dim_ratio (col0 P) h))
             (Qfloor (dim_ratio (col1 P) h))
             (Qfloor (dim_ratio (col2 P) h))).
Proof.
  intros HP HE h. unfold build_grid.
  rewrite (grid_reals_fin P HP HE). fold h.
  destruct (extent_le_max P) as (L0 & L1 & L2).
  pose proof (dim_ratio_bounds (col0 P) _ HE L0) as B0.
  pose proof (dim_ratio_bounds (col1 P) _ HE L1) as B1.
  pose proof (dim_ratio_bounds (col2 P) _ HE L2) as B2.
  fold (reference_h P) in B0, B1, B2. fold h in B0, B1, B2.
  cbn [bind r_qx r_qy r_qz r_corner r_h].
  rewrite !Qmax_3_ratio by tauto.
  rewrite !to_int_fin by assumption.
  reflexivity.
Qed.

(** The grid the routine builds is the reference grid of the
    specification with [round] as the rounding of the dimensions. *)
Definition grid_matches_reference (round : Q -> Z) (P : Matrix3 Q) : Prop :=
  exists g, build_grid (fin_matrix P) = Returns g /\
            grid_agrees g (reference_grid round P).

Lemma xeq_refl (q : Q) : xeq (Fin q) q.
Proof. simpl. apply Qeq_refl. Qed.

(** In exact arithmetic, for a non-empty point cloud of positive extent,
    the grid the routine builds is the reference grid of section 4.1 with
    the dimensions truncated toward zero: [pad = 8],
    [h = max_extent/(30+2*pad)], [corner = min(P) - pad*h], each
    dimension [max(trunc((max - min + 2*pad*h)/h), 3)]. *)
Lemma build_grid_reference_truncated (P : Matrix3 Q) :
  P <> [] -> (0 < bbox_max_extent P)%Q ->
  grid_matches_reference Qtruncate P.
Proof.
  intros HP HE. eexists. split; [apply (build_grid_fin P HP HE)|].
  destruct (extent_le_max P) as (L0 & L1 & L2).
  pose proof (dim_ratio_bounds (col0 P) _ HE L0) as B0.
  pose proof (dim_ratio_bounds (col1 P) _ HE L1) as B1.
  pose proof (dim_ratio_bounds (col2 P) _ HE L2) as B2.
  fold (reference_h P) in B0, B1, B2.
  unfold grid_agrees, row_agrees, reference_grid, reference_dim.
  cbn [g_corner g_h g_nx g_ny g_nz c0 c1 c2].
  fold (dim_ratio (col0 P) (reference_h P)).
  fold (dim_ratio (col1 P) (reference_h P)).
  fold (dim_ratio (col2 P) (reference_h P)).
  rewrite !Qtruncate_nonneg by lra.
  pose proof (Qfloor_between _ 16 62 B0).
  pose proof (Qfloor_between _ 16 62 B1).
  pose proof (Qfloor_between _ 16 62 B2).
  repeat split; try apply xeq_refl; lia.
Qed.

Definition two_points : Matrix3 Q := [Row3 0 0 0; Row3 46 (3 # 2) 0]%Q.

(** C1, as the specification states it (with [ceil]), fails on two
    points with extents 46, 1.5 and 0: the quotient for y is 17.5, the
    routine computes [ny = 17], the reference with [ceil] gives 18.  The
    same in binary64. *)
Lemma build_grid_not_ceiling :
  ~ grid_matches_reference Qceiling two_points /\
  (exists g, build_grid (fin_matrix two_points) = Returns g /\ g_ny g = 17) /\
  g_ny (reference_grid Qceiling two_points) = 18 /\
  (exists g, build_grid [Row3 0 0 0; Row3 46 1.5 0]%float = Returns g /\ g_ny g = 17).
Proof.
  split; [|split; [|split]].
  - intros [g [Hg A]]. vm_compute in Hg. injection Hg as <-.
    destruct A as (_ & _ & _ & Hy & _). vm_compute in Hy. discriminate.
  - eexists. split; [vm_compute; reflexivity | reflexivity].
  - vm_compute. reflexivity.
  - eexists. split; [vm_compute; reflexivity | reflexivity].
Qed.

(** The reference algorithm in the arithmetic of the code. *)

Section ReferenceFacts.

Context {D : Type} `{Scalar D}.

Lemma fold_left_std_max (l : list D) (a : D) :
  fold_left std_max l a = largest_of a l.
Proof. revert a. induction l as [|b t IH]; intros a; [reflexivity | apply IH]. Qed.

Lemma fold_left_std_min (l : list D) (a : D) :
  fold_left std_min l a = smallest_of a l.
Proof. revert a. induction l as [|b t IH]; intros a; [reflexivity | apply IH]. Qed.

Lemma build_grid_reference_build (p : RowVector3 D) (t : Matrix3 D) :
  build_grid (p :: t) = of_option (reference_build to_int p t).
Proof.
  unfold build_grid, grid_reals, max_extent, dim_quotient, colwise_maxCoeff,
    colwise_minCoeff, col0, col1, col2, reference_build, reference_count, pad.
  cbn [map maxCoeff minCoeff bind c0 c1 c2 r_qx r_qy r_qz r_corner r_h].
  rewrite !fold_left_std_max, !fold_left_std_min.
  cbn [largest_of]. unfold std_max.
  repeat match goal with
         | |- context [to_int ?q] => destruct (to_int q); cbn [of_option bind]; try reflexivity
         end.
Qed.

End ReferenceFacts.

(** C1, amended.  The grid the routine builds from a non-empty point
    cloud is the reference grid of section 4.1 with each dimension
    truncated toward zero (the conversion of [double] to [int]) instead
    of rounded up.  In the arithmetic of the code, binary64 included:
    [pad = 8], [h = max_extent/(30+2*pad)], [corner = min(P) - pad*h]
    and each dimension the conversion of [max((max - min + 2*pad*h)/h,
    3.)], with no grid when a conversion has no value.  In exact
    arithmetic, for positive extent: each dimension is
    [max(trunc((max - min + 2*pad*h)/h), 3)]. *)
Theorem build_grid_truncates :
  (forall (D : Type) (S : Scalar D) (p : RowVector3 D) (t : Matrix3 D),
     build_grid (p :: t) = of_option (reference_build to_int p t)) /\
  (forall P : Matrix3 Q,
     P <> [] -> (0 < bbox_max_extent P)%Q -> grid_matches_reference Qtruncate P).
Proof.
  split.
  - intros D S p t. apply build_grid_reference_build.
  - apply build_grid_reference_truncated.
Qed.

Lemma build_grid_truncates_witness :
  (two_points <> [] /\ (0 < bbox_max_extent two_points)%Q) /\
  grid_matches_reference Qtruncate two_points /\
  build_grid two_points_f = of_option (reference_build to_int (Row3 0 0 0)%float
                                         [Row3 46 1.5 0]%float).
Proof.
  assert (H1 : two_points <> []) by discriminate.
  assert (H2 : (0 < bbox_max_extent two_points)%Q) by (vm_compute; reflexivity).
  split; [split; assumption|].
  split.
  - exact (proj2 build_grid_truncates two_points H1 H2).
  - exact (proj1 build_grid_truncates float _ (Row3 0 0 0)%float [Row3 46 1.5 0]%float).
Defined.

(** * Containment *)

(** [p] lies strictly between the first and the last node of the grid,
    on every axis. *)
Definition strictly_inside {D : Type} `{Scalar D} (g : Grid D) (p : RowVector3 D)
  : Prop :=
  let lo := g_corner g in
  let hi := node_position (g_corner g) (g_h g)
              (g_nx g - 1) (g_ny g - 1) (g_nz g - 1) in
  (ltb (c0 lo) (c0 p) = true /\ ltb (c0 p) (c0 hi) = true) /\
  (ltb (c1 lo) (c1 p) = true /\ ltb (c1 p) (c1 hi) = true) /\
  (ltb (c2 lo) (c2 p) = true /\ ltb (c2 p) (c2 hi) = true).

Lemma axis_inside (l : list Q) (h x : Q) :
  (0 < h)%Q -> In x l ->
  (bbox_min l - 8 * h < x)%Q /\
  (x < bbox_min l - 8 * h + h * inject_Z (Qfloor (dim_ratio l h) - 1))%Q.
Proof.
  intros Hh Hx. pose proof (bbox_bounds l x Hx) as [Hlo Hhi].
  split; [lra|].
  pose proof (Qlt_floor (dim_ratio l h)) as F.
  pose proof (dim_ratio_exact l h Hh) as R. unfold extent in R.
  set (r := dim_ratio l h) in *. set (n := Qfloor r) in *.
  assert (En : inject_Z (n - 1) == inject_Z n - 1).
  { unfold Z.sub. rewrite inject_Z_plus. simpl. ring. }
  assert (Em : inject_Z (n + 1) == inject_Z n + 1).
  { rewrite inject_Z_plus. reflexivity. }
  rewrite En. rewrite Em in F.
  assert (Hr : h * r == bbox_max l - bbox_min l + 16 * h).
  { rewrite R. field. lra. }
  assert (0 < h * (inject_Z n + 1 - r))%Q by (apply Qmult_lt_0_compat; lra).
  lra.
Qed.

(** In exact arithmetic, for a non-empty point cloud of positive extent
    the routine builds a grid whose dimensions are at least 3 and in which
    every input point lies strictly between the first and the last node
    on every axis. *)
Lemma grid_contains_points_exact (P : Matrix3 Q) :
  P <> [] -> (0 < bbox_max_extent P)%Q ->
  exists g, build_grid (fin_matrix P) = Returns g /\
            (3 <= g_nx g /\ 3 <= g_ny g /\ 3 <= g_nz g) /\
            forall p, In p (fin_matrix P) -> strictly_inside g p.
Proof.
  intros HP HE. eexists. split; [apply (build_grid_fin P HP HE)|].
  pose proof (reference_h_pos P HE) as Hh.
  destruct (extent_le_max P) as (L0 & L1 & L2).
  pose proof (dim_ratio_bounds (col0 P) _ HE L0) as B0.
  pose proof (dim_ratio_bounds (col1 P) _ HE L1) as B1.
  pose proof (dim_ratio_bounds (col2 P) _ HE L2) as B2.
  fold (reference_h P) in B0, B1, B2.
  set (h := reference_h P) in *.
  cbn [g_nx g_ny g_nz]. split.
  - pose proof (Qfloor_between _ 16 62 B0).
    pose proof (Qfloor_between _ 16 62 B1).
    pose proof (Qfloor_between _ 16 62 B2). lia.
  - intros p Hp. apply in_map_iff in Hp as [q [<- Hq]].
    unfold strictly_inside, node_position, row_add, row_scale, fin_row.
    cbn [g_corner g_h g_nx g_ny g_nz c0 c1 c2].
    change (@ltb xreal _) with XReal.ltb.
    change (@add xreal _) with XReal.add.
    change (@mul xreal _) with XReal.mul.
    change (@of_int xreal _) with (fun z => Fin (inject_Z z)).
    cbn [XReal.ltb XReal.add XReal.mul].
    rewrite !Qltb_true.
    pose proof (axis_inside (col0 P) h (c0 q) Hh (in_map c0 P q Hq)).
    pose proof (axis_inside (col1 P) h (c1 q) Hh (in_map c1 P q Hq)).
    pose proof (axis_inside (col2 P) h (c2 q) Hh (in_map c2 P q Hq)).
    tauto.
Qed.

(** * Outcomes *)

Lemma bind_returns {A B : Type} (c : outcome A) (k : A -> outcome B) (b : B) :
  bind c k = Returns b -> exists a, c = Returns a /\ k a = Returns b.
Proof.
  destruct c as [a | e |]; simpl; intros E; try discriminate. now exists a.
Qed.

Lemma returns_inj {A : Type} (a b : A) : Returns a = Returns b -> a = b.
Proof. intros E. now injection E. Qed.

Lemma bind_not_throws {A B : Type} (c : outcome A) (k : A -> outcome B) :
  (forall e, c <> Throws e) -> (forall a e, k a <> Throws e) ->
  forall e, bind c k <> Throws e.
Proof.
  intros Hc Hk e. destruct c as [a | e' |]; simpl.
  - apply Hk.
  - destruct (Hc e' eq_refl).
  - discriminate.
Qed.

Lemma eigen_assert_returns (b : bool) (u : unit) :
  eigen_assert b = Returns u -> b = true.
Proof. destruct b; [reflexivity | discriminate]. Qed.

Lemma checked_int_returns (z r : Z) :
  checked_int z = Returns r -> r = z /\ int_min <= z <= int_max.
Proof.
  unfold checked_int, in_int_range. intros E.
  destruct (int_min <=? z) eqn:E1, (z <=? int_max) eqn:E2; simpl in E;
    try discriminate.
  injection E as <-. lia.
Qed.

Lemma checked_int_ok (z : Z) :
  int_min <= z <= int_max -> checked_int z = Returns z.
Proof.
  intros Hz. unfold checked_int, in_int_range.
  destruct (int_min <=? z) eqn:E1; [|lia].
  destruct (z <=? int_max) eqn:E2; [reflexivity | lia].
Qed.

Lemma int_mul3_returns (a b c r : Z) :
  int_mul3 a b c = Returns r -> r = a * b * c.
Proof.
  unfold int_mul3. intros E. apply bind_returns in E as [t [E1 E2]].
  apply checked_int_returns in E1 as [-> _].
  apply checked_int_returns in E2 as [-> _]. reflexivity.
Qed.

Lemma int_add3_returns (a b c r : Z) :
  int_add3 a b c = Returns r -> r = a + b + c.
Proof.
  unfold int_add3. intros E. apply bind_returns in E as [t [E1 E2]].
  apply checked_int_returns in E1 as [-> _].
  apply checked_int_returns in E2 as [-> _]. reflexivity.
Qed.

(** [c] does not leave by an exception. *)
Definition no_throw {A : Type} (c : outcome A) : Prop :=
  forall e, c <> Throws e.

Lemma no_throw_returns {A : Type} (a : A) : no_throw (Returns a).
Proof. intros e. discriminate. Qed.

Lemma no_throw_undefined {A : Type} : no_throw (@Undefined A).
Proof. intros e. discriminate. Qed.

Lemma no_throw_bind {A B : Type} (c : outcome A) (k : A -> outcome B) :
  no_throw c -> (forall a, no_throw (k a)) -> no_throw (bind c k).
Proof.
  intros Hc Hk e. destruct c as [a | e' |]; simpl.
  - apply Hk.
  - destruct (Hc e' eq_refl).
  - discriminate.
Qed.

Lemma no_throw_of_option {A : Type} (o : option A) : no_throw (of_option o).
Proof. destruct o; intros e; discriminate. Qed.

Lemma no_throw_eigen_assert (b : bool) : no_throw (eigen_assert b).
Proof. destruct b; intros e; discriminate. Qed.

Lemma no_throw_checked_int (z : Z) : no_throw (checked_int z).
Proof. unfold checked_int. destruct (in_int_range z); intros e; discriminate. Qed.

Lemma no_throw_maxCoeff {D : Type} `{Scalar D} (l : Vector D) : no_throw (maxCoeff l).
Proof. destruct l; intros e; discriminate. Qed.

Lemma no_throw_minCoeff {D : Type} `{Scalar D} (l : Vector D) : no_throw (minCoeff l).
Proof. destruct l; intros e; discriminate. Qed.

Ltac no_throw_step :=
  first
    [ apply no_throw_returns
    | apply no_throw_undefined
    | apply no_throw_of_option
    | apply no_throw_eigen_assert
    | apply no_throw_checked_int
    | apply no_throw_maxCoeff
    | apply no_throw_minCoeff
    | apply no_throw_bind; [ | intro ] ].

Ltac invert_bind H :=
  let a := fresh "a" in
  let E := fresh "E" in
  apply bind_returns in H as [a [E H]].

Section SparseShapes.

Context {D : Type} `{Scalar D}.

Lemma length_add_at (f : D -> D -> D) (n : nat) (a : D) (l : list D) :
  length (add_at f n a l) = length l.
Proof.
  revert n. induction l as [|b t IH]; intros [|n]; simpl; auto.
Qed.

Lemma length_accumulate (es : list (Z * Z * D)) (x y : Vector D) :
  length (accumulate es x y) = length y.
Proof.
  unfold accumulate. revert y. induction es as [|e es IH]; intros y; simpl.
  - reflexivity.
  - rewrite IH. apply length_add_at.
Qed.

Lemma spmv_returns (A : SparseMatrix D) (x y : Vector D) :
  spmv A x = Returns y ->
  sp_cols A = rows x /\
  y = accumulate (sp_entries A) x (repeat (of_int 0) (Z.to_nat (sp_rows A))) /\
  length y = Z.to_nat (sp_rows A).
Proof.
  unfold spmv. intros E. invert_bind E. apply eigen_assert_returns in E0.
  injection E as <-. rewrite length_accumulate, repeat_length.
  repeat split. lia.
Qed.

Lemma spmv_ok (A : SparseMatrix D) (x : Vector D) :
  sp_cols A = rows x ->
  spmv A x = Returns (accumulate (sp_entries A) x
                        (repeat (of_int 0) (Z.to_nat (sp_rows A)))).
Proof.
  intros E. unfold spmv. rewrite E, Z.eqb_refl. reflexivity.
Qed.

End SparseShapes.

Section PipelineFacts.

Context {D : Type} `{Scalar D}.
Variable fdi : Z -> Z -> Z -> D -> RowVector3 D -> Matrix3 D -> SparseMatrix D -> SparseMatrix D.
Variable fdg : Z -> Z -> Z -> D -> SparseMatrix D -> SparseMatrix D.
Variable solver : SparseMatrix D -> Vector D -> Vector D * Eigen.ComputationInfo.
Variable mc : Vector D -> list (option (RowVector3 D)) -> Z -> Z -> Z ->
              Matrix3 D -> FaceMatrix -> Matrix3 D * FaceMatrix.

Lemma int_staggered_total_returns (nx ny nz t : Z) :
  int_staggered_total nx ny nz = Returns t ->
  t = (nx - 1) * ny * nz + nx * (ny - 1) * nz + nx * ny * (nz - 1).
Proof.
  unfold int_staggered_total. intros E.
  apply bind_returns in E as [sx [Esx E]]. apply int_mul3_returns in Esx.
  apply bind_returns in E as [sy [Esy E]]. apply int_mul3_returns in Esy.
  apply bind_returns in E as [sz [Esz E]]. apply int_mul3_returns in Esz.
  apply int_add3_returns in E. now subst.
Qed.

(** What a returning run of the staggered stage has computed. *)
Lemma staggered_samples_inv (g : Grid D) (P N : Matrix3 D) (s : Staggered D) :
  staggered_samples fdi g P N = Returns s ->
  (forall a, s_W_axis a s =
             let sg := staggered_grid a g in
             fdi (g_nx sg) (g_ny sg) (g_nz sg) (g_h sg) (g_corner sg) P
                 (sp_empty (rows P) (node_count sg))) /\
  (forall a, spmv (transpose (s_W_axis a s)) (column a N) = Returns (s_v_axis a s)) /\
  s_v s = s_vx s ++ s_vy s ++ s_vz s /\
  rows (s_v s) = staggered_count g.
Proof.
  unfold staggered_samples. intros E.
  apply bind_returns in E as [sx [Esx E]]. apply int_mul3_returns in Esx.
  apply bind_returns in E as [sy [Esy E]]. apply int_mul3_returns in Esy.
  apply bind_returns in E as [sz [Esz E]]. apply int_mul3_returns in Esz.
  apply bind_returns in E as [vx [Evx E]].
  apply bind_returns in E as [vy [Evy E]].
  apply bind_returns in E as [vz [Evz E]].
  apply bind_returns in E as [total [Et E]]. apply int_add3_returns in Et.
  apply bind_returns in E as [u [Eu E]]. apply eigen_assert_returns in Eu.
  injection E as <-. apply Z.eqb_eq in Eu. subst sx sy sz total.
  cbn [s_v s_vx s_vy s_vz]. unfold staggered_count, node_count.
  repeat split; auto.
  - intros [| |]; reflexivity.
  - intros [| |]; assumption.
Qed.

Lemma solve_potential_inv (g : Grid D) (v : Vector D) (p : Potential D) :
  solve_potential fdg solver g v = Returns p ->
  p_G p = fdg (g_nx g) (g_ny g) (g_nz g) (g_h g)
              (sp_empty (staggered_count g) (node_count g)) /\
  sp_mul (transpose (p_G p)) (p_G p) = Returns (p_A p) /\
  spmv (transpose (p_G p)) v = Returns (p_b p) /\
  (p_solved p, p_info p) = solver (p_A p) (p_b p).
Proof.
  unfold solve_potential. intros E.
  apply bind_returns in E as [total [Et E]]. apply int_staggered_total_returns in Et.
  apply bind_returns in E as [nodes [En E]]. apply int_mul3_returns in En.
  apply bind_returns in E as [A [EA E]].
  apply bind_returns in E as [b [Eb E]].
  injection E as <-. subst total nodes. cbn [p_G p_A p_b p_solved p_info].
  unfold staggered_count, node_count. repeat split; auto.
  now destruct (solver A b).
Qed.

Lemma calibrate_inv (g : Grid D) (P : Matrix3 D) (x : Vector D) (k : Calibration D) :
  calibrate fdi g P x = Returns k ->
  k_W k = fdi (g_nx g) (g_ny g) (g_nz g) (g_h g) (g_corner g) P
              (sp_empty (rows P) (node_count g)) /\
  iso_value (k_W k) x (rows P) = Returns (k_sigma k) /\
  k_g k = array_sub x (k_sigma k).
Proof.
  unfold calibrate. intros E.
  apply bind_returns in E as [nodes [En E]]. apply int_mul3_returns in En.
  apply bind_returns in E as [sigma [Es E]].
  injection E as <-. subst nodes. cbn [k_W k_sigma k_g].
  unfold node_count. repeat split; auto.
Qed.

(** What a returning run has computed, stage by stage. *)
Lemma poisson_locals_inv (P N : Matrix3 D) (l : Locals D) :
  poisson_locals fdi fdg solver P N = Returns l ->
  l_n l = rows P /\
  build_grid P = Returns (l_grid l) /\
  l_x l = node_positions (g_nx (l_grid l)) (g_ny (l_grid l)) (g_nz (l_grid l))
                         (g_corner (l_grid l)) (g_h (l_grid l)) /\
  staggered_samples fdi (l_grid l) P N = Returns (l_staggered l) /\
  solve_potential fdg solver (l_grid l) (s_v (l_staggered l)) = Returns (l_potential l) /\
  calibrate fdi (l_grid l) P (p_solved (l_potential l)) = Returns (l_calibration l).
Proof.
  unfold poisson_locals. intros E.
  apply bind_returns in E as [g [Eg E]].
  apply bind_returns in E as [nodes [En E]].
  apply bind_returns in E as [s [Es E]].
  apply bind_returns in E as [p [Ep E]].
  apply bind_returns in E as [k [Ek E]].
  injection E as <-. cbn [l_n l_grid l_x l_staggered l_potential l_calibration].
  repeat split; auto.
Qed.

(** ** Totality under the shape contracts *)

Lemma int_mul3_ok (a b c : Z) :
  0 <= a -> 0 <= b -> 1 <= c -> a * b * c <= int_max ->
  int_mul3 a b c = Returns (a * b * c).
Proof.
  intros Ha Hb Hc Hm. unfold int_mul3.
  assert (int_min <= 0) by (unfold int_min; lia).
  rewrite checked_int_ok by nia. cbn [bind].
  apply checked_int_ok. nia.
Qed.

Lemma int_mul3_ok' (a b c : Z) :
  1 <= a -> 1 <= b -> 0 <= c -> a * b * (c + 1) <= int_max ->
  int_mul3 a b c = Returns (a * b * c).
Proof.
  intros Ha Hb Hc Hm. unfold int_mul3.
  assert (int_min <= 0) by (unfold int_min; lia).
  rewrite checked_int_ok by nia. cbn [bind].
  apply checked_int_ok. nia.
Qed.

Lemma int_staggered_total_ok (nx ny nz : Z) :
  1 <= nx -> 1 <= ny -> 1 <= nz -> 3 * (nx * ny * nz) <= int_max ->
  int_staggered_total nx ny nz =
  Returns ((nx - 1) * ny * nz + nx * (ny - 1) * nz + nx * ny * (nz - 1)).
Proof.
  intros Hx Hy Hz Hm. unfold int_staggered_total.
  assert (int_min <= 0) by (unfold int_min; lia).
  rewrite (int_mul3_ok (nx - 1) ny nz) by nia. cbn [bind].
  rewrite (int_mul3_ok nx (ny - 1) nz) by nia. cbn [bind].
  rewrite (int_mul3_ok' nx ny (nz - 1)) by (try lia; replace (nz - 1 + 1) with nz by lia; nia).
  cbn [bind]. unfold int_add3.
  rewrite checked_int_ok by nia. cbn [bind].
  apply checked_int_ok. nia.
Qed.

Lemma staggered_samples_total (g : Grid D) (P N : Matrix3 D) :
  grid_fits_int g -> rows N = rows P -> interpolation_shape fdi ->
  exists s, staggered_samples fdi g P N = Returns s.
Proof.
  intros (Hx & Hy & Hz & Hmax) HN Hi.
  unfold staggered_samples.
  set (nx := g_nx g) in *. set (ny := g_ny g) in *. set (nz := g_nz g) in *.
  assert (int_min <= 0) by (unfold int_min; lia).
  rewrite (int_mul3_ok (nx - 1) ny nz) by nia. cbn [bind].
  rewrite (int_mul3_ok nx (ny - 1) nz) by nia. cbn [bind].
  rewrite (int_mul3_ok' nx ny (nz - 1)) by (try lia; replace (nz - 1 + 1) with nz by lia; nia).
  cbn [bind].
  set (Wx := fdi (nx - 1) ny nz _ _ P _).
  set (Wy := fdi nx (ny - 1) nz _ _ P _).
  set (Wz := fdi nx ny (nz - 1) _ _ P _).
  destruct (Hi (nx - 1) ny nz (g_h g)
              (row_add (g_corner g) (Row3 (div (g_h g) (of_int 2)) (of_int 0) (of_int 0)))
              P (sp_empty (rows P) ((nx - 1) * ny * nz))) as [Rx Cx].
  destruct (Hi nx (ny - 1) nz (g_h g)
              (row_add (g_corner g) (Row3 (of_int 0) (div (g_h g) (of_int 2)) (of_int 0)))
              P (sp_empty (rows P) (nx * (ny - 1) * nz))) as [Ry Cy].
  destruct (Hi nx ny (nz - 1) (g_h g)
              (row_add (g_corner g) (Row3 (of_int 0) (of_int 0) (div (g_h g) (of_int 2))))
              P (sp_empty (rows P) (nx * ny * (nz - 1)))) as [Rz Cz].
  fold Wx in Rx, Cx. fold Wy in Ry, Cy. fold Wz in Rz, Cz.
  assert (RN : forall f : RowVector3 D -> D, rows (map f N) = rows P).
  { intros f. unfold rows in *. now rewrite length_map. }
  rewrite (spmv_ok (transpose Wx) (col0 N)) by (cbn [transpose sp_cols]; unfold col0; now rewrite RN).
  cbn [bind].
  rewrite (spmv_ok (transpose Wy) (col1 N)) by (cbn [transpose sp_cols]; unfold col1; now rewrite RN).
  cbn [bind].
  rewrite (spmv_ok (transpose Wz) (col2 N)) by (cbn [transpose sp_cols]; unfold col2; now rewrite RN).
  cbn [bind].
  unfold int_add3.
  rewrite checked_int_ok by nia. cbn [bind].
  rewrite checked_int_ok by nia. cbn [bind].
  set (vx := accumulate _ (col0 N) _). set (vy := accumulate _ (col1 N) _).
  set (vz := accumulate _ (col2 N) _).
  assert (Lv : rows (vx ++ vy ++ vz) =
               (nx - 1) * ny * nz + nx * (ny - 1) * nz + nx * ny * (nz - 1)).
  { unfold rows, vx, vy, vz. rewrite !length_app, !length_accumulate, !repeat_length.
    cbn [transpose sp_rows]. rewrite Cx, Cy, Cz. nia. }
  rewrite Lv, Z.eqb_refl. cbn [eigen_assert bind].
  eexists. reflexivity.
Qed.

Lemma solve_potential_total (g : Grid D) (v : Vector D) :
  grid_fits_int g -> rows v = staggered_count g -> gradient_shape fdg ->
  exists p, solve_potential fdg solver g v = Returns p.
Proof.
  intros (Hx & Hy & Hz & Hmax) Hv Hg.
  unfold solve_potential.
  unfold staggered_count, node_count in Hv. cbn [staggered_grid g_nx g_ny g_nz] in Hv.
  set (nx := g_nx g) in *. set (ny := g_ny g) in *. set (nz := g_nz g) in *.
  rewrite (int_staggered_total_ok nx ny nz) by assumption. cbn [bind].
  rewrite (int_mul3_ok nx ny nz) by nia. cbn [bind].
  set (G := fdg nx ny nz (g_h g) _).
  destruct (Hg nx ny nz (g_h g)
              (sp_empty ((nx - 1) * ny * nz + nx * (ny - 1) * nz + nx * ny * (nz - 1))
                        (nx * ny * nz))) as [RG CG].
  fold G in RG, CG.
  unfold sp_mul. cbn [transpose sp_cols sp_rows]. rewrite Z.eqb_refl.
  cbn [eigen_assert bind].
  rewrite (spmv_ok (transpose G) v) by (cbn [transpose sp_cols]; now rewrite RG, Hv).
  cbn [bind]. eexists. reflexivity.
Qed.

Lemma calibrate_total (g : Grid D) (P : Matrix3 D) (x : Vector D) :
  grid_fits_int g -> rows x = node_count g -> interpolation_shape fdi ->
  exists k, calibrate fdi g P x = Returns k.
Proof.
  intros (Hx & Hy & Hz & Hmax) Hlen Hi.
  unfold calibrate. unfold node_count in Hlen.
  set (nx := g_nx g) in *. set (ny := g_ny g) in *. set (nz := g_nz g) in *.
  rewrite (int_mul3_ok nx ny nz) by nia. cbn [bind].
  set (W := fdi nx ny nz (g_h g) (g_corner g) P _).
  destruct (Hi nx ny nz (g_h g) (g_corner g) P (sp_empty (rows P) (nx * ny * nz))) as [RW CW].
  fold W in RW, CW.
  unfold iso_value.
  rewrite (spmv_ok W x) by (now rewrite CW, Hlen).
  cbn [bind]. eexists. reflexivity.
Qed.

(** A run returns whenever the grid can be built, its index arithmetic
    fits [int], [N] has as many rows as [P], and the routines it calls
    produce matrices and vectors of the specified shapes. *)
Lemma poisson_locals_total (P N : Matrix3 D) (g : Grid D) :
  build_grid P = Returns g -> grid_fits_int g -> rows N = rows P ->
  interpolation_shape fdi -> gradient_shape fdg -> solver_shape solver ->
  exists l, poisson_locals fdi fdg solver P N = Returns l /\ l_grid l = g.
Proof.
  intros Eg Hfit HN Hi Hg Hs.
  destruct (staggered_samples_total g P N Hfit HN Hi) as [s Es].
  destruct (staggered_samples_inv g P N s Es) as (_ & _ & _ & Hv).
  destruct (solve_potential_total g (s_v s) Hfit Hv Hg) as [p Ep].
  destruct (solve_potential_inv g (s_v s) p Ep) as (EG & EA & Eb & Esol).
  assert (Hlen : rows (p_solved p) = node_count g).
  { replace (p_solved p) with (fst (solver (p_A p) (p_b p))) by now rewrite <- Esol.
    unfold sp_mul in EA. apply bind_returns in EA as [u [_ EA]].
    injection EA as EA. rewrite <- EA in *. cbn [sp_cols] in *.
    destruct (Hg (g_nx g) (g_ny g) (g_nz g) (g_h g)
                 (sp_empty (staggered_count g) (node_count g))) as [_ CG].
    rewrite <- EG in CG.
    destruct Hfit as (Hx & Hy & Hz & _).
    rewrite Hs; cbn [sp_cols]; rewrite CG; unfold node_count; [reflexivity | nia]. }
  destruct (calibrate_total g P (p_solved p) Hfit Hlen Hi) as [k Ek].
  destruct Hfit as (Hx & Hy & Hz & Hmax).
  unfold poisson_locals. rewrite Eg. cbn [bind].
  rewrite (int_mul3_ok (g_nx g) (g_ny g) (g_nz g)) by nia. cbn [bind].
  rewrite Es. cbn [bind]. rewrite Ep. cbn [bind]. rewrite Ek. cbn [bind].
  eexists. split; reflexivity.
Qed.

End PipelineFacts.

Section NoThrow.

Context {D : Type} `{Scalar D}.

Lemma no_throw_build_grid (P : Matrix3 D) : no_throw (build_grid P).
Proof.
  unfold build_grid, grid_reals, max_extent, dim_quotient,
    colwise_maxCoeff, colwise_minCoeff.
  repeat no_throw_step.
Qed.

Lemma no_throw_spmv (A : SparseMatrix D) (x : Vector D) : no_throw (spmv A x).
Proof. unfold spmv. repeat no_throw_step. Qed.

Lemma no_throw_sp_mul (A B : SparseMatrix D) : no_throw (sp_mul A B).
Proof. unfold sp_mul. repeat no_throw_step. Qed.

Lemma no_throw_int_mul3 (a b c : Z) : no_throw (int_mul3 a b c).
Proof. unfold int_mul3. repeat no_throw_step. Qed.

Lemma no_throw_int_add3 (a b c : Z) : no_throw (int_add3 a b c).
Proof. unfold int_add3. repeat no_throw_step. Qed.

Variable fdi : Z -> Z -> Z -> D -> RowVector3 D -> Matrix3 D -> SparseMatrix D -> SparseMatrix D.
Variable fdg : Z -> Z -> Z -> D -> SparseMatrix D -> SparseMatrix D.
Variable solver : SparseMatrix D -> Vector D -> Vector D * Eigen.ComputationInfo.
Variable mc : Vector D -> list (option (RowVector3 D)) -> Z -> Z -> Z ->
              Matrix3 D -> FaceMatrix -> Matrix3 D * FaceMatrix.

Lemma no_throw_poisson_locals (P N : Matrix3 D) :
  no_throw (poisson_locals fdi fdg solver P N).
Proof.
  unfold poisson_locals, staggered_samples, solve_potential, calibrate,
    iso_value, int_staggered_total.
  repeat first
    [ apply no_throw_build_grid | apply no_throw_spmv | apply no_throw_sp_mul
    | apply no_throw_int_mul3 | apply no_throw_int_add3 | no_throw_step ].
Qed.

Lemma no_throw_poisson_surface_reconstruction
  (P N V : Matrix3 D) (F : FaceMatrix) :
  no_throw (poisson_surface_reconstruction fdi fdg solver mc P N V F).
Proof.
  unfold poisson_surface_reconstruction.
  apply no_throw_bind; [apply no_throw_poisson_locals | intro; apply no_throw_returns].
Qed.

End NoThrow.

Lemma interpolation_shape_fd_interpolate {D : Type} `{Scalar D} :
  interpolation_shape (fd_interpolate (D := D)).
Proof. intros nx ny nz h c P W. split; reflexivity. Qed.

Lemma gradient_shape_fd_grad {D : Type} `{Scalar D} :
  gradient_shape (fd_grad (D := D)).
Proof. intros nx ny nz h G. split; reflexivity. Qed.

Lemma solver_shape_unconverged {D : Type} `{Scalar D} :
  solver_shape (unconverged_solver (D := D)).
Proof.
  intros A b HA. unfold unconverged_solver, rows. cbn [fst].
  rewrite repeat_length. lia.
Qed.

Lemma extraction_overwrites_empty_mesh {D : Type} `{Scalar D} :
  extraction_overwrites (empty_mesh (D := D)).
Proof. intros g x nx ny nz V F V' F'. reflexivity. Qed.

Lemma build_grid_two_points_f :
  build_grid two_points_f = Returns two_points_grid_f.
Proof. vm_compute. reflexivity. Qed.

Lemma grid_fits_int_two_points_f : grid_fits_int two_points_grid_f.
Proof. unfold grid_fits_int, int_max. cbn. lia. Qed.

(** The two-point cloud runs to the extraction call, in binary64, with
    the interpolation and gradient matrices of the specification. *)
Lemma two_points_run :
  exists l, poisson_locals fd_interpolate fd_grad unconverged_solver
              two_points_f two_normals_f = Returns l /\
            l_grid l = two_points_grid_f.
Proof.
  apply poisson_locals_total.
  - exact build_grid_two_points_f.
  - exact grid_fits_int_two_points_f.
  - reflexivity.
  - exact interpolation_shape_fd_interpolate.
  - exact gradient_shape_fd_grad.
  - exact solver_shape_unconverged.
Qed.

(** * The dimensions and the points, in binary64 *)

(** ** The clamp of the dimensions in binary64 *)

Lemma digits2_pos_lower (m : positive) :
  2 ^ (Zpos (digits2_pos m) - 1) <= Zpos m.
Proof.
  induction m as [m IH | m IH |]; cbn [digits2_pos].
  - rewrite Pos2Z.inj_succ. replace (Z.succ (Zpos (digits2_pos m)) - 1)
      with (Z.succ (Zpos (digits2_pos m) - 1)) by lia.
    rewrite Z.pow_succ_r by lia. lia.
  - rewrite Pos2Z.inj_succ. replace (Z.succ (Zpos (digits2_pos m)) - 1)
      with (Z.succ (Zpos (digits2_pos m) - 1)) by lia.
    rewrite Z.pow_succ_r by lia. lia.
  - simpl. lia.
Qed.

Lemma compare_cont_Eq (m k : positive) :
  PosDef.Pos.compare_cont Eq m k = Pos.compare m k.
Proof. reflexivity. Qed.

(** A binary64 number that is not below 3 and converts to [int]
    converts to 3 or more. *)
Lemma to_int_not_below_3 (q : float) (n : Z) :
  PrimFloat.ltb q 3%float = false -> Binary64.to_int q = Some n -> 3 <= n.
Proof.
  intros Hlt Hn. rewrite ltb_spec in Hlt.
  pose proof (Prim2SF_valid q) as Hv.
  unfold Binary64.to_int in Hn.
  change (Prim2SF 3%float) with (S754_finite false 6755399441055744 (-51)) in Hlt.
  destruct (Prim2SF q) as [s | s | | s m e]; try discriminate.
  cbv beta iota delta [SFltb SFcompare] in Hlt.
  destruct s; [discriminate|].
  cbv zeta in Hn.
  destruct (in_int_range (Binary64.trunc_scaled m e)); [|discriminate].
  injection Hn as <-.
  unfold SpecFloat.valid_binary, bounded, canonical_mantissa, fexp, SpecFloat.emin in Hv.
  apply andb_prop in Hv as [Hc _]. apply Z.eqb_eq in Hc.
  change prec with 53 in Hc. change emax with 1024 in Hc.
  pose proof (digits2_pos_lower m) as Hd.
  unfold Binary64.trunc_scaled.
  destruct (Z.compare_spec e (-51)) as [E | E | E]; [| discriminate |].
  + (* e = -51 *)
    subst e.
    rewrite compare_cont_Eq in Hlt.
    assert (Hm : 6755399441055744 <= Zpos m).
    { destruct (Pos.compare_spec m 6755399441055744) as [C | C | C];
        [subst m; lia | discriminate | lia]. }
    change (0 <=? -51) with false. cbv iota.
    apply Z.div_le_lower_bound; [vm_compute; reflexivity|].
    change (2 ^ (- (-51))) with 2251799813685248. lia.
  + (* e > -51 *)
    assert (Hm : 2 ^ 52 <= Zpos m).
    { assert (Zpos (digits2_pos m) = 53) by lia.
      replace 52 with (Zpos (digits2_pos m) - 1) by lia. exact Hd. }
    destruct (Z.leb_spec 0 e) as [He | He].
    * assert (0 < 2 ^ e) by (apply Z.pow_pos_nonneg; lia).
      change (2 ^ 52) with 4503599627370496 in Hm. nia.
    * apply Z.div_le_lower_bound; [apply Z.pow_pos_nonneg; lia|].
      assert (2 ^ (- e) <= 2 ^ 50) by (apply Z.pow_le_mono_r; lia).
      change (2 ^ 52) with 4503599627370496 in Hm.
      change (2 ^ 50) with 1125899906842624 in H. lia.
Qed.

Lemma to_int_clamped_binary64 (q : float) (n : Z) :
  to_int (std_max q (of_int 3)) = Some n -> 3 <= n.
Proof.
  unfold std_max.
  change (of_int 3) with 3%float.
  change (@ltb float _) with PrimFloat.ltb.
  change (@to_int float _) with Binary64.to_int.
  destruct (PrimFloat.ltb q 3%float) eqn:E.
  - vm_compute. intros E3. injection E3 as <-. discriminate.
  - now apply to_int_not_below_3.
Qed.

Lemma build_grid_dims_binary64 (P : Matrix3 float) (g : Grid float) :
  build_grid P = Returns g -> 3 <= g_nx g /\ 3 <= g_ny g /\ 3 <= g_nz g.
Proof.
  unfold build_grid, grid_reals. intros E.
  apply bind_returns in E as [r [Er E]].
  apply bind_returns in E as [nx [Ex E]].
  apply bind_returns in E as [ny [Ey E]].
  apply bind_returns in E as [nz [Ez E]].
  apply returns_inj in E. subst g. cbn [g_nx g_ny g_nz].
  apply bind_returns in Er as [e [_ Er]].
  apply bind_returns in Er as [lo [_ Er]].
  apply bind_returns in Er as [qx [Eqx Er]].
  apply bind_returns in Er as [qy [Eqy Er]].
  apply bind_returns in Er as [qz [Eqz Er]].
  apply returns_inj in Er. subst r. cbn [r_qx r_qy r_qz] in Ex, Ey, Ez.
  unfold dim_quotient in Eqx, Eqy, Eqz.
  apply bind_returns in Eqx as [hx [_ Eqx]]. apply bind_returns in Eqx as [lx [_ Eqx]].
  apply bind_returns in Eqy as [hy [_ Eqy]]. apply bind_returns in Eqy as [ly [_ Eqy]].
  apply bind_returns in Eqz as [hz [_ Eqz]]. apply bind_returns in Eqz as [lz [_ Eqz]].
  apply returns_inj in Eqx, Eqy, Eqz. subst qx qy qz.
  destruct (to_int (std_max _ _)) as [zx|] eqn:Zx in Ex; [|discriminate].
  destruct (to_int (std_max _ _)) as [zy|] eqn:Zy in Ey; [|discriminate].
  destruct (to_int (std_max _ _)) as [zz|] eqn:Zz in Ez; [|discriminate].
  apply returns_inj in Ex, Ey, Ez. subst zx zy zz.
  apply to_int_clamped_binary64 in Zx, Zy, Zz. auto.
Qed.

(** C8, amended.  In exact arithmetic, for a non-empty point cloud of
    positive extent the routine builds a grid in which every input point
    lies strictly between the first and the last node on every axis, and
    whose dimensions are at least 3.  In binary64 the dimensions of every
    grid the routine builds are at least 3 as well. *)
Theorem grid_contains_points :
  (forall P : Matrix3 Q,
     P <> [] -> (0 < bbox_max_extent P)%Q ->
     exists g, build_grid (fin_matrix P) = Returns g /\
               (3 <= g_nx g /\ 3 <= g_ny g /\ 3 <= g_nz g) /\
               forall p, In p (fin_matrix P) -> strictly_inside g p) /\
  (forall (P : Matrix3 float) (g : Grid float),
     build_grid P = Returns g -> 3 <= g_nx g /\ 3 <= g_ny g /\ 3 <= g_nz g).
Proof.
  split.
  - apply grid_contains_points_exact.
  - apply build_grid_dims_binary64.
Qed.

Lemma grid_contains_points_witness :
  ((two_points <> [] /\ (0 < bbox_max_extent two_points)%Q) /\
   exists g, build_grid (fin_matrix two_points) = Returns g /\
             (3 <= g_nx g /\ 3 <= g_ny g /\ 3 <= g_nz g) /\
             forall p, In p (fin_matrix two_points) -> strictly_inside g p) /\
  (build_grid two_points_f = Returns two_points_grid_f /\
   3 <= g_nx two_points_grid_f /\ 3 <= g_ny two_points_grid_f /\
   3 <= g_nz two_points_grid_f).
Proof.
  assert (H1 : two_points <> []) by discriminate.
  assert (H2 : (0 < bbox_max_extent two_points)%Q) by (vm_compute; reflexivity).
  assert (H3 : build_grid two_points_f = Returns two_points_grid_f)
    by (vm_compute; reflexivity).
  split.
  - split; [split; assumption|].
    exact (proj1 grid_contains_points two_points H1 H2).
  - split; [exact H3|].
    exact (proj2 grid_contains_points two_points_f two_points_grid_f H3).
Defined.

(** C8, as the specification states it, fails in binary64 on two points
    with extents 2, 1 and 0 at x = 1e16: the spacing is 2/46, the
    padding [pad*h] is below half the gap between consecutive doubles
    there, so [corner.x = 1e16 - pad*h] rounds to 1e16, the x of the
    first point, which is then not strictly inside the grid. *)
Lemma point_on_grid_boundary_binary64 :
  exists r g,
    grid_reals far_points_f = Returns r /\
    r_max_extent r = 2%float /\ ltb (of_int 0) (r_max_extent r) = true /\
    build_grid far_points_f = Returns g /\
    c0 (g_corner g) = 1e16%float /\
    In (Row3 1e16 0 0)%float far_points_f /\
    ~ strictly_inside g (Row3 1e16 0 0)%float.
Proof.
  eexists. eexists.
  split; [vm_compute; reflexivity|].
  split; [vm_compute; reflexivity|].
  split; [vm_compute; reflexivity|].
  split; [vm_compute; reflexivity|].
  split; [vm_compute; reflexivity|].
  split; [left; reflexivity|].
  intros [[Hlo _] _]. vm_compute in Hlo. discriminate.
Qed.

(** * The frame of a call *)

Section Frame.

Context {D : Type} `{Scalar D}.
Variable fdi : Z -> Z -> Z -> D -> RowVector3 D -> Matrix3 D -> SparseMatrix D -> SparseMatrix D.
Variable fdg : Z -> Z -> Z -> D -> SparseMatrix D -> SparseMatrix D.
Variable solver : SparseMatrix D -> Vector D -> Vector D * Eigen.ComputationInfo.
Variable mc : Vector D -> list (option (RowVector3 D)) -> Z -> Z -> Z ->
              Matrix3 D -> FaceMatrix -> Matrix3 D * FaceMatrix.

Lemma store_write_eq (m : store D) (p : address) (o : object D) :
  store_write m p o p = Some o.
Proof. unfold store_write. now rewrite Nat.eqb_refl. Qed.

Lemma store_write_neq (m : store D) (p q : address) (o : object D) :
  q <> p -> store_write m p o q = m q.
Proof.
  intros Hq. unfold store_write.
  destruct (Nat.eqb_spec q p); [contradiction | reflexivity].
Qed.

(** What a returning call read and what it wrote. *)
Lemma call_returns (a : Arguments_) (m m' : store D) :
  call fdi fdg solver mc a m = Returns m' ->
  exists P N V F l,
    m (arg_P a) = Some (MatrixXd P) /\ m (arg_N a) = Some (MatrixXd N) /\
    m (arg_V a) = Some (MatrixXd V) /\ m (arg_F a) = Some (MatrixXi F) /\
    poisson_locals fdi fdg solver P N = Returns l /\
    m' = let out := mc (k_g (l_calibration l)) (l_x l)
                       (g_nx (l_grid l)) (g_ny (l_grid l)) (g_nz (l_grid l)) V F in
         store_write (store_write m (arg_V a) (MatrixXd (fst out)))
                     (arg_F a) (MatrixXi (snd out)).
Proof.
  unfold call. intros E.
  destruct (m (arg_P a)) as [[P | ?] |]; try discriminate.
  destruct (m (arg_N a)) as [[N | ?] |]; try discriminate.
  destruct (m (arg_V a)) as [[V | ?] |]; try discriminate.
  destruct (m (arg_F a)) as [[? | F] |]; try discriminate.
  unfold poisson_surface_reconstruction in E.
  apply bind_returns in E as [VF [E1 E]].
  apply bind_returns in E1 as [l [El E1]].
  apply returns_inj in E1. apply returns_inj in E. subst VF m'.
  exists P, N, V, F, l. repeat split; try reflexivity. exact El.
Qed.

Lemma call_total (a : Arguments_) (m : store D) (P N V : Matrix3 D) (F : FaceMatrix)
  (l : Locals D) :
  m (arg_P a) = Some (MatrixXd P) -> m (arg_N a) = Some (MatrixXd N) ->
  m (arg_V a) = Some (MatrixXd V) -> m (arg_F a) = Some (MatrixXi F) ->
  poisson_locals fdi fdg solver P N = Returns l ->
  call fdi fdg solver mc a m =
  Returns (let out := mc (k_g (l_calibration l)) (l_x l)
                         (g_nx (l_grid l)) (g_ny (l_grid l)) (g_nz (l_grid l)) V F in
           store_write (store_write m (arg_V a) (MatrixXd (fst out)))
                       (arg_F a) (MatrixXi (snd out))).
Proof.
  intros EP EN EV EF El. unfold call, poisson_surface_reconstruction.
  rewrite EP, EN, EV, EF, El. reflexivity.
Qed.

End Frame.

(** C10, amended.  A returning call read a point matrix [P], a normal
    matrix [N], a vertex matrix [V] and a face matrix [F] through its four
    references and ran the pipeline on [P] and [N].  Afterwards [V] and
    [F] hold the two outputs of the extraction call on the calibrated
    field, the node positions and the dimensions; every other object of
    the store is as it was, so [P] and [N] are unchanged when [V] is not
    the same object as one of them.  If moreover the extraction
    overwrites its outputs, then the call on any store that differs only
    in the prior contents of [V] and [F] ends in the same store, and so
    does a second call: nothing persists between calls. *)
Theorem call_frame {D : Type} `{Scalar D}
  (fdi : Z -> Z -> Z -> D -> RowVector3 D -> Matrix3 D -> SparseMatrix D -> SparseMatrix D)
  (fdg : Z -> Z -> Z -> D -> SparseMatrix D -> SparseMatrix D)
  (solver : SparseMatrix D -> Vector D -> Vector D * Eigen.ComputationInfo)
  (mc : Vector D -> list (option (RowVector3 D)) -> Z -> Z -> Z ->
        Matrix3 D -> FaceMatrix -> Matrix3 D * FaceMatrix)
  (a : Arguments_) (m m' : store D) :
  call fdi fdg solver mc a m = Returns m' ->
  exists P N V F l,
    (m (arg_P a) = Some (MatrixXd P) /\ m (arg_N a) = Some (MatrixXd N) /\
     m (arg_V a) = Some (MatrixXd V) /\ m (arg_F a) = Some (MatrixXi F)) /\
    poisson_locals fdi fdg solver P N = Returns l /\
    let out := mc (k_g (l_calibration l)) (l_x l)
                  (g_nx (l_grid l)) (g_ny (l_grid l)) (g_nz (l_grid l)) V F in
    m' (arg_V a) = Some (MatrixXd (fst out)) /\
    m' (arg_F a) = Some (MatrixXi (snd out)) /\
    (forall q, q <> arg_V a -> q <> arg_F a -> m' q = m q) /\
    (arg_V a <> arg_P a -> m' (arg_P a) = Some (MatrixXd P)) /\
    (arg_V a <> arg_N a -> m' (arg_N a) = Some (MatrixXd N)) /\
    (extraction_overwrites mc -> arg_V a <> arg_P a -> arg_V a <> arg_N a ->
     forall (m2 : store D) (V2 : Matrix3 D) (F2 : FaceMatrix),
       (forall q, q <> arg_V a -> q <> arg_F a -> m2 q = m q) ->
       m2 (arg_V a) = Some (MatrixXd V2) -> m2 (arg_F a) = Some (MatrixXi F2) ->
       exists m2', call fdi fdg solver mc a m2 = Returns m2' /\
                   forall q, m2' q = m' q).
Proof.
  intros E.
  destruct (call_returns fdi fdg solver mc a m m' E)
    as (P & N & V & F & l & EP & EN & EV & EF & El & Em).
  exists P, N, V, F, l. split; [tauto|]. split; [exact El|].
  cbv zeta in Em |- *.
  set (out := mc (k_g (l_calibration l)) (l_x l)
                 (g_nx (l_grid l)) (g_ny (l_grid l)) (g_nz (l_grid l)) V F) in *.
  assert (HVF : arg_V a <> arg_F a).
  { intros C. rewrite C in EV. congruence. }
  assert (HPF : arg_P a <> arg_F a).
  { intros C. rewrite C in EP. congruence. }
  assert (HNF : arg_N a <> arg_F a).
  { intros C. rewrite C in EN. congruence. }
  assert (Hframe : forall q, q <> arg_V a -> q <> arg_F a -> m' q = m q).
  { intros q HqV HqF. subst m'. now rewrite !store_write_neq. }
  split; [subst m'; rewrite store_write_neq by exact HVF; apply store_write_eq|].
  split; [subst m'; apply store_write_eq|].
  split; [exact Hframe|].
  split; [intros HVP; rewrite Hframe by auto; exact EP|].
  split; [intros HVN; rewrite Hframe by auto; exact EN|].
  intros Hmc HVP HVN m2 V2 F2 Hm2 EV2 EF2.
  assert (EP2 : m2 (arg_P a) = Some (MatrixXd P)) by (rewrite Hm2 by auto; exact EP).
  assert (EN2 : m2 (arg_N a) = Some (MatrixXd N)) by (rewrite Hm2 by auto; exact EN).
  eexists. split; [exact (call_total fdi fdg solver mc a m2 P N V2 F2 l EP2 EN2 EV2 EF2 El)|].
  cbv zeta. rewrite (Hmc _ _ _ _ _ V2 F2 V F). fold out.
  intros q. subst m'. unfold store_write.
  destruct (Nat.eqb_spec q (arg_F a)); [reflexivity|].
  destruct (Nat.eqb_spec q (arg_V a)); [reflexivity|].
  now apply Hm2.
Qed.

(** A store of three matrices, and a call whose [V] is the object [P]. *)
Definition aliased_store : store float :=
  store_of [MatrixXd two_points_f; MatrixXd two_normals_f; MatrixXi []].

Definition aliased_arguments : Arguments_ := MkArgs 0%nat 1%nat 0%nat 2%nat.

(** C10, as the specification states it, fails when the caller passes
    the same matrix as [P] and as [V]: the extraction writes the vertices
    into it, and the input points are gone. *)
Lemma aliased_output_overwrites_input :
  exists m',
    call fd_interpolate fd_grad unconverged_solver empty_mesh
         aliased_arguments aliased_store = Returns m' /\
    aliased_store (arg_P aliased_arguments) = Some (MatrixXd two_points_f) /\
    m' (arg_P aliased_arguments) = Some (MatrixXd []) /\
    m' (arg_P aliased_arguments) <> aliased_store (arg_P aliased_arguments).
Proof.
  destruct two_points_run as [l [El _]].
  eexists. split.
  - exact (call_total fd_interpolate fd_grad unconverged_solver empty_mesh
             aliased_arguments aliased_store two_points_f two_normals_f two_points_f []
             l eq_refl eq_refl eq_refl eq_refl El).
  - split; [reflexivity|]. split; [reflexivity|]. discriminate.
Qed.

Definition separate_store : store float :=
  store_of [MatrixXd two_points_f; MatrixXd two_normals_f;
            MatrixXd [Row3 1 1 1]%float; MatrixXi [(0, 1, 2)]].

Definition separate_arguments : Arguments_ := MkArgs 0%nat 1%nat 2%nat 3%nat.

Lemma call_frame_witness :
  exists m',
    call fd_interpolate fd_grad unconverged_solver empty_mesh
         separate_arguments separate_store = Returns m' /\
    exists P N V F l,
      (separate_store 0%nat = Some (MatrixXd P) /\ separate_store 1%nat = Some (MatrixXd N) /\
       separate_store 2%nat = Some (MatrixXd V) /\ separate_store 3%nat = Some (MatrixXi F)) /\
      poisson_locals fd_interpolate fd_grad unconverged_solver P N = Returns l /\
      m' 2%nat = Some (MatrixXd []) /\ m' 3%nat = Some (MatrixXi []) /\
      m' 0%nat = Some (MatrixXd P) /\ m' 1%nat = Some (MatrixXd N).
Proof.
  destruct two_points_run as [l0 [El0 _]].
  pose proof (call_total fd_interpolate fd_grad unconverged_solver empty_mesh
                separate_arguments separate_store two_points_f two_normals_f
                [Row3 1 1 1]%float [(0, 1, 2)] l0 eq_refl eq_refl eq_refl eq_refl El0) as E.
  eexists. split; [exact E|].
  destruct (call_frame fd_interpolate fd_grad unconverged_solver empty_mesh
              separate_arguments separate_store _ E)
    as (P & N & V & F & l & Hread & El & HV & HF & _ & HP & HN & _).
  exists P, N, V, F, l. split; [exact Hread|]. split; [exact El|].
  split; [exact HV|]. split; [exact HF|].
  split; [apply HP; discriminate | apply HN; discriminate].
Defined.

(** * Errors *)

(** C6, as the specification states it, fails on this run. *)
Lemma nonconvergence_not_reported :
  exists l,
    poisson_locals fd_interpolate fd_grad unconverged_solver
      two_points_f two_normals_f = Returns l /\
    p_info (l_potential l) = Eigen.NoConvergence /\
    poisson_surface_reconstruction fd_interpolate fd_grad unconverged_solver
      empty_mesh two_points_f two_normals_f [] []
    = Returns (empty_mesh (k_g (l_calibration l)) (l_x l)
                 (g_nx (l_grid l)) (g_ny (l_grid l)) (g_nz (l_grid l)) [] []) /\
    poisson_surface_reconstruction fd_interpolate fd_grad unconverged_solver
      empty_mesh two_points_f two_normals_f [] []
    <> Throws SolverNonConvergence.
Proof.
  destruct two_points_run as [l [El _]]. exists l.
  split; [exact El|]. split; [|split].
  - apply poisson_locals_inv in El as (_ & _ & _ & _ & Ep & _).
    apply solve_potential_inv in Ep as (_ & _ & _ & Es).
    unfold unconverged_solver in Es. now injection Es.
  - unfold poisson_surface_reconstruction. rewrite El. reflexivity.
  - unfold poisson_surface_reconstruction. rewrite El. discriminate.
Qed.

(** C6, amended.  The routine never leaves by an exception; its outcome
    is the same as with a solver that reports success for the same
    answer; and in a returning run the mesh is the extraction applied to
    the calibrated answer of the solver, whatever status the solver
    would report. *)
Theorem solver_status_ignored {D : Type} `{Scalar D}
  (fdi : Z -> Z -> Z -> D -> RowVector3 D -> Matrix3 D -> SparseMatrix D -> SparseMatrix D)
  (fdg : Z -> Z -> Z -> D -> SparseMatrix D -> SparseMatrix D)
  (solver : SparseMatrix D -> Vector D -> Vector D * Eigen.ComputationInfo)
  (mc : Vector D -> list (option (RowVector3 D)) -> Z -> Z -> Z ->
        Matrix3 D -> FaceMatrix -> Matrix3 D * FaceMatrix)
  (P N V : Matrix3 D) (F : FaceMatrix) :
  (forall e, poisson_surface_reconstruction fdi fdg solver mc P N V F <> Throws e) /\
  poisson_surface_reconstruction fdi fdg solver mc P N V F =
  poisson_surface_reconstruction fdi fdg
    (fun A b => (fst (solver A b), Eigen.Success)) mc P N V F /\
  (forall l, poisson_locals fdi fdg solver P N = Returns l ->
     exists k,
       calibrate fdi (l_grid l) P (fst (solver (p_A (l_potential l)) (p_b (l_potential l))))
       = Returns k /\
       poisson_surface_reconstruction fdi fdg solver mc P N V F =
       Returns (mc (k_g k) (l_x l) (g_nx (l_grid l)) (g_ny (l_grid l)) (g_nz (l_grid l)) V F)).
Proof.
  split; [|split].
  - apply no_throw_poisson_surface_reconstruction.
  - unfold poisson_surface_reconstruction, poisson_locals.
    destruct (build_grid P) as [g | e |]; cbn [bind]; try reflexivity.
    destruct (int_mul3 (g_nx g) (g_ny g) (g_nz g)) as [n | e |]; cbn [bind];
      try reflexivity.
    destruct (staggered_samples fdi g P N) as [s | e |]; cbn [bind];
      try reflexivity.
    unfold solve_potential.
    destruct (int_staggered_total (g_nx g) (g_ny g) (g_nz g)) as [t | e |];
      cbn [bind]; try reflexivity.
    destruct (int_mul3 (g_nx g) (g_ny g) (g_nz g)) as [m | e |]; cbn [bind];
      try reflexivity.
    destruct (sp_mul _ _) as [A | e |]; cbn [bind]; try reflexivity.
    destruct (spmv _ _) as [b | e |]; cbn [bind fst snd p_solved]; try reflexivity.
    destruct (calibrate fdi g P (fst (solver A b))) as [k | e |]; cbn [bind];
      reflexivity.
  - intros l El. pose proof El as Einv.
    apply poisson_locals_inv in Einv as (_ & _ & _ & _ & Ep & Ek).
    apply solve_potential_inv in Ep as (_ & _ & _ & Es).
    exists (l_calibration l). split.
    + now rewrite <- Es.
    + unfold poisson_surface_reconstruction. now rewrite El.
Qed.

(** ** Inputs the specification calls invalid *)

Lemma build_grid_undefined_propagates {D : Type} `{Scalar D}
  (fdi : Z -> Z -> Z -> D -> RowVector3 D -> Matrix3 D -> SparseMatrix D -> SparseMatrix D)
  (fdg : Z -> Z -> Z -> D -> SparseMatrix D -> SparseMatrix D)
  (solver : SparseMatrix D -> Vector D -> Vector D * Eigen.ComputationInfo)
  (mc : Vector D -> list (option (RowVector3 D)) -> Z -> Z -> Z ->
        Matrix3 D -> FaceMatrix -> Matrix3 D * FaceMatrix)
  (P N V : Matrix3 D) (F : FaceMatrix) :
  build_grid P = Undefined ->
  poisson_surface_reconstruction fdi fdg solver mc P N V F = Undefined.
Proof.
  intros E. unfold poisson_surface_reconstruction, poisson_locals.
  rewrite E. reflexivity.
Qed.

Lemma build_grid_empty {D : Type} `{Scalar D} : build_grid (D := D) [] = Undefined.
Proof. reflexivity. Qed.

Lemma Qmax_zero (a b : Q) : a == 0 -> b == 0 -> Qmax a b == 0.
Proof.
  intros Ha Hb. destruct (Q.max_spec a b) as [[_ E] | [_ E]]; rewrite E; assumption.
Qed.

(** One point: the extent is zero, so is the spacing, and every
    dimension is the conversion of [0/0]. *)
Lemma grid_reals_single_point (p : RowVector3 Q) :
  exists e h c,
    grid_reals [fin_row p] = Returns (MkGridReals (Fin e) (Fin h) c NaN NaN NaN) /\
    e == 0 /\ h == 0.
Proof.
  destruct p as [x y z].
  assert (E0 : Qmax (Qmax (x - x) (y - y)) (z - z) == 0).
  { apply Qmax_zero; [apply Qmax_zero|]; ring. }
  set (e := Qmax (Qmax (x - x) (y - y)) (z - z)) in *.
  set (h := (e / (30 + 2 * 8))%Q).
  assert (Eh : h == 0) by (unfold h; rewrite E0; reflexivity).
  assert (Q0 : forall t : Q, dim_quotient [Fin t] (Fin h) = Returns NaN).
  { intros t. unfold dim_quotient. cbn [maxCoeff minCoeff fold_left bind].
    change (sub (Fin t) (Fin t)) with (Fin (t - t)).
    change (mul (mul (of_int 2) pad) (Fin h)) with (Fin (inject_Z 2 * inject_Z 8 * h)).
    change (add (Fin (t - t)) (Fin (inject_Z 2 * inject_Z 8 * h)))
      with (Fin (t - t + inject_Z 2 * inject_Z 8 * h)).
    change (div (Fin (t - t + inject_Z 2 * inject_Z 8 * h)) (Fin h))
      with (if Qeq_bool h 0
            then XReal.inf_of_sign (t - t + inject_Z 2 * inject_Z 8 * h)
            else Fin ((t - t + inject_Z 2 * inject_Z 8 * h) / h)).
    assert (B : Qeq_bool h 0 = true) by now apply Qeq_bool_iff.
    rewrite B. unfold XReal.inf_of_sign.
    assert (C : (t - t + inject_Z 2 * inject_Z 8 * h ?= 0)%Q = Eq).
    { apply Qeq_alt. rewrite Eh. ring. }
    rewrite C. reflexivity. }
  exists e, h. eexists. split; [|split; assumption].
  unfold grid_reals, max_extent, colwise_maxCoeff, colwise_minCoeff, fin_row, col0, col1, col2.
  cbn [map maxCoeff minCoeff fold_left bind c0 c1 c2].
  change (sub (Fin x) (Fin x)) with (Fin (x - x)).
  change (sub (Fin y) (Fin y)) with (Fin (y - y)).
  change (sub (Fin z) (Fin z)) with (Fin (z - z)).
  rewrite !std_max_fin. fold e.
  change (add (of_int 30) (mul (of_int 2) pad)) with (Fin (30 + 2 * 8)).
  rewrite div_fin by lra. fold h.
  rewrite !Q0. cbn [bind]. reflexivity.
Qed.

Lemma build_grid_single_point (p : RowVector3 Q) :
  build_grid [fin_row p] = Undefined.
Proof.
  destruct (grid_reals_single_point p) as (e & h & c & E & _).
  unfold build_grid. rewrite E. reflexivity.
Qed.

(** C7, as the specification states it, fails on these inputs. *)
Lemma invalid_input_not_reported :
  (poisson_surface_reconstruction fd_interpolate fd_grad unconverged_solver
     empty_mesh ([] : Matrix3 float) [] [] [] = Undefined) /\
  (poisson_surface_reconstruction fd_interpolate fd_grad unconverged_solver
     empty_mesh [Row3 1 2 3]%float [Row3 0 0 1]%float [] [] = Undefined) /\
  (exists r, grid_reals [Row3 1 2 3]%float = Returns r /\
             r_max_extent r = 0%float /\ r_h r = 0%float /\
             PrimFloat.is_nan (r_qx r) = true /\
             PrimFloat.is_nan (r_qy r) = true /\
             PrimFloat.is_nan (r_qz r) = true) /\
  (poisson_surface_reconstruction fd_interpolate fd_grad unconverged_solver
     empty_mesh [Row3 (Fin 1) (Fin 2) (Fin 3)] [Row3 (Fin 0) (Fin 0) (Fin 1)] [] []
   = Undefined).
Proof.
  split; [|split; [|split]].
  - reflexivity.
  - apply build_grid_undefined_propagates. vm_compute. reflexivity.
  - eexists. split; [vm_compute; reflexivity|]. repeat split.
  - apply build_grid_undefined_propagates. vm_compute. reflexivity.
Qed.

(** C7, amended.  The routine validates nothing and has no error to
    raise: on no input, for no scalar arithmetic and no behaviour of the
    routines it calls, does the grid construction or the whole call end
    in a typed error. *)
Theorem no_typed_error {D : Type} `{Scalar D}
  (fdi : Z -> Z -> Z -> D -> RowVector3 D -> Matrix3 D -> SparseMatrix D -> SparseMatrix D)
  (fdg : Z -> Z -> Z -> D -> SparseMatrix D -> SparseMatrix D)
  (solver : SparseMatrix D -> Vector D -> Vector D * Eigen.ComputationInfo)
  (mc : Vector D -> list (option (RowVector3 D)) -> Z -> Z -> Z ->
        Matrix3 D -> FaceMatrix -> Matrix3 D * FaceMatrix)
  (P N V : Matrix3 D) (F : FaceMatrix) (e : error) :
  build_grid P <> Throws e /\
  poisson_surface_reconstruction fdi fdg solver mc P N V F <> Throws e.
Proof.
  split.
  - apply no_throw_build_grid.
  - apply no_throw_poisson_surface_reconstruction.
Qed.

(* ================================================================== *)
(** * Linear algebra over the rationals: the reference semantics *)

(** The inner product, the squared norm and the difference of two
    vectors. *)
Fixpoint dot (u v : list Q) : Q :=
  match u, v with
  | a :: u', b :: v' => (a * b + dot u' v')%Q
  | _, _ => 0%Q
  end.

Definition sqnorm (u : list Q) : Q := dot u u.

Fixpoint vsub (u v : list Q) : list Q :=
  match u, v with
  | a :: u', b :: v' => (a - b)%Q :: vsub u' v'
  | _, _ => []
  end.

(** [A * x] for a matrix whose columns match [x]. *)
Definition apply_sp (A : SparseMatrix Q) (x : list Q) : list Q :=
  accumulate (sp_entries A) x (repeat 0%Q (Z.to_nat (sp_rows A))).


(** The sum of the coefficients of row [p]. *)
Definition sp_row_sum (A : SparseMatrix Q) (p : Z) : Q :=
  fold_right (fun e acc => if fst (fst e) =? p then (snd e + acc)%Q else acc)
             0%Q (sp_entries A).

(** Vectors equal entry by entry. *)
Definition veq (u v : list Q) : Prop := Forall2 Qeq u v.

(** Finite data in [xreal]. *)
Definition fin_entries (es : list (Z * Z * Q)) : list (Z * Z * xreal) :=
  map (fun e => (fst e, Fin (snd e))) es.

Definition fin_sparse (A : SparseMatrix Q) : SparseMatrix xreal :=
  MkSparse (sp_rows A) (sp_cols A) (fin_entries (sp_entries A)).

(** Two vectors of [xreal] hold the same finite values. *)
Definition xvec_eq (u v : Vector xreal) : Prop :=
  exists p q, u = map Fin p /\ v = map Fin q /\ veq p q.


(** ** Inner products *)

Lemma dot_comm (u v : list Q) : dot u v == dot v u.
Proof.
  revert v. induction u as [|a u IH]; intros [|b v]; simpl; try reflexivity.
  rewrite IH. ring.
Qed.

Lemma dot_nil_r (u : list Q) : dot u [] = 0%Q.
Proof. now destruct u. Qed.

Lemma dot_repeat_zero (n : nat) (u : list Q) : dot (repeat 0%Q n) u == 0.
Proof.
  revert u. induction n as [|n IH]; intros [|b u]; simpl; try reflexivity.
  rewrite IH. ring.
Qed.


Lemma sqnorm_nonneg (u : list Q) : (0 <= sqnorm u)%Q.
Proof.
  unfold sqnorm. induction u as [|a u IH]; simpl; [lra|].
  assert (0 <= a * a)%Q by nra. lra.
Qed.


Lemma length_vsub (a b : list Q) :
  length a = length b -> length (vsub a b) = length a.
Proof.
  revert b. induction a as [|x a IH]; intros [|y b] E; simpl in *;
    try discriminate; auto.
Qed.

(** ** Accumulation *)

Lemma dot_add_at (n : nat) (a : Q) (y u : list Q) :
  length y = length u ->
  dot (add_at Qplus n a y) u == dot y u + a * nth n u 0%Q.
Proof.
  revert n u. induction y as [|b y IH]; intros n [|c u] E; simpl in *;
    try discriminate.
  - destruct n; simpl; ring.
  - destruct n as [|n]; simpl.
    + ring.
    + rewrite IH by lia. ring.
Qed.

(** The bilinear form of a list of triplets. *)
Definition bil (es : list (Z * Z * Q)) (x u : list Q) : Q :=
  fold_right (fun e acc => (snd e * vget x (snd (fst e)) * vget u (fst (fst e)) + acc)%Q)
             0%Q es.

Lemma bil_cons (e : Z * Z * Q) (es : list (Z * Z * Q)) (x u : list Q) :
  bil (e :: es) x u =
  (snd e * vget x (snd (fst e)) * vget u (fst (fst e)) + bil es x u)%Q.
Proof. reflexivity. Qed.

Lemma vget_Q (x : list Q) (c : Z) : vget x c = nth (Z.to_nat c) x 0%Q.
Proof. reflexivity. Qed.

Lemma accumulate_cons (e : Z * Z * Q) (es : list (Z * Z * Q)) (x y : list Q) :
  accumulate (e :: es) x y =
  accumulate es x (add_at Qplus (Z.to_nat (fst (fst e)))
                          (snd e * vget x (snd (fst e)))%Q y).
Proof. reflexivity. Qed.

Lemma dot_accumulate (es : list (Z * Z * Q)) (x y u : list Q) :
  length y = length u ->
  dot (accumulate es x y) u == dot y u + bil es x u.
Proof.
  revert y. induction es as [|e es IH]; intros y E.
  - simpl. ring.
  - rewrite accumulate_cons, IH by now rewrite length_add_at.
    rewrite dot_add_at by assumption. rewrite bil_cons, (vget_Q u). ring.
Qed.

Lemma dot_apply_sp (A : SparseMatrix Q) (x u : list Q) :
  rows u = sp_rows A ->
  dot (apply_sp A x) u == bil (sp_entries A) x u.
Proof.
  intros E. unfold apply_sp.
  rewrite dot_accumulate by (rewrite repeat_length; unfold rows in E; lia).
  rewrite dot_repeat_zero. ring.
Qed.

Lemma bil_transpose (A : SparseMatrix Q) (x u : list Q) :
  bil (sp_entries (transpose A)) u x == bil (sp_entries A) x u.
Proof.
  unfold transpose. cbn [sp_entries].
  induction (sp_entries A) as [|e es IH]; [reflexivity|].
  rewrite map_cons, !bil_cons, IH. cbn [fst snd]. ring.
Qed.

(** ** Entries of a product *)

(** Entry [i] of [A * x] from the triplets. *)
Definition row_apply (es : list (Z * Z * Q)) (x : list Q) (i : Z) : Q :=
  fold_right (fun e acc =>
                if fst (fst e) =? i then (snd e * vget x (snd (fst e)) + acc)%Q else acc)
             0%Q es.

Lemma nth_add_at_eq {A : Type} (f : A -> A -> A) (n : nat) (a d : A) (y : list A) :
  (n < length y)%nat -> nth n (add_at f n a y) d = f (nth n y d) a.
Proof.
  revert n. induction y as [|b y IH]; intros [|n] Hn; simpl in *; try lia; auto.
  apply IH. lia.
Qed.

Lemma nth_add_at_neq {A : Type} (f : A -> A -> A) (n m : nat) (a d : A) (y : list A) :
  n <> m -> nth m (add_at f n a y) d = nth m y d.
Proof.
  revert n m. induction y as [|b y IH]; intros [|n] [|m] Hnm; simpl; auto; try lia.
Qed.

Definition rows_nonneg (es : list (Z * Z * Q)) : Prop :=
  Forall (fun e => 0 <= fst (fst e)) es.

Lemma vget_accumulate (es : list (Z * Z * Q)) (x y : list Q) (i : Z) :
  rows_nonneg es -> 0 <= i < rows y ->
  vget (accumulate es x y) i == vget y i + row_apply es x i.
Proof.
  intros Hes. revert y. induction Hes as [|e es He Hes IH]; intros y Hi.
  - simpl. ring.
  - rewrite accumulate_cons, IH by (unfold rows in *; now rewrite length_add_at).
    unfold row_apply at 2. cbn [fold_right]. fold (row_apply es x i).
    rewrite !vget_Q. destruct (Z.eqb_spec (fst (fst e)) i) as [E | E].
    + rewrite E, nth_add_at_eq by (unfold rows in Hi; lia). ring.
    + rewrite nth_add_at_neq by lia. ring.
Qed.

Lemma vget_repeat_zero (n : nat) (i : Z) : vget (repeat 0%Q n) i == 0.
Proof.
  rewrite vget_Q. destruct (Nat.lt_ge_cases (Z.to_nat i) n).
  - now rewrite nth_repeat_lt.
  - rewrite nth_overflow by now rewrite repeat_length. reflexivity.
Qed.

Lemma vget_apply_sp (A : SparseMatrix Q) (x : list Q) (i : Z) :
  rows_nonneg (sp_entries A) -> 0 <= i < sp_rows A ->
  vget (apply_sp A x) i == row_apply (sp_entries A) x i.
Proof.
  intros HA Hi. unfold apply_sp.
  rewrite vget_accumulate by (auto; unfold rows; rewrite repeat_length; lia).
  rewrite vget_repeat_zero. ring.
Qed.

Lemma bil_app (l1 l2 : list (Z * Z * Q)) (x u : list Q) :
  bil (l1 ++ l2) x u == bil l1 x u + bil l2 x u.
Proof.
  induction l1 as [|e l1 IH]; [simpl; ring|].
  rewrite <- app_comm_cons, !bil_cons, IH. ring.
Qed.

(** The triplets of [A * B], as [sp_mul] lists them. *)
Definition product_entries (ea eb : list (Z * Z * Q)) : list (Z * Z * Q) :=
  flat_map (fun a =>
    flat_map (fun b =>
      if snd (fst a) =? fst (fst b)
      then [(fst (fst a), snd (fst b), mul (snd a) (snd b))]
      else [])
      eb)
    ea.

Lemma bil_product_row (a : Z * Z * Q) (eb : list (Z * Z * Q)) (x u : list Q) :
  bil (flat_map (fun b =>
         if snd (fst a) =? fst (fst b)
         then [(fst (fst a), snd (fst b), mul (snd a) (snd b))]
         else []) eb) x u
  == snd a * row_apply eb x (snd (fst a)) * vget u (fst (fst a)).
Proof.
  induction eb as [|b eb IH]; [simpl; ring|].
  cbn [flat_map]. rewrite bil_app, IH.
  unfold row_apply at 2. cbn [fold_right]. fold (row_apply eb x (snd (fst a))).
  rewrite (Z.eqb_sym (fst (fst b))).
  destruct (snd (fst a) =? fst (fst b)).
  - rewrite bil_cons. cbn [fst snd bil fold_right]. change (mul (snd a) (snd b)) with (snd a * snd b)%Q. ring.
  - simpl. ring.
Qed.

Definition cols_in (es : list (Z * Z * Q)) (n : Z) : Prop :=
  Forall (fun e => 0 <= snd (fst e) < n) es.

Lemma bil_product (ea : list (Z * Z * Q)) (B : SparseMatrix Q) (x u : list Q) :
  cols_in ea (sp_rows B) -> rows_nonneg (sp_entries B) ->
  bil (product_entries ea (sp_entries B)) x u == bil ea (apply_sp B x) u.
Proof.
  intros Ha HB. induction Ha as [|a ea Ha Hea IH]; [reflexivity|].
  unfold product_entries in *. cbn [flat_map].
  rewrite bil_app, IH, bil_product_row, bil_cons.
  rewrite (vget_apply_sp B x) by assumption. ring.
Qed.

Lemma sp_wf_rows_nonneg {D : Type} (A : SparseMatrix D) :
  sp_wf A -> Forall (fun e => 0 <= fst (fst e)) (sp_entries A).
Proof.
  intros (_ & _ & H). eapply Forall_impl; [|exact H]. simpl. intros e He. lia.
Qed.

Lemma sp_wf_cols_in (A : SparseMatrix Q) :
  sp_wf A -> cols_in (sp_entries A) (sp_cols A).
Proof.
  intros (_ & _ & H). eapply Forall_impl; [|exact H]. simpl. intros e He. lia.
Qed.

Lemma sp_wf_transpose {D : Type} `{Scalar D} (A : SparseMatrix D) :
  sp_wf A -> sp_wf (transpose A).
Proof.
  intros (Hr & Hc & Hes). unfold sp_wf, transpose. cbn [sp_rows sp_cols sp_entries].
  repeat split; auto. apply Forall_map. eapply Forall_impl; [|exact Hes].
  simpl. intros e He. lia.
Qed.

(** ** The normal equations *)

Lemma length_apply_sp (A : SparseMatrix Q) (x : list Q) :
  length (apply_sp A x) = Z.to_nat (sp_rows A).
Proof. unfold apply_sp. now rewrite length_accumulate, repeat_length. Qed.



(** ** From the rationals to [xreal] *)

Lemma vget_fin (x : list Q) (c : Z) : vget (map Fin x) c = Fin (vget x c).
Proof.
  unfold vget. change (@of_int xreal _ 0) with (Fin (inject_Z 0)).
  apply (map_nth Fin).
Qed.

Lemma add_at_fin (n : nat) (a : Q) (y : list Q) :
  add_at add n (Fin a) (map Fin y) = map Fin (add_at Qplus n a y).
Proof.
  revert n. induction y as [|b y IH]; intros [|n]; simpl; try reflexivity.
  f_equal. apply IH.
Qed.

Lemma accumulate_fin (es : list (Z * Z * Q)) (x y : list Q) :
  accumulate (fin_entries es) (map Fin x) (map Fin y) = map Fin (accumulate es x y).
Proof.
  revert y. induction es as [|e es IH]; intros y; [reflexivity|].
  unfold accumulate, fin_entries in *. cbn [map fold_left fst snd].
  rewrite vget_fin.
  change (mul (Fin (snd e)) (Fin (vget x (snd (fst e)))))
    with (Fin (snd e * vget x (snd (fst e)))).
  rewrite add_at_fin. apply IH.
Qed.

Lemma rows_map {A B : Type} (f : A -> B) (l : list A) : rows (map f l) = rows l.
Proof. unfold rows. now rewrite length_map. Qed.

Lemma repeat_fin (n : nat) : repeat (Fin (inject_Z 0)) n = map Fin (repeat 0%Q n).
Proof. induction n as [|n IH]; simpl; [reflexivity | now rewrite IH]. Qed.

Lemma spmv_fin (A : SparseMatrix Q) (x : list Q) :
  spmv (fin_sparse A) (map Fin x) =
  (_ <- eigen_assert (sp_cols A =? rows x) ;; Returns (map Fin (apply_sp A x))).
Proof.
  unfold spmv, fin_sparse, apply_sp. cbn [sp_cols sp_rows sp_entries].
  rewrite rows_map.
  change (@of_int xreal _ 0) with (Fin (inject_Z 0)).
  now rewrite repeat_fin, accumulate_fin.
Qed.

Lemma transpose_fin (A : SparseMatrix Q) :
  transpose (fin_sparse A) = fin_sparse (transpose A).
Proof.
  unfold transpose, fin_sparse, fin_entries. cbn [sp_rows sp_cols sp_entries].
  f_equal. rewrite !map_map. reflexivity.
Qed.

Lemma product_row_fin (a : Z * Z * Q) (eb : list (Z * Z * Q)) :
  flat_map (fun b : Z * Z * xreal =>
      if snd (fst a) =? fst (fst b)
      then [(fst (fst a), snd (fst b), mul (Fin (snd a)) (snd b))]
      else [])
    (fin_entries eb)
  = fin_entries
      (flat_map (fun b : Z * Z * Q =>
         if snd (fst a) =? fst (fst b)
         then [(fst (fst a), snd (fst b), mul (snd a) (snd b))]
         else [])
         eb).
Proof.
  unfold fin_entries. induction eb as [|b eb IH]; [reflexivity|].
  cbn [map flat_map fst snd]. rewrite map_app, IH. f_equal.
  destruct (snd (fst a) =? fst (fst b)); reflexivity.
Qed.

Lemma product_entries_fin (ea eb : list (Z * Z * Q)) :
  flat_map (fun a : Z * Z * xreal =>
    flat_map (fun b : Z * Z * xreal =>
      if snd (fst a) =? fst (fst b)
      then [(fst (fst a), snd (fst b), mul (snd a) (snd b))]
      else [])
      (fin_entries eb))
    (fin_entries ea)
  = fin_entries (product_entries ea eb).
Proof.
  unfold product_entries. induction ea as [|a ea IHa]; [reflexivity|].
  cbn [flat_map]. unfold fin_entries at 2. cbn [map flat_map].
  fold (fin_entries ea). rewrite IHa. cbn [fst snd].
  rewrite product_row_fin. unfold fin_entries. now rewrite map_app.
Qed.

Lemma sp_mul_fin (A B : SparseMatrix Q) :
  sp_mul (fin_sparse A) (fin_sparse B) =
  (_ <- eigen_assert (sp_cols A =? sp_rows B) ;;
   Returns (fin_sparse (MkSparse (sp_rows A) (sp_cols B)
                          (product_entries (sp_entries A) (sp_entries B))))).
Proof.
  unfold sp_mul, fin_sparse. cbn [sp_cols sp_rows sp_entries].
  now rewrite product_entries_fin.
Qed.

(** Two vectors of [xreal] hold the same finite values. *)
Definition xreal_eq (a b : xreal) : Prop :=
  match a, b with
  | Fin p, Fin q => p == q
  | _, _ => False
  end.




(** Decision procedures for concrete data. *)
Definition sp_wf_b {D : Type} (A : SparseMatrix D) : bool :=
  (0 <=? sp_rows A) && (0 <=? sp_cols A) &&
  forallb (fun e => (0 <=? fst (fst e)) && (fst (fst e) <? sp_rows A) &&
                    (0 <=? snd (fst e)) && (snd (fst e) <? sp_cols A))
          (sp_entries A).

Definition xreal_eqb (a b : xreal) : bool :=
  match a, b with
  | Fin p, Fin q => Qeq_bool p q
  | _, _ => false
  end.

Fixpoint forall2b {A B : Type} (f : A -> B -> bool) (u : list A) (v : list B) : bool :=
  match u, v with
  | [], [] => true
  | a :: u', b :: v' => f a b && forall2b f u' v'
  | _, _ => false
  end.

(** A small grid for concrete runs of the later stages: 3 x 3 x 3 nodes
    at unit spacing from the origin, the field [g(ind) = ind], and the
    right-hand side [v = G g] for which [g] solves the least-squares
    problem exactly. *)
Definition demo_grid : Grid xreal :=
  MkGrid (Row3 (Fin 0) (Fin 0) (Fin 0)) (Fin 1) 3 3 3.

Definition demo_G : SparseMatrix Q := fd_grad 3 3 3 1%Q (sp_empty 54 27).

Definition demo_g : list Q := map inject_Z (range 27).

Definition demo_v : list Q := apply_sp demo_G demo_g.

(** A solver that answers [g] and reports success. *)
Definition answering_solver (g : list Q) (A : SparseMatrix xreal) (b : Vector xreal)
  : Vector xreal * Eigen.ComputationInfo :=
  (map Fin g, Eigen.Success).


Lemma sp_wf_b_sound {D : Type} (A : SparseMatrix D) : sp_wf_b A = true -> sp_wf A.
Proof.
  unfold sp_wf_b, sp_wf. rewrite !andb_true_iff, forallb_forall, Forall_forall.
  intros [[Hr Hc] He]. repeat split; try lia.
  all: specialize (He x H); rewrite !andb_true_iff in He; lia.
Qed.

Lemma forall2b_sound {A B : Type} (f : A -> B -> bool) (R : A -> B -> Prop)
  (u : list A) (v : list B) :
  (forall a b, f a b = true -> R a b) ->
  forall2b f u v = true -> Forall2 R u v.
Proof.
  intros Hf. revert v. induction u as [|a u IH]; intros [|b v] E; simpl in E;
    try discriminate; constructor.
  - apply Hf. now apply andb_true_iff in E.
  - apply IH. now apply andb_true_iff in E.
Qed.

Lemma xreal_eqb_sound (a b : xreal) : xreal_eqb a b = true -> xreal_eq a b.
Proof.
  destruct a, b; simpl; try discriminate. apply Qeq_bool_iff.
Qed.

Lemma Forall2_xreal_eq_map_fin (p q : list Q) :
  forall2b Qeq_bool p q = true -> Forall2 xreal_eq (map Fin p) (map Fin q).
Proof.
  revert q. induction p as [|a p IH]; intros [|b q] E; simpl in E;
    try discriminate; constructor.
  - simpl. apply Qeq_bool_iff. now apply andb_true_iff in E.
  - apply IH. now apply andb_true_iff in E.
Qed.

(** The solve stage on the small grid: the system is built, and the
    answer [demo_g] satisfies it exactly. *)
Lemma demo_potential_run :
  exists p r,
    solve_potential fd_grad (answering_solver demo_g) demo_grid (map Fin demo_v)
      = Returns p /\
    p_G p = fin_sparse demo_G /\
    p_solved p = map Fin demo_g /\
    spmv (p_A p) (p_solved p) = Returns r /\
    Forall2 xreal_eq r (p_b p).
Proof.
  destruct (solve_potential_total fd_grad (answering_solver demo_g) demo_grid
              (map Fin demo_v)) as [p Ep].
  - unfold grid_fits_int, int_max. cbn. lia.
  - reflexivity.
  - exact gradient_shape_fd_grad.
  - pose proof Ep as Einv.
    apply solve_potential_inv in Einv as (EG & EA & Eb & Es).
    assert (EG' : p_G p = fin_sparse demo_G).
    { rewrite EG. vm_compute. reflexivity. }
    assert (Eg : p_solved p = map Fin demo_g).
    { unfold answering_solver in Es. now injection Es. }
    rewrite EG', transpose_fin, sp_mul_fin in EA.
    apply bind_returns in EA as [u [_ EA]]. apply returns_inj in EA.
    rewrite EG', transpose_fin, spmv_fin in Eb.
    apply bind_returns in Eb as [u' [_ Eb]]. apply returns_inj in Eb.
    exists p. eexists. split; [exact Ep|]. split; [exact EG'|]. split; [exact Eg|].
    rewrite <- EA, <- Eb, Eg, spmv_fin. split.
    + cbn [sp_cols]. reflexivity.
    + apply Forall2_xreal_eq_map_fin. vm_compute. reflexivity.
Qed.

Lemma sp_wf_demo_G : sp_wf demo_G.
Proof. apply sp_wf_b_sound. vm_compute. reflexivity. Qed.


(** ** Sums of a product *)

(** The sum of the entries of [A * x], from the triplets. *)
Definition lin (es : list (Z * Z * Q)) (x : list Q) : Q :=
  fold_right (fun e acc => (snd e * vget x (snd (fst e)) + acc)%Q) 0%Q es.

(** The sum of all coefficients. *)
Definition wsum (es : list (Z * Z * Q)) : Q :=
  fold_right (fun e acc => (snd e + acc)%Q) 0%Q es.

Definition sumQ (l : list Q) : Q := fold_right Qplus 0%Q l.

Lemma fold_left_Qplus (l : list Q) (a : Q) :
  fold_left Qplus l a == a + sumQ l.
Proof.
  revert a. induction l as [|b l IH]; intros a; simpl; [ring|].
  rewrite IH. ring.
Qed.

Lemma vsum_Q (l : list Q) : vsum l == sumQ l.
Proof.
  unfold vsum. change (@of_int Q _ 0) with 0%Q.
  rewrite fold_left_Qplus. ring.
Qed.

Lemma sumQ_add_at (n : nat) (a : Q) (y : list Q) :
  (n < length y)%nat -> sumQ (add_at Qplus n a y) == sumQ y + a.
Proof.
  revert n. induction y as [|b y IH]; intros [|n] Hn; simpl in *; try lia.
  - ring.
  - rewrite IH by lia. ring.
Qed.

Definition rows_in (es : list (Z * Z * Q)) (n : Z) : Prop :=
  Forall (fun e => 0 <= fst (fst e) < n) es.

Lemma sumQ_accumulate (es : list (Z * Z * Q)) (x y : list Q) :
  rows_in es (rows y) ->
  sumQ (accumulate es x y) == sumQ y + lin es x.
Proof.
  intros Hes. revert y Hes. induction es as [|e es IH]; intros y Hes.
  - simpl. ring.
  - inversion Hes as [|e' es' He Hes']; subst.
    rewrite accumulate_cons, IH by (unfold rows in *; now rewrite length_add_at).
    rewrite sumQ_add_at by (unfold rows in He; lia).
    unfold lin. cbn [fold_right]. ring.
Qed.

Lemma sumQ_repeat_zero (n : nat) : sumQ (repeat 0%Q n) == 0.
Proof. induction n as [|n IH]; simpl; [reflexivity|]. rewrite IH. ring. Qed.

Lemma sp_wf_rows_in (A : SparseMatrix Q) :
  sp_wf A -> rows_in (sp_entries A) (sp_rows A).
Proof.
  intros (_ & _ & H). eapply Forall_impl; [|exact H]. simpl. intros e He. lia.
Qed.

Lemma vsum_apply_sp (A : SparseMatrix Q) (x : list Q) :
  sp_wf A -> vsum (apply_sp A x) == lin (sp_entries A) x.
Proof.
  intros HA. rewrite vsum_Q. unfold apply_sp.
  rewrite sumQ_accumulate.
  - rewrite sumQ_repeat_zero. ring.
  - unfold rows. rewrite repeat_length.
    pose proof HA as (Hr & _ & _). rewrite Z2Nat.id by lia.
    now apply sp_wf_rows_in.
Qed.



(** The sum of all coefficients is the sum of the row sums. *)
Definition row_sum (es : list (Z * Z * Q)) (p : Z) : Q :=
  fold_right (fun e acc => if fst (fst e) =? p then (snd e + acc)%Q else acc) 0%Q es.

Lemma sumQ_map_pick (l : list Z) (r : Z) (w : Q) (f : Z -> Q) :
  NoDup l -> In r l ->
  sumQ (map (fun p => if r =? p then (w + f p)%Q else f p) l) == w + sumQ (map f l).
Proof.
  intros Hnd. induction Hnd as [|a l Ha Hnd IH]; intros Hin; [contradiction|].
  cbn [map sumQ fold_right]. fold (sumQ (map f l)).
  fold (sumQ (map (fun p => if r =? p then (w + f p)%Q else f p) l)).
  destruct Hin as [-> | Hin].
  - rewrite Z.eqb_refl.
    assert (E : map (fun p => if r =? p then (w + f p)%Q else f p) l = map f l).
    { apply map_ext_in. intros p Hp. destruct (Z.eqb_spec r p); [subst; contradiction | reflexivity]. }
    rewrite E. ring.
  - destruct (Z.eqb_spec r a) as [-> | _]; [contradiction|].
    rewrite IH by assumption. ring.
Qed.

Lemma wsum_row_sums (es : list (Z * Z * Q)) (n : Z) :
  rows_in es n ->
  wsum es == sumQ (map (row_sum es) (range n)).
Proof.
  intros Hes. induction Hes as [|e es He Hes IH].
  - simpl. induction (range n) as [|p l IHl]; simpl; [reflexivity|].
    rewrite <- IHl. ring.
  - unfold wsum in *. cbn [fold_right]. rewrite IH.
    unfold row_sum at 2. cbn [fold_right]. fold (row_sum es).
    rewrite (sumQ_map_pick (range n) (fst (fst e)) (snd e) (row_sum es)).
    + reflexivity.
    + apply NoDup_range.
    + now apply in_range.
Qed.

Lemma sumQ_map_const (l : list Z) (f : Z -> Q) (c : Q) :
  (forall p, In p l -> f p == c) ->
  sumQ (map f l) == inject_Z (Z.of_nat (length l)) * c.
Proof.
  induction l as [|a l IH]; intros Hf.
  - simpl. ring.
  - cbn [map sumQ fold_right length]. fold (sumQ (map f l)).
    rewrite IH by (intros p Hp; apply Hf; now right).
    rewrite (Hf a) by now left.
    rewrite Nat2Z.inj_succ. unfold Z.succ. rewrite inject_Z_plus. ring.
Qed.

Lemma wsum_unit_rows (A : SparseMatrix Q) :
  sp_wf A -> (forall p, 0 <= p < sp_rows A -> sp_row_sum A p == 1) ->
  wsum (sp_entries A) == inject_Z (sp_rows A).
Proof.
  intros HA Hrows.
  rewrite (wsum_row_sums _ (sp_rows A)) by now apply sp_wf_rows_in.
  rewrite (sumQ_map_const _ _ 1).
  - rewrite length_range. pose proof HA as (Hr & _). rewrite Z2Nat.id by lia. ring.
  - intros p Hp. apply in_range in Hp. now apply Hrows.
Qed.


(* ================================================================== *)
(** * Further properties of the grid construction (lines 33-44) *)

Lemma Qfloor_of_int (q : Q) (z : Z) : q == inject_Z z -> Qfloor q = z.
Proof. intros E. rewrite (Qfloor_comp _ _ E). apply Qfloor_Z. Qed.

Lemma dim_ratio_longest (l : list Q) (E : Q) :
  (0 < E)%Q -> extent l == E -> dim_ratio l (E / (30 + 2 * 8)) == 62.
Proof.
  intros HE Hl. unfold dim_ratio. unfold extent in Hl. rewrite Hl.
  field. lra.
Qed.

Lemma build_grid_fin_range (P : Matrix3 Q) :
  P <> [] -> (0 < bbox_max_extent P)%Q ->
  exists g,
    build_grid (fin_matrix P) = Returns g /\
    (16 <= g_nx g <= 62 /\ 16 <= g_ny g <= 62 /\ 16 <= g_nz g <= 62) /\
    grid_fits_int g.
Proof.
  intros HP HE. eexists. split; [apply (build_grid_fin P HP HE)|].
  destruct (extent_le_max P) as (L0 & L1 & L2).
  pose proof (dim_ratio_bounds (col0 P) _ HE L0) as B0.
  pose proof (dim_ratio_bounds (col1 P) _ HE L1) as B1.
  pose proof (dim_ratio_bounds (col2 P) _ HE L2) as B2.
  fold (reference_h P) in B0, B1, B2.
  apply Qfloor_between in B0, B1, B2.
  cbn [g_nx g_ny g_nz]. split; [lia|].
  unfold grid_fits_int, int_max. cbn [g_nx g_ny g_nz].
  repeat split; try lia.
  assert (Qfloor (dim_ratio (col0 P) (reference_h P)) *
          Qfloor (dim_ratio (col1 P) (reference_h P)) <= 62 * 62) by nia.
  nia.
Qed.

(** X1.  For a non-empty point cloud of positive extent, every
    dimension of the grid lies between 16 and 62, an axis whose extent
    is the largest gets exactly 62 nodes (so the clamp [std::max(., 3.)]
    never acts), and the index arithmetic on [int] cannot overflow.
    Exact arithmetic; in binary64 the quotient of the longest axis can
    round below 62 ([longest_axis_binary64_rounding]). *)
Theorem grid_dimensions_range (P : Matrix3 Q) :
  P <> [] -> (0 < bbox_max_extent P)%Q ->
  exists g,
    build_grid (fin_matrix P) = Returns g /\
    (16 <= g_nx g <= 62 /\ 16 <= g_ny g <= 62 /\ 16 <= g_nz g <= 62) /\
    (extent (col0 P) == bbox_max_extent P -> g_nx g = 62) /\
    (extent (col1 P) == bbox_max_extent P -> g_ny g = 62) /\
    (extent (col2 P) == bbox_max_extent P -> g_nz g = 62) /\
    (g_nx g = 62 \/ g_ny g = 62 \/ g_nz g = 62) /\
    grid_fits_int g.
Proof.
  intros HP HE. eexists. split; [apply (build_grid_fin P HP HE)|].
  destruct (extent_le_max P) as (L0 & L1 & L2).
  pose proof (dim_ratio_bounds (col0 P) _ HE L0) as B0.
  pose proof (dim_ratio_bounds (col1 P) _ HE L1) as B1.
  pose proof (dim_ratio_bounds (col2 P) _ HE L2) as B2.
  fold (reference_h P) in B0, B1, B2.
  apply Qfloor_between in B0, B1, B2.
  assert (M0 : extent (col0 P) == bbox_max_extent P ->
               Qfloor (dim_ratio (col0 P) (reference_h P)) = 62).
  { intros E. apply Qfloor_of_int. now apply dim_ratio_longest. }
  assert (M1 : extent (col1 P) == bbox_max_extent P ->
               Qfloor (dim_ratio (col1 P) (reference_h P)) = 62).
  { intros E. apply Qfloor_of_int. now apply dim_ratio_longest. }
  assert (M2 : extent (col2 P) == bbox_max_extent P ->
               Qfloor (dim_ratio (col2 P) (reference_h P)) = 62).
  { intros E. apply Qfloor_of_int. now apply dim_ratio_longest. }
  cbn [g_nx g_ny g_nz].
  split; [lia|]. split; [exact M0|]. split; [exact M1|]. split; [exact M2|].
  split.
  - unfold bbox_max_extent in *.
    destruct (Q.max_spec (Qmax (extent (col0 P)) (extent (col1 P))) (extent (col2 P)))
      as [[_ E] | [_ E]].
    + right; right. apply M2. now rewrite E.
    + destruct (Q.max_spec (extent (col0 P)) (extent (col1 P))) as [[_ E'] | [_ E']].
      * right; left. apply M1. now rewrite E, E'.
      * left. apply M0. now rewrite E, E'.
  - unfold grid_fits_int, int_max. cbn [g_nx g_ny g_nz].
    repeat split; try lia.
    assert (Qfloor (dim_ratio (col0 P) (reference_h P)) *
            Qfloor (dim_ratio (col1 P) (reference_h P)) <= 62 * 62) by nia.
    nia.
Qed.

Lemma grid_dimensions_range_witness :
  (two_points <> [] /\ (0 < bbox_max_extent two_points)%Q) /\
  exists g,
    build_grid (fin_matrix two_points) = Returns g /\
    (16 <= g_nx g <= 62 /\ 16 <= g_ny g <= 62 /\ 16 <= g_nz g <= 62) /\
    (g_nx g = 62 \/ g_ny g = 62 \/ g_nz g = 62).
Proof.
  assert (H1 : two_points <> []) by discriminate.
  assert (H2 : (0 < bbox_max_extent two_points)%Q) by (vm_compute; reflexivity).
  split; [split; assumption|].
  destruct (grid_dimensions_range two_points H1 H2)
    as (g & Eg & Hr & _ & _ & _ & Hm & _).
  exists g. repeat split; try tauto; try lia.
Defined.

(** Coincident points: every extent is zero. *)
Lemma extents_zero (P : Matrix3 Q) :
  bbox_max_extent P == 0 ->
  extent (col0 P) == 0 /\ extent (col1 P) == 0 /\ extent (col2 P) == 0.
Proof.
  intros E. destruct (extent_le_max P) as (L0 & L1 & L2).
  pose proof (extent_nonneg (col0 P)). pose proof (extent_nonneg (col1 P)).
  pose proof (extent_nonneg (col2 P)).
  repeat split; lra.
Qed.

Lemma bbox_max_extent_nonneg (P : Matrix3 Q) : (0 <= bbox_max_extent P)%Q.
Proof.
  destruct (extent_le_max P) as (L0 & _). pose proof (extent_nonneg (col0 P)). lra.
Qed.

Lemma dim_quotient_zero_spacing (l : list Q) (h : Q) :
  l <> [] -> h == 0 -> extent l == 0 ->
  dim_quotient (map Fin l) (Fin h) = Returns NaN.
Proof.
  intros Hl Hh He. unfold dim_quotient.
  rewrite (maxCoeff_fin l Hl), (minCoeff_fin l Hl). cbn [bind].
  change (sub (Fin (bbox_max l)) (Fin (bbox_min l))) with (Fin (extent l)).
  change (mul (mul (of_int 2) pad) (Fin h)) with (Fin (inject_Z 2 * inject_Z 8 * h)).
  change (add (Fin (extent l)) (Fin (inject_Z 2 * inject_Z 8 * h)))
    with (Fin (extent l + inject_Z 2 * inject_Z 8 * h)).
  change (div (Fin (extent l + inject_Z 2 * inject_Z 8 * h)) (Fin h))
    with (if Qeq_bool h 0
          then XReal.inf_of_sign (extent l + inject_Z 2 * inject_Z 8 * h)
          else Fin ((extent l + inject_Z 2 * inject_Z 8 * h) / h)).
  assert (B : Qeq_bool h 0 = true) by now apply Qeq_bool_iff.
  rewrite B. unfold XReal.inf_of_sign.
  assert (C : (extent l + inject_Z 2 * inject_Z 8 * h ?= 0)%Q = Eq).
  { apply Qeq_alt. rewrite Hh, He. reflexivity. }
  rewrite C. reflexivity.
Qed.

Lemma build_grid_zero_extent (P : Matrix3 Q) :
  P <> [] -> bbox_max_extent P == 0 -> build_grid (fin_matrix P) = Undefined.
Proof.
  intros HP HE.
  destruct (col_nonempty P HP) as (H0 & H1 & H2).
  destruct (col_fin_matrix P) as (E0 & E1 & E2).
  destruct (extents_zero P HE) as (Z0 & Z1 & Z2).
  assert (Hh : reference_h P == 0) by (unfold reference_h; rewrite HE; reflexivity).
  unfold build_grid, grid_reals, max_extent, colwise_maxCoeff, colwise_minCoeff.
  rewrite E0, E1, E2.
  rewrite (maxCoeff_fin _ H0), (maxCoeff_fin _ H1), (maxCoeff_fin _ H2).
  rewrite (minCoeff_fin _ H0), (minCoeff_fin _ H1), (minCoeff_fin _ H2).
  cbn [bind c0 c1 c2 maxCoeff fold_left].
  change (sub (Fin (bbox_max (col0 P))) (Fin (bbox_min (col0 P)))) with (Fin (extent (col0 P))).
  change (sub (Fin (bbox_max (col1 P))) (Fin (bbox_min (col1 P)))) with (Fin (extent (col1 P))).
  change (sub (Fin (bbox_max (col2 P))) (Fin (bbox_min (col2 P)))) with (Fin (extent (col2 P))).
  rewrite !std_max_fin. fold (bbox_max_extent P).
  change (add (of_int 30) (mul (of_int 2) pad)) with (Fin (30 + 2 * 8)).
  rewrite div_fin by lra. fold (reference_h P).
  rewrite (dim_quotient_zero_spacing _ _ H0 Hh Z0). cbn [bind].
  rewrite (dim_quotient_zero_spacing _ _ H1 Hh Z1). cbn [bind].
  rewrite (dim_quotient_zero_spacing _ _ H2 Hh Z2). cbn [bind].
  reflexivity.
Qed.

(** X2.  On finite coordinates the grid construction has a defined
    result exactly when the point cloud is non-empty and its bounding
    box has positive extent: coincident points, like a single point,
    make every dimension the conversion of NaN.  Exact arithmetic. *)
Theorem build_grid_defined_iff (P : Matrix3 Q) :
  (exists g, build_grid (fin_matrix P) = Returns g) <->
  (P <> [] /\ (0 < bbox_max_extent P)%Q).
Proof.
  split.
  - intros [g Eg]. destruct P as [|p P].
    + discriminate Eg.
    + split; [discriminate|].
      pose proof (bbox_max_extent_nonneg (p :: P)) as Hn.
      destruct (Qlt_le_dec 0 (bbox_max_extent (p :: P))) as [Hpos | Hle]; [exact Hpos|].
      assert (E0 : bbox_max_extent (p :: P) == 0) by lra.
      rewrite (build_grid_zero_extent (p :: P)) in Eg by (auto; discriminate).
      discriminate Eg.
  - intros [HP HE]. eexists. apply (build_grid_fin P HP HE).
Qed.

(* ================================================================== *)
(** * When the routine returns (lines 19-108) *)

(** X3.  For a non-empty point cloud of positive extent, normals with
    as many rows as points, and called routines that produce matrices
    and vectors of the specified shapes, the routine returns: no Eigen
    size precondition fails, no conversion is undefined, no [int]
    expression overflows.  The mesh is the extraction applied to the
    calibrated field.  Exact arithmetic. *)
Theorem reconstruction_returns
  (fdi : Z -> Z -> Z -> xreal -> RowVector3 xreal -> Matrix3 xreal ->
         SparseMatrix xreal -> SparseMatrix xreal)
  (fdg : Z -> Z -> Z -> xreal -> SparseMatrix xreal -> SparseMatrix xreal)
  (solver : SparseMatrix xreal -> Vector xreal -> Vector xreal * Eigen.ComputationInfo)
  (mc : Vector xreal -> list (option (RowVector3 xreal)) -> Z -> Z -> Z ->
        Matrix3 xreal -> FaceMatrix -> Matrix3 xreal * FaceMatrix)
  (P : Matrix3 Q) (N V : Matrix3 xreal) (F : FaceMatrix) :
  P <> [] -> (0 < bbox_max_extent P)%Q -> rows N = rows P ->
  interpolation_shape fdi -> gradient_shape fdg -> solver_shape solver ->
  exists l,
    poisson_locals fdi fdg solver (fin_matrix P) N = Returns l /\
    poisson_surface_reconstruction fdi fdg solver mc (fin_matrix P) N V F =
    Returns (mc (k_g (l_calibration l)) (l_x l)
                (g_nx (l_grid l)) (g_ny (l_grid l)) (g_nz (l_grid l)) V F).
Proof.
  intros HP HE HN Hi Hg Hs.
  destruct (build_grid_fin_range P HP HE) as (g & Eg & _ & Hfit).
  destruct (poisson_locals_total fdi fdg solver (fin_matrix P) N g Eg Hfit)
    as [l [El _]]; auto.
  - unfold fin_matrix. now rewrite rows_map.
  - exists l. split; [exact El|].
    unfold poisson_surface_reconstruction. now rewrite El.
Qed.

Definition two_normals : Matrix3 xreal :=
  [Row3 (Fin 0) (Fin 0) (Fin 1); Row3 (Fin 0) (Fin 0) (Fin 1)].

Lemma reconstruction_returns_witness :
  (two_points <> [] /\ (0 < bbox_max_extent two_points)%Q /\
   rows two_normals = rows two_points /\
   interpolation_shape (fd_interpolate (D := xreal)) /\
   gradient_shape (fd_grad (D := xreal)) /\
   solver_shape (unconverged_solver (D := xreal))) /\
  exists VF,
    poisson_surface_reconstruction fd_interpolate fd_grad unconverged_solver
      empty_mesh (fin_matrix two_points) two_normals [] [] = Returns VF.
Proof.
  assert (H1 : two_points <> []) by discriminate.
  assert (H2 : (0 < bbox_max_extent two_points)%Q) by (vm_compute; reflexivity).
  assert (H3 : rows two_normals = rows two_points) by reflexivity.
  split.
  - exact (conj H1 (conj H2 (conj H3 (conj interpolation_shape_fd_interpolate
             (conj gradient_shape_fd_grad solver_shape_unconverged))))).
  - destruct (reconstruction_returns fd_interpolate fd_grad unconverged_solver
                empty_mesh two_points two_normals [] [] H1 H2 H3
                interpolation_shape_fd_interpolate gradient_shape_fd_grad
                solver_shape_unconverged) as [l [_ E]].
    eexists. exact E.
Defined.

(** * Normals that do not match the points (lines 64-78) *)

(** X4.  When [N] has not as many rows as [P] (and the grid can be
    built), the product [Wx.transpose() * N.col(0)] violates Eigen's size
    precondition: the call has no defined result, and reports nothing.
    Holds for any scalar arithmetic. *)
Theorem mismatched_normals_undefined {D : Type} `{Scalar D}
  (fdi : Z -> Z -> Z -> D -> RowVector3 D -> Matrix3 D -> SparseMatrix D -> SparseMatrix D)
  (fdg : Z -> Z -> Z -> D -> SparseMatrix D -> SparseMatrix D)
  (solver : SparseMatrix D -> Vector D -> Vector D * Eigen.ComputationInfo)
  (mc : Vector D -> list (option (RowVector3 D)) -> Z -> Z -> Z ->
        Matrix3 D -> FaceMatrix -> Matrix3 D * FaceMatrix)
  (P N V : Matrix3 D) (F : FaceMatrix) (g : Grid D) :
  build_grid P = Returns g -> grid_fits_int g -> interpolation_shape fdi ->
  rows N <> rows P ->
  poisson_surface_reconstruction fdi fdg solver mc P N V F = Undefined.
Proof.
  intros Eg (Hx & Hy & Hz & Hmax) Hi HN.
  unfold poisson_surface_reconstruction, poisson_locals.
  rewrite Eg. cbn [bind].
  set (nx := g_nx g) in *. set (ny := g_ny g) in *. set (nz := g_nz g) in *.
  assert (int_min <= 0) by (unfold int_min; lia).
  rewrite (int_mul3_ok nx ny nz) by nia. cbn [bind].
  unfold staggered_samples. fold nx ny nz.
  rewrite (int_mul3_ok (nx - 1) ny nz) by nia. cbn [bind].
  rewrite (int_mul3_ok nx (ny - 1) nz) by nia. cbn [bind].
  rewrite (int_mul3_ok' nx ny (nz - 1)) by (try lia; replace (nz - 1 + 1) with nz by lia; nia).
  cbn [bind].
  set (Wx := fdi (nx - 1) ny nz _ _ P _).
  destruct (Hi (nx - 1) ny nz (g_h g)
              (row_add (g_corner g) (Row3 (div (g_h g) (of_int 2)) (of_int 0) (of_int 0)))
              P (sp_empty (rows P) ((nx - 1) * ny * nz))) as [Rx _].
  fold Wx in Rx.
  unfold spmv at 1. cbn [transpose sp_cols]. rewrite Rx.
  assert (E : (rows P =? rows (col0 N)) = false).
  { apply Z.eqb_neq. unfold col0. rewrite rows_map. congruence. }
  rewrite E. reflexivity.
Qed.

Lemma mismatched_normals_undefined_witness :
  (build_grid two_points_f = Returns two_points_grid_f /\
   grid_fits_int two_points_grid_f /\
   interpolation_shape (fd_interpolate (D := float)) /\
   rows [Row3 0 0 1]%float <> rows two_points_f) /\
  poisson_surface_reconstruction fd_interpolate fd_grad unconverged_solver
    empty_mesh two_points_f [Row3 0 0 1]%float [] [] = Undefined.
Proof.
  assert (H4 : rows [Row3 0 0 1]%float <> rows two_points_f) by (vm_compute; discriminate).
  split.
  - exact (conj build_grid_two_points_f (conj grid_fits_int_two_points_f
             (conj interpolation_shape_fd_interpolate H4))).
  - exact (mismatched_normals_undefined fd_interpolate fd_grad unconverged_solver
             empty_mesh two_points_f [Row3 0 0 1]%float [] [] two_points_grid_f
             build_grid_two_points_f grid_fits_int_two_points_f
             interpolation_shape_fd_interpolate H4).
Defined.

(* ================================================================== *)
(** * The system handed to the solver (line 92) *)

Lemma dot_normal_matrix (G : SparseMatrix Q) (x y : list Q) :
  sp_wf G -> rows y = sp_cols G ->
  dot (accumulate (product_entries (sp_entries (transpose G)) (sp_entries G)) x
                  (repeat 0%Q (Z.to_nat (sp_cols G)))) y
  == dot (apply_sp G y) (apply_sp G x).
Proof.
  intros HG Hy.
  assert (Hrows : rows (apply_sp G x) = sp_rows G).
  { unfold rows. rewrite length_apply_sp. destruct HG. lia. }
  rewrite dot_accumulate by (rewrite repeat_length; unfold rows in Hy; lia).
  rewrite dot_repeat_zero.
  rewrite (bil_product (sp_entries (transpose G)) G x y).
  2:{ apply (sp_wf_cols_in (transpose G)). now apply sp_wf_transpose. }
  2:{ now apply sp_wf_rows_nonneg. }
  rewrite (bil_transpose G y (apply_sp G x)).
  rewrite <- (dot_apply_sp G y (apply_sp G x)) by assumption.
  ring.
Qed.

(** X6.  The matrix handed to the solver is square of the size of the
    node count, symmetric and positive semidefinite: [y . (A x) = x . (A y)]
    and [x . (A x) = |G x|^2 >= 0].  Exact arithmetic, any [fd_grad]
    whose matrix is finite and well formed. *)
Theorem normal_matrix_symmetric_psd
  (fdg : Z -> Z -> Z -> xreal -> SparseMatrix xreal -> SparseMatrix xreal)
  (solver : SparseMatrix xreal -> Vector xreal -> Vector xreal * Eigen.ComputationInfo)
  (grid : Grid xreal) (v : Vector xreal) (G : SparseMatrix Q) (p : Potential xreal) :
  solve_potential fdg solver grid v = Returns p ->
  p_G p = fin_sparse G -> sp_wf G ->
  exists A,
    p_A p = fin_sparse A /\
    sp_rows A = sp_cols G /\ sp_cols A = sp_cols G /\
    forall x y, rows x = sp_cols G -> rows y = sp_cols G ->
      dot (apply_sp A x) y == dot (apply_sp A y) x /\
      dot (apply_sp A x) x == sqnorm (apply_sp G x) /\
      (0 <= dot (apply_sp A x) x)%Q.
Proof.
  intros Ep EG HG.
  apply solve_potential_inv in Ep as (_ & EA & _ & _).
  rewrite EG, transpose_fin, sp_mul_fin in EA.
  apply bind_returns in EA as [u [_ EA]]. apply returns_inj in EA.
  eexists. split; [symmetry; exact EA|].
  cbn [transpose sp_rows sp_cols]. split; [reflexivity|]. split; [reflexivity|].
  intros x y Hx Hy.
  pose proof (dot_normal_matrix G x y HG Hy) as Exy.
  pose proof (dot_normal_matrix G y x HG Hx) as Eyx.
  pose proof (dot_normal_matrix G x x HG Hx) as Exx.
  split; [|split].
  - etransitivity; [exact Exy|]. etransitivity; [apply dot_comm|].
    symmetry. exact Eyx.
  - exact Exx.
  - pose proof (sqnorm_nonneg (apply_sp G x)) as Hn. unfold sqnorm in *.
    rewrite <- Exx in Hn. exact Hn.
Qed.

Lemma normal_matrix_symmetric_psd_witness :
  exists p,
    (solve_potential fd_grad (answering_solver demo_g) demo_grid (map Fin demo_v)
       = Returns p /\
     p_G p = fin_sparse demo_G /\ sp_wf demo_G) /\
    exists A,
      p_A p = fin_sparse A /\
      sp_rows A = sp_cols demo_G /\ sp_cols A = sp_cols demo_G /\
      forall x y, rows x = sp_cols demo_G -> rows y = sp_cols demo_G ->
        dot (apply_sp A x) y == dot (apply_sp A y) x /\
        dot (apply_sp A x) x == sqnorm (apply_sp demo_G x) /\
        (0 <= dot (apply_sp A x) x)%Q.
Proof.
  destruct demo_potential_run as (p & r & Ep & EG & _).
  exists p. split; [exact (conj Ep (conj EG sp_wf_demo_G))|].
  exact (normal_matrix_symmetric_psd fd_grad (answering_solver demo_g) demo_grid
           (map Fin demo_v) demo_G p Ep EG sp_wf_demo_G).
Defined.

(* ================================================================== *)
(** * The iso-value (lines 96-101) *)

Lemma fold_left_add_fin (y : list Q) (a : Q) :
  fold_left add (map Fin y) (Fin a) = Fin (fold_left Qplus y a).
Proof.
  revert a. induction y as [|b y IH]; intros a; [reflexivity|].
  cbn [map fold_left]. change (add (Fin a) (Fin b)) with (Fin (a + b)). apply IH.
Qed.

Lemma vsum_fin (y : list Q) : vsum (map Fin y) = Fin (vsum y).
Proof. unfold vsum. apply fold_left_add_fin. Qed.

Lemma array_sub_fin (g : list Q) (s : Q) :
  array_sub (map Fin g) (Fin s) = map Fin (array_sub g s).
Proof. unfold array_sub. rewrite !map_map. reflexivity. Qed.

Lemma inject_Z_nonzero (n : Z) : n <> 0 -> ~ inject_Z n == 0.
Proof.
  intros Hn E. unfold Qeq in E. simpl in E. lia.
Qed.

Lemma iso_value_fin (W : SparseMatrix Q) (g : list Q) (n : Z) :
  n <> 0 ->
  iso_value (fin_sparse W) (map Fin g) n =
  (_ <- eigen_assert (sp_cols W =? rows g) ;;
   Returns (Fin (vsum (apply_sp W g) / inject_Z n))).
Proof.
  intros Hn. unfold iso_value. rewrite spmv_fin.
  destruct (sp_cols W =? rows g); cbn [eigen_assert bind]; [|reflexivity].
  rewrite vsum_fin. change (of_int n) with (Fin (inject_Z n)).
  now rewrite div_fin by now apply inject_Z_nonzero.
Qed.


(** Two points inside the small grid, and their interpolation matrix
    over the rationals. *)
Definition demo_points : Matrix3 Q :=
  [Row3 (1 # 2) (5 # 4) 1; Row3 (3 # 2) (1 # 4) (7 # 4)]%Q.

Definition demo_W : SparseMatrix Q :=
  fd_interpolate 3 3 3 1%Q (Row3 0 0 0)%Q demo_points (sp_empty 2 27).

Lemma sp_wf_demo_W : sp_wf demo_W.
Proof. apply sp_wf_b_sound. vm_compute. reflexivity. Qed.

Lemma demo_W_unit_rows (p : Z) :
  0 <= p < rows (fin_matrix demo_points) -> sp_row_sum demo_W p == 1.
Proof.
  intros Hp. assert (E : p = 0 \/ p = 1) by (cbn in Hp; lia).
  destruct E as [-> | ->]; vm_compute; reflexivity.
Qed.

Lemma grid_fits_int_demo_grid : grid_fits_int demo_grid.
Proof. unfold grid_fits_int, int_max. cbn. lia. Qed.

(** The calibration stage on the small grid, for any field with one
    value per node. *)
Lemma demo_calibration_run (g : list Q) :
  rows g = 27 ->
  exists k,
    calibrate fd_interpolate demo_grid (fin_matrix demo_points) (map Fin g) = Returns k /\
    k_W k = fin_sparse demo_W.
Proof.
  intros Hg.
  destruct (calibrate_total fd_interpolate demo_grid (fin_matrix demo_points)
              (map Fin g)) as [k Ek].
  - exact grid_fits_int_demo_grid.
  - rewrite rows_map. exact Hg.
  - exact interpolation_shape_fd_interpolate.
  - exists k. split; [exact Ek|].
    apply calibrate_inv in Ek as (EW & _). rewrite EW. vm_compute. reflexivity.
Qed.




(** ** The additive constant the solver leaves open *)

Definition vshift (g : list Q) (c : Q) : list Q := map (fun gi => (gi + c)%Q) g.

Lemma vget_vshift (g : list Q) (c : Q) (i : Z) :
  0 <= i < rows g -> vget (vshift g c) i == vget g i + c.
Proof.
  intros Hi. unfold vshift. rewrite !vget_Q.
  rewrite (nth_indep _ 0%Q (0 + c)%Q) by (rewrite length_map; unfold rows in Hi; lia).
  rewrite (map_nth (fun gi : Q => (gi + c)%Q)). reflexivity.
Qed.

Lemma lin_vshift (es : list (Z * Z * Q)) (g : list Q) (c : Q) :
  cols_in es (rows g) ->
  lin es (vshift g c) == lin es g + c * wsum es.
Proof.
  intros Hes. induction Hes as [|e es He Hes IH]; [simpl; ring|].
  unfold lin, wsum in *. cbn [fold_right]. rewrite IH.
  rewrite vget_vshift by assumption. ring.
Qed.

Lemma iso_value_vshift (W : SparseMatrix Q) (g : list Q) (c : Q) (n : Z) :
  sp_wf W -> sp_cols W = rows g -> sp_rows W = n -> 1 <= n ->
  (forall p, 0 <= p < n -> sp_row_sum W p == 1) ->
  vsum (apply_sp W (vshift g c)) / inject_Z n ==
  vsum (apply_sp W g) / inject_Z n + c.
Proof.
  intros HW Hc Hr Hn Hrows.
  rewrite !vsum_apply_sp by assumption.
  rewrite lin_vshift by (rewrite <- Hc; now apply sp_wf_cols_in).
  rewrite wsum_unit_rows by (auto; rewrite Hr; assumption).
  rewrite Hr. field. apply inject_Z_nonzero. lia.
Qed.

Lemma array_sub_vshift (g : list Q) (c s s' : Q) :
  s' == s + c ->
  Forall2 Qeq (array_sub (vshift g c) s') (array_sub g s).
Proof.
  intros Es. unfold array_sub, vshift.
  induction g as [|a g IH]; cbn [map]; constructor; [|exact IH].
  change (sub (a + c)%Q s') with (a + c - s')%Q.
  change (sub a s) with (a - s)%Q. rewrite Es. ring.
Qed.

Lemma Forall2_xreal_eq_of_veq (p q : list Q) :
  Forall2 Qeq p q -> Forall2 xreal_eq (map Fin p) (map Fin q).
Proof.
  intros E. induction E as [|a b p q Eab E IH]; cbn [map]; constructor; auto.
Qed.

(** X8.  Adding a constant to the solver's answer does not change the
    calibrated field, when every row of [W] sums to one: the additive
    constant the least-squares problem leaves open has no effect on
    what is handed to the extraction.  Exact arithmetic. *)
Theorem calibration_ignores_constant
  (fdi : Z -> Z -> Z -> xreal -> RowVector3 xreal -> Matrix3 xreal ->
         SparseMatrix xreal -> SparseMatrix xreal)
  (grid : Grid xreal) (P : Matrix3 xreal) (W : SparseMatrix Q) (g : list Q) (c : Q)
  (k k' : Calibration xreal) :
  calibrate fdi grid P (map Fin g) = Returns k ->
  calibrate fdi grid P (map Fin (vshift g c)) = Returns k' ->
  k_W k = fin_sparse W -> sp_wf W -> sp_rows W = rows P -> 1 <= rows P ->
  (forall p, 0 <= p < rows P -> sp_row_sum W p == 1) ->
  Forall2 xreal_eq (k_g k') (k_g k).
Proof.
  intros Ek Ek' EW HW Hr Hn Hrows.
  apply calibrate_inv in Ek as (EW1 & Es & Eg).
  apply calibrate_inv in Ek' as (EW2 & Es' & Eg').
  assert (EW' : k_W k' = fin_sparse W) by now rewrite EW2, <- EW1.
  rewrite EW, iso_value_fin in Es by lia.
  apply bind_returns in Es as [u [Hc Es]]. apply returns_inj in Es.
  apply eigen_assert_returns, Z.eqb_eq in Hc.
  rewrite EW', iso_value_fin in Es' by lia.
  apply bind_returns in Es' as [u' [_ Es']]. apply returns_inj in Es'.
  rewrite Eg, Eg', <- Es, <- Es', !array_sub_fin.
  apply Forall2_xreal_eq_of_veq, array_sub_vshift.
  now apply iso_value_vshift.
Qed.

Lemma calibration_ignores_constant_witness :
  exists k k',
    (calibrate fd_interpolate demo_grid (fin_matrix demo_points) (map Fin demo_g)
       = Returns k /\
     calibrate fd_interpolate demo_grid (fin_matrix demo_points)
       (map Fin (vshift demo_g (5 # 3))) = Returns k' /\
     k_W k = fin_sparse demo_W /\ sp_wf demo_W /\
     sp_rows demo_W = rows (fin_matrix demo_points) /\
     1 <= rows (fin_matrix demo_points) /\
     (forall p, 0 <= p < rows (fin_matrix demo_points) -> sp_row_sum demo_W p == 1)) /\
    Forall2 xreal_eq (k_g k') (k_g k).
Proof.
  destruct (demo_calibration_run demo_g eq_refl) as (k & Ek & EW).
  destruct (demo_calibration_run (vshift demo_g (5 # 3)) eq_refl) as (k' & Ek' & _).
  assert (Hr : sp_rows demo_W = rows (fin_matrix demo_points)) by reflexivity.
  assert (Hn : 1 <= rows (fin_matrix demo_points)) by (cbn; lia).
  exists k, k'.
  split; [exact (conj Ek (conj Ek' (conj EW (conj sp_wf_demo_W
                   (conj Hr (conj Hn demo_W_unit_rows))))))|].
  exact (calibration_ignores_constant fd_interpolate demo_grid
           (fin_matrix demo_points) demo_W demo_g (5 # 3) k k'
           Ek Ek' EW sp_wf_demo_W Hr Hn demo_W_unit_rows).
Defined.

(* ================================================================== *)
(** * The least-squares problem (lines 91-93) *)

(** ** Fields that differ by a constant *)











(* ================================================================== *)
(** * The staggered samples (lines 64-83) *)

(** ** The entries of a sparse product, in any arithmetic *)

Section Entrywise.

Context {D : Type} `{Scalar D}.

(** Entry [c] of [transpose(W) * n], read off the stored coefficients of
    [W]: from zero, in storage order, [w * n(p)] is added for every
    coefficient [(p, c, w)] of column [c]. *)
Definition scatter_to (W : SparseMatrix D) (n : Vector D) (c : Z) : D :=
  fold_left (fun acc e =>
               if snd (fst e) =? c
               then add acc (mul (snd e) (vget n (fst (fst e))))
               else acc)
            (sp_entries W) (of_int 0).

(** Entry [i] of [A * x], likewise. *)
Definition gather_from (A : SparseMatrix D) (x : Vector D) (i : Z) : D :=
  fold_left (fun acc e =>
               if fst (fst e) =? i
               then add acc (mul (snd e) (vget x (snd (fst e))))
               else acc)
            (sp_entries A) (of_int 0).

Lemma vget_add_at (n : nat) (a : D) (y : Vector D) (i : Z) :
  0 <= i < rows y ->
  vget (add_at add n a y) i =
  if Nat.eqb n (Z.to_nat i) then add (vget y i) a else vget y i.
Proof.
  intros Hi. unfold vget. destruct (Nat.eqb_spec n (Z.to_nat i)) as [-> | Hne].
  - apply nth_add_at_eq. unfold rows in Hi. lia.
  - now apply nth_add_at_neq.
Qed.

Lemma vget_accumulate_fold (es : list (Z * Z * D)) (x y : Vector D) (i : Z) :
  Forall (fun e => 0 <= fst (fst e)) es -> 0 <= i < rows y ->
  vget (accumulate es x y) i =
  fold_left (fun acc e =>
               if fst (fst e) =? i
               then add acc (mul (snd e) (vget x (snd (fst e))))
               else acc)
            es (vget y i).
Proof.
  intros Hes. revert y. induction Hes as [|e es He Hes IH]; intros y Hi.
  - reflexivity.
  - unfold accumulate in *. cbn [fold_left].
    rewrite IH by (unfold rows in *; now rewrite length_add_at).
    rewrite vget_add_at by assumption.
    f_equal. destruct (Z.eqb_spec (fst (fst e)) i) as [E | E].
    + rewrite E, Nat.eqb_refl. reflexivity.
    + destruct (Nat.eqb_spec (Z.to_nat (fst (fst e))) (Z.to_nat i)); [lia | reflexivity].
Qed.

Lemma vget_repeat_zero_gen (n : nat) (i : Z) :
  vget (repeat (of_int 0) n) i = of_int 0.
Proof.
  unfold vget. destruct (Nat.lt_ge_cases (Z.to_nat i) n).
  - now apply nth_repeat_lt.
  - apply nth_overflow. now rewrite repeat_length.
Qed.

Lemma spmv_entry (A : SparseMatrix D) (x y : Vector D) (i : Z) :
  spmv A x = Returns y -> sp_wf A -> 0 <= i < sp_rows A ->
  vget y i = gather_from A x i.
Proof.
  intros E HA Hi. apply spmv_returns in E as (_ & -> & _).
  rewrite vget_accumulate_fold.
  - now rewrite vget_repeat_zero_gen.
  - now apply sp_wf_rows_nonneg.
  - unfold rows. rewrite repeat_length. lia.
Qed.

Lemma gather_from_transpose (W : SparseMatrix D) (n : Vector D) (c : Z) :
  gather_from (transpose W) n c = scatter_to W n c.
Proof.
  unfold gather_from, scatter_to, transpose. cbn [sp_entries].
  generalize (of_int 0). induction (sp_entries W) as [|e es IH]; intros a0.
  - reflexivity.
  - cbn [map fold_left fst snd]. apply IH.
Qed.

End Entrywise.

(** C3.  In a returning run, for each axis [a]: the interpolation
    matrix [W_a] is [fd_interpolate] called on the grid staggered along
    [a] (one node fewer along [a], corner moved by [h/2] along [a]) with
    the points [P]; [v_a] is [transpose(W_a) * N.col(a)], that is, when
    the coefficients of [W_a] lie inside its shape, [v_a] has one entry
    per column of [W_a] and its entry [c] is the sum, from zero and in
    storage order, of [w * N(p, a)] over the coefficients [(p, c, w)] of
    [W_a]; and [v] is [vx], [vy], [vz] concatenated in that order.  Holds
    for any scalar arithmetic, binary64 included, and any
    [fd_interpolate]. *)
Theorem staggered_normals_scattered {D : Type} `{Scalar D}
  (fdi : Z -> Z -> Z -> D -> RowVector3 D -> Matrix3 D -> SparseMatrix D -> SparseMatrix D)
  (fdg : Z -> Z -> Z -> D -> SparseMatrix D -> SparseMatrix D)
  (solver : SparseMatrix D -> Vector D -> Vector D * Eigen.ComputationInfo)
  (P N : Matrix3 D) (l : Locals D) :
  poisson_locals fdi fdg solver P N = Returns l ->
  let s := l_staggered l in
  (forall a : axis,
     let sg := staggered_grid a (l_grid l) in
     s_W_axis a s = fdi (g_nx sg) (g_ny sg) (g_nz sg) (g_h sg) (g_corner sg) P
                        (sp_empty (rows P) (node_count sg)) /\
     spmv (transpose (s_W_axis a s)) (column a N) = Returns (s_v_axis a s) /\
     rows (column a N) = sp_rows (s_W_axis a s) /\
     (sp_wf (s_W_axis a s) ->
      rows (s_v_axis a s) = sp_cols (s_W_axis a s) /\
      forall c, 0 <= c < sp_cols (s_W_axis a s) ->
                vget (s_v_axis a s) c = scatter_to (s_W_axis a s) (column a N) c)) /\
  s_v s = s_v_axis AxisX s ++ s_v_axis AxisY s ++ s_v_axis AxisZ s.
Proof.
  intros E s. subst s.
  apply poisson_locals_inv in E as (_ & _ & _ & Es & _).
  apply staggered_samples_inv in Es as (EW & Hv & Hcat & _).
  split; [|exact Hcat].
  intros a sg.
  split; [apply EW|]. split; [apply Hv|].
  pose proof (Hv a) as Ea. apply spmv_returns in Ea as (Hc & _ & Hl).
  cbn [transpose sp_cols sp_rows] in Hc, Hl.
  split; [symmetry; exact Hc|].
  intros HW. pose proof HW as (_ & Hc0 & _).
  split; [unfold rows; rewrite Hl; lia|].
  intros c Hcol.
  rewrite (spmv_entry (transpose (s_W_axis a (l_staggered l))) (column a N)
             (s_v_axis a (l_staggered l)) c (Hv a)).
  - apply gather_from_transpose.
  - now apply sp_wf_transpose.
  - exact Hcol.
Qed.

Lemma two_points_interpolation_wf (l : Locals float) (a : axis) :
  poisson_locals fd_interpolate fd_grad unconverged_solver
    two_points_f two_normals_f = Returns l ->
  l_grid l = two_points_grid_f ->
  sp_wf (s_W_axis a (l_staggered l)).
Proof.
  intros El Eg.
  apply poisson_locals_inv in El as (_ & _ & _ & Es & _).
  apply staggered_samples_inv in Es as (EW & _).
  rewrite (EW a), Eg. apply sp_wf_b_sound.
  destruct a; vm_compute; reflexivity.
Qed.

Lemma staggered_normals_scattered_witness :
  exists l,
    poisson_locals fd_interpolate fd_grad unconverged_solver
      two_points_f two_normals_f = Returns l /\
    (forall c, 0 <= c < sp_cols (s_W_axis AxisZ (l_staggered l)) ->
       vget (s_v_axis AxisZ (l_staggered l)) c =
       scatter_to (s_W_axis AxisZ (l_staggered l)) (column AxisZ two_normals_f) c) /\
    s_v (l_staggered l) =
      s_v_axis AxisX (l_staggered l) ++ s_v_axis AxisY (l_staggered l) ++
      s_v_axis AxisZ (l_staggered l).
Proof.
  destruct two_points_run as [l [El Eg]]. exists l.
  split; [exact El|].
  pose proof (staggered_normals_scattered fd_interpolate fd_grad unconverged_solver
                two_points_f two_normals_f l El) as [Hax Hcat].
  split; [|exact Hcat].
  exact (proj2 (proj2 (proj2 (proj2 (Hax AxisZ)))
                 (two_points_interpolation_wf l AxisZ El Eg))).
Defined.

(* ================================================================== *)
(** * The right-hand side [v] (lines 72-86) *)

Section Blocks.

Context {D : Type} `{Scalar D}.

(** Where the samples of an axis start in [v]. *)
Definition block_offset (a : axis) (g : Grid D) : Z :=
  match a with
  | AxisX => 0
  | AxisY => node_count (staggered_grid AxisX g)
  | AxisZ => node_count (staggered_grid AxisX g) + node_count (staggered_grid AxisY g)
  end.

Lemma vget_app_l (u v : Vector D) (i : Z) :
  0 <= i < rows u -> vget (u ++ v) i = vget u i.
Proof.
  intros Hi. unfold vget. apply app_nth1. unfold rows in Hi. lia.
Qed.

Lemma vget_app_r (u v : Vector D) (i : Z) :
  0 <= i -> vget (u ++ v) (rows u + i) = vget v i.
Proof.
  intros Hi. unfold vget, rows. rewrite app_nth2 by lia. f_equal. lia.
Qed.

End Blocks.

(** X10.  In a returning run, [x] has one row per node; the matrix
    passed to [fd_grad] is declared with as many rows as [v] has entries
    and one column per node; [v] has one entry per node of the three
    staggered grids, the x-, y- and z-samples in that order, so that
    entry [block_offset a + c] of [v] is entry [c] of [v_a].  Holds for
    any scalar arithmetic, given [fd_interpolate] returns matrices of
    the specified shape. *)
Theorem right_hand_side_blocks {D : Type} `{Scalar D}
  (fdi : Z -> Z -> Z -> D -> RowVector3 D -> Matrix3 D -> SparseMatrix D -> SparseMatrix D)
  (fdg : Z -> Z -> Z -> D -> SparseMatrix D -> SparseMatrix D)
  (solver : SparseMatrix D -> Vector D -> Vector D * Eigen.ComputationInfo)
  (P N : Matrix3 D) (l : Locals D) :
  poisson_locals fdi fdg solver P N = Returns l ->
  1 <= g_nx (l_grid l) -> 1 <= g_ny (l_grid l) -> 1 <= g_nz (l_grid l) ->
  interpolation_shape fdi ->
  let g := l_grid l in
  let s := l_staggered l in
  rows (l_x l) = node_count g /\
  (exists G0, p_G (l_potential l) = fdg (g_nx g) (g_ny g) (g_nz g) (g_h g) G0 /\
              sp_rows G0 = rows (s_v s) /\ sp_cols G0 = node_count g) /\
  rows (s_v s) = staggered_count g /\
  (forall a, rows (s_v_axis a s) = node_count (staggered_grid a g)) /\
  (forall a c, 0 <= c < node_count (staggered_grid a g) ->
               vget (s_v s) (block_offset a g + c) = vget (s_v_axis a s) c).
Proof.
  intros El Hx Hy Hz Hi g s.
  apply poisson_locals_inv in El as (_ & _ & Ex & Es & Ep & _).
  fold g in Ex, Es, Ep. fold s in Es, Ep.
  apply staggered_samples_inv in Es as (HW & Hv & Hcat & Hlen).
  apply solve_potential_inv in Ep as (EG & _).
  assert (Hrows : forall a, rows (s_v_axis a s) = node_count (staggered_grid a g)).
  { intros a. specialize (Hv a). apply spmv_returns in Hv as (_ & _ & L).
    unfold rows. rewrite L. cbn [transpose sp_rows].
    rewrite (HW a). cbv zeta.
    destruct (Hi (g_nx (staggered_grid a g)) (g_ny (staggered_grid a g))
                 (g_nz (staggered_grid a g)) (g_h (staggered_grid a g))
                 (g_corner (staggered_grid a g)) P
                 (sp_empty (rows P) (node_count (staggered_grid a g)))) as [_ C].
    rewrite C. unfold node_count. subst g.
    rewrite Z2Nat.id; [reflexivity|].
    destruct a; cbn [staggered_grid g_nx g_ny g_nz];
      repeat apply Z.mul_nonneg_nonneg; lia. }
  split; [|split; [|split; [|split]]].
  - rewrite Ex. unfold rows. rewrite length_node_positions. unfold node_count.
    subst g. rewrite Z2Nat.id; [reflexivity|].
    repeat apply Z.mul_nonneg_nonneg; lia.
  - eexists. split; [exact EG|]. cbn [sp_empty sp_rows sp_cols]. now rewrite Hlen.
  - exact Hlen.
  - exact Hrows.
  - intros a c Hc. rewrite Hcat. pose proof (Hrows AxisX) as Rx.
    pose proof (Hrows AxisY) as Ry. cbn [s_v_axis] in Rx, Ry.
    destruct a; cbn [block_offset s_v_axis].
    + rewrite Z.add_0_l. apply vget_app_l. now rewrite Rx.
    + rewrite <- Rx, vget_app_r by lia. apply vget_app_l. now rewrite Ry.
    + rewrite <- Rx, <- Ry, <- Z.add_assoc.
      rewrite vget_app_r by (unfold rows; lia).
      rewrite vget_app_r by lia. reflexivity.
Qed.

Lemma right_hand_side_blocks_witness :
  exists l,
    (poisson_locals fd_interpolate fd_grad unconverged_solver
       two_points_f two_normals_f = Returns l /\
     1 <= g_nx (l_grid l) /\ 1 <= g_ny (l_grid l) /\ 1 <= g_nz (l_grid l) /\
     interpolation_shape (fd_interpolate (D := float))) /\
    rows (s_v (l_staggered l)) = staggered_count (l_grid l) /\
    rows (l_x l) = node_count (l_grid l).
Proof.
  destruct two_points_run as [l [El Eg]]. exists l.
  assert (Hx : 1 <= g_nx (l_grid l)) by (rewrite Eg; cbn; lia).
  assert (Hy : 1 <= g_ny (l_grid l)) by (rewrite Eg; cbn; lia).
  assert (Hz : 1 <= g_nz (l_grid l)) by (rewrite Eg; cbn; lia).
  split; [exact (conj El (conj Hx (conj Hy (conj Hz interpolation_shape_fd_interpolate))))|].
  pose proof (right_hand_side_blocks fd_interpolate fd_grad unconverged_solver
                two_points_f two_normals_f l El Hx Hy Hz
                interpolation_shape_fd_interpolate) as (R1 & _ & R3 & _).
  exact (conj R3 R1).
Defined.

(* ================================================================== *)
(** * The rows of the gradient matrix and the entries of [v] *)

(** The step from a staggered node to the second primary node of its
    difference. *)
Definition axis_step (a : axis) : Z * Z * Z :=
  match a with
  | AxisX => (1, 0, 0)
  | AxisY => (0, 1, 0)
  | AxisZ => (0, 0, 1)
  end.

Section GradientRows.

Context {D : Type} `{Scalar D}.

(** The two coefficients of the row of the staggered node [(i,j,k)] of
    axis [a]: [-1/h] at the primary node [(i,j,k)], [+1/h] at the next
    primary node along [a]. *)
Definition difference_lower (a : axis) (g : Grid D) (i j k : Z) : Z * Z * D :=
  let sg := staggered_grid a g in
  (block_offset a g + sub2ind (g_nx sg) (g_ny sg) i j k,
   sub2ind (g_nx g) (g_ny g) i j k,
   div (of_int (-1)) (g_h g)).

Definition difference_upper (a : axis) (g : Grid D) (i j k : Z) : Z * Z * D :=
  let sg := staggered_grid a g in
  let '(dx, dy, dz) := axis_step a in
  (block_offset a g + sub2ind (g_nx sg) (g_ny sg) i j k,
   sub2ind (g_nx g) (g_ny g) (i + dx) (j + dy) (k + dz),
   div (of_int 1) (g_h g)).

Lemma in_fd_partial (nx ny nz : Z) (h : D) (dx dy dz offset : Z) (e : Z * Z * D) :
  In e (fd_partial nx ny nz h dx dy dz offset) <->
  exists i j k,
    (0 <= i < nx - dx /\ 0 <= j < ny - dy /\ 0 <= k < nz - dz) /\
    (e = (offset + sub2ind (nx - dx) (ny - dy) i j k, sub2ind nx ny i j k,
          div (of_int (-1)) h) \/
     e = (offset + sub2ind (nx - dx) (ny - dy) i j k,
          sub2ind nx ny (i + dx) (j + dy) (k + dz), div (of_int 1) h)).
Proof.
  unfold fd_partial. cbv zeta. rewrite in_flat_map. split.
  - intros (i & Hi & He). apply in_flat_map in He as (j & Hj & He).
    apply in_flat_map in He as (k & Hk & He).
    apply in_range in Hi, Hj, Hk.
    exists i, j, k. split; [tauto|].
    destruct He as [<- | [<- | []]]; [left | right]; reflexivity.
  - intros (i & j & k & (Hi & Hj & Hk) & He).
    exists i. split; [now apply in_range|].
    apply in_flat_map. exists j. split; [now apply in_range|].
    apply in_flat_map. exists k. split; [now apply in_range|].
    destruct He as [-> | ->]; [left | right; left]; reflexivity.
Qed.

Lemma in_fd_grad (g : Grid D) (G0 : SparseMatrix D) (e : Z * Z * D) :
  In e (sp_entries (fd_grad (g_nx g) (g_ny g) (g_nz g) (g_h g) G0)) <->
  exists a i j k,
    (0 <= i < g_nx (staggered_grid a g) /\ 0 <= j < g_ny (staggered_grid a g) /\
     0 <= k < g_nz (staggered_grid a g)) /\
    (e = difference_lower a g i j k \/ e = difference_upper a g i j k).
Proof.
  unfold fd_grad. cbv zeta. cbn [sp_entries]. rewrite !in_app_iff, !in_fd_partial.
  unfold difference_lower, difference_upper.
  split.
  - intros [(i & j & k & Hr & He) | [(i & j & k & Hr & He) | (i & j & k & Hr & He)]].
    + exists AxisX, i, j, k.
      cbn [staggered_grid g_nx g_ny g_nz axis_step block_offset].
      rewrite !Z.sub_0_r in *. split; [exact Hr | exact He].
    + exists AxisY, i, j, k.
      cbn [staggered_grid g_nx g_ny g_nz axis_step block_offset].
      unfold node_count. cbn [staggered_grid g_nx g_ny g_nz].
      rewrite !Z.sub_0_r in *. split; [exact Hr | exact He].
    + exists AxisZ, i, j, k.
      cbn [staggered_grid g_nx g_ny g_nz axis_step block_offset].
      unfold node_count. cbn [staggered_grid g_nx g_ny g_nz].
      rewrite !Z.sub_0_r in *. split; [exact Hr | exact He].
  - intros (a & i & j & k & Hr & He). destruct a;
      cbn [staggered_grid g_nx g_ny g_nz axis_step block_offset] in Hr, He;
      unfold node_count in He; cbn [staggered_grid g_nx g_ny g_nz] in He.
    + left. exists i, j, k. rewrite !Z.sub_0_r. split; [exact Hr | exact He].
    + right. left. exists i, j, k. rewrite !Z.sub_0_r. split; [exact Hr | exact He].
    + right. right. exists i, j, k. rewrite !Z.sub_0_r. split; [exact Hr | exact He].
Qed.

End GradientRows.

(** C4.  In a returning run with the gradient matrix of the
    specification: [G] has [(nx-1)*ny*nz + nx*(ny-1)*nz + nx*ny*(nz-1)]
    rows and [nx*ny*nz] columns, [v] has as many entries as [G] has rows,
    and [v] is [vx], [vy], [vz] in that order, each with one entry per
    node of its staggered grid.  For every node [(i,j,k)] of the grid
    staggered along [a], with index [c] in that grid, row [offset_a + c]
    of [G] lies in the block of [a] and holds the difference of the
    primary nodes [(i,j,k)] and its neighbour along [a], and entry
    [offset_a + c] of [v] is entry [c] of [v_a], the normals scattered
    to column [c] of [W_a] (when the coefficients of [W_a] lie inside its
    shape).  [G] has no other coefficients.  Holds for any scalar
    arithmetic. *)
Theorem gradient_rows_match_samples {D : Type} `{Scalar D}
  (fdi : Z -> Z -> Z -> D -> RowVector3 D -> Matrix3 D -> SparseMatrix D -> SparseMatrix D)
  (solver : SparseMatrix D -> Vector D -> Vector D * Eigen.ComputationInfo)
  (P N : Matrix3 D) (l : Locals D) :
  poisson_locals fdi fd_grad solver P N = Returns l ->
  1 <= g_nx (l_grid l) -> 1 <= g_ny (l_grid l) -> 1 <= g_nz (l_grid l) ->
  interpolation_shape fdi ->
  let g := l_grid l in
  let s := l_staggered l in
  let G := p_G (l_potential l) in
  (sp_rows G = (g_nx g - 1) * g_ny g * g_nz g + g_nx g * (g_ny g - 1) * g_nz g
               + g_nx g * g_ny g * (g_nz g - 1) /\
   sp_cols G = g_nx g * g_ny g * g_nz g /\
   rows (s_v s) = sp_rows G) /\
  (s_v s = s_v_axis AxisX s ++ s_v_axis AxisY s ++ s_v_axis AxisZ s /\
   rows (s_v_axis AxisX s) = (g_nx g - 1) * g_ny g * g_nz g /\
   rows (s_v_axis AxisY s) = g_nx g * (g_ny g - 1) * g_nz g /\
   rows (s_v_axis AxisZ s) = g_nx g * g_ny g * (g_nz g - 1)) /\
  (forall a i j k,
     let sg := staggered_grid a g in
     0 <= i < g_nx sg -> 0 <= j < g_ny sg -> 0 <= k < g_nz sg ->
     let c := sub2ind (g_nx sg) (g_ny sg) i j k in
     (0 <= c < node_count sg /\
      block_offset a g + node_count sg <= sp_rows G) /\
     In (difference_lower a g i j k) (sp_entries G) /\
     In (difference_upper a g i j k) (sp_entries G) /\
     vget (s_v s) (block_offset a g + c) = vget (s_v_axis a s) c /\
     (sp_wf (s_W_axis a s) ->
      vget (s_v_axis a s) c = scatter_to (s_W_axis a s) (column a N) c)) /\
  (forall e, In e (sp_entries G) ->
     exists a i j k,
       (0 <= i < g_nx (staggered_grid a g) /\ 0 <= j < g_ny (staggered_grid a g) /\
        0 <= k < g_nz (staggered_grid a g)) /\
       (e = difference_lower a g i j k \/ e = difference_upper a g i j k)).
Proof.
  intros El Hx Hy Hz Hi g s G. subst g s G.
  apply poisson_locals_inv in El as (_ & _ & _ & Es & Ep & _).
  set (g := l_grid l) in *. set (s := l_staggered l) in *.
  apply staggered_samples_inv in Es as (EW & Hv & Hcat & Hlen).
  apply solve_potential_inv in Ep as (EG & _).
  assert (Hcols : forall a, sp_cols (s_W_axis a s) = node_count (staggered_grid a g)).
  { intros a. rewrite (EW a). cbv zeta.
    now destruct (Hi (g_nx (staggered_grid a g)) (g_ny (staggered_grid a g))
                     (g_nz (staggered_grid a g)) (g_h (staggered_grid a g))
                     (g_corner (staggered_grid a g)) P
                     (sp_empty (rows P) (node_count (staggered_grid a g)))) as [_ C]. }
  assert (Hrows : forall a, rows (s_v_axis a s) = node_count (staggered_grid a g)).
  { intros a. pose proof (Hv a) as Ea. apply spmv_returns in Ea as (_ & _ & L).
    unfold rows. rewrite L. cbn [transpose sp_rows]. rewrite Hcols.
    unfold node_count. rewrite Z2Nat.id; [reflexivity|].
    destruct a; cbn [staggered_grid g_nx g_ny g_nz];
      repeat apply Z.mul_nonneg_nonneg; lia. }
  assert (Hentry : forall a c, 0 <= c < node_count (staggered_grid a g) ->
                     vget (s_v s) (block_offset a g + c) = vget (s_v_axis a s) c).
  { intros a c Hc. rewrite Hcat. pose proof (Hrows AxisX) as Rx.
    pose proof (Hrows AxisY) as Ry. cbn [s_v_axis] in Rx, Ry.
    destruct a; cbn [block_offset s_v_axis].
    + rewrite Z.add_0_l. apply vget_app_l. now rewrite Rx.
    + rewrite <- Rx, vget_app_r by lia. apply vget_app_l. now rewrite Ry.
    + rewrite <- Rx, <- Ry, <- Z.add_assoc.
      rewrite vget_app_r by (unfold rows; lia).
      rewrite vget_app_r by lia. reflexivity. }
  assert (ERows : sp_rows (p_G (l_potential l)) =
                  (g_nx g - 1) * g_ny g * g_nz g + g_nx g * (g_ny g - 1) * g_nz g
                  + g_nx g * g_ny g * (g_nz g - 1)) by (rewrite EG; reflexivity).
  split; [|split; [|split]].
  - split; [exact ERows|]. split; [rewrite EG; reflexivity|].
    rewrite Hlen, ERows. reflexivity.
  - split; [exact Hcat|].
    split; [exact (Hrows AxisX)|]. split; [exact (Hrows AxisY) | exact (Hrows AxisZ)].
  - intros a i j k sg Hri Hrj Hrk c.
    assert (Hc : 0 <= c < node_count sg).
    { unfold c, node_count. now apply sub2ind_bounds. }
    split.
    { split; [exact Hc|]. rewrite ERows. subst sg. unfold node_count.
      assert (0 <= (g_nx g - 1) * g_ny g * g_nz g)
        by (repeat apply Z.mul_nonneg_nonneg; lia).
      assert (0 <= g_nx g * (g_ny g - 1) * g_nz g)
        by (repeat apply Z.mul_nonneg_nonneg; lia).
      assert (0 <= g_nx g * g_ny g * (g_nz g - 1))
        by (repeat apply Z.mul_nonneg_nonneg; lia).
      destruct a; cbn [block_offset staggered_grid g_nx g_ny g_nz];
        unfold node_count; cbn [staggered_grid g_nx g_ny g_nz]; lia. }
    split.
    { rewrite EG. apply in_fd_grad. exists a, i, j, k. split; [tauto | now left]. }
    split.
    { rewrite EG. apply in_fd_grad. exists a, i, j, k. split; [tauto | now right]. }
    split; [now apply Hentry|].
    intros HW.
    rewrite (spmv_entry (transpose (s_W_axis a s)) (column a N) (s_v_axis a s) c (Hv a)).
    + apply gather_from_transpose.
    + apply sp_wf_transpose, HW.
    + cbn [transpose sp_rows]. now rewrite Hcols.
  - intros e He. rewrite EG in He. now apply in_fd_grad in He.
Qed.

Lemma gradient_rows_match_samples_witness :
  exists l,
    (poisson_locals fd_interpolate fd_grad unconverged_solver
       two_points_f two_normals_f = Returns l /\
     1 <= g_nx (l_grid l) /\ 1 <= g_ny (l_grid l) /\ 1 <= g_nz (l_grid l) /\
     interpolation_shape (fd_interpolate (D := float))) /\
    sp_rows (p_G (l_potential l)) = 61 * 17 * 16 + 62 * 16 * 16 + 62 * 17 * 15 /\
    sp_cols (p_G (l_potential l)) = 62 * 17 * 16 /\
    rows (s_v (l_staggered l)) = sp_rows (p_G (l_potential l)).
Proof.
  destruct two_points_run as [l [El Eg]]. exists l.
  assert (Hx : 1 <= g_nx (l_grid l)) by (rewrite Eg; cbn; lia).
  assert (Hy : 1 <= g_ny (l_grid l)) by (rewrite Eg; cbn; lia).
  assert (Hz : 1 <= g_nz (l_grid l)) by (rewrite Eg; cbn; lia).
  split; [exact (conj El (conj Hx (conj Hy (conj Hz interpolation_shape_fd_interpolate))))|].
  pose proof (proj1 (gradient_rows_match_samples fd_interpolate unconverged_solver
                two_points_f two_normals_f l El Hx Hy Hz
                interpolation_shape_fd_interpolate)) as (R1 & R2 & R3).
  rewrite Eg in R1, R2. exact (conj R1 (conj R2 R3)).
Defined.

(* ================================================================== *)
(** * Scattering the normals (lines 76-78) *)

(** The sum, over the triplets of [W] in column [c], of the weight times
    the entry of [n] at the triplet's row. *)
Definition scatter (W : SparseMatrix Q) (n : list Q) (c : Z) : Q :=
  fold_right (fun e acc =>
                if snd (fst e) =? c then (snd e * vget n (fst (fst e)) + acc)%Q else acc)
             0%Q (sp_entries W).

Lemma row_apply_transpose (W : SparseMatrix Q) (n : list Q) (c : Z) :
  row_apply (sp_entries (transpose W)) n c = scatter W n c.
Proof.
  unfold scatter, transpose. cbn [sp_entries].
  induction (sp_entries W) as [|e es IH]; [reflexivity|].
  cbn [map row_apply fold_right fst snd]. fold (row_apply (map
    (fun e0 : Z * Z * Q => (snd (fst e0), fst (fst e0), snd e0)) es) n c).
  now rewrite IH.
Qed.

Lemma column_fin_matrix (a : axis) (N : Matrix3 Q) :
  column a (fin_matrix N) = map Fin (column a N).
Proof.
  destruct (col_fin_matrix N) as (E0 & E1 & E2). destruct a; assumption.
Qed.

(** X9.  [v_a] has one entry per column of [W_a], and its entry [c] is
    the sum over the triplets [(p, c, w)] of [W_a] of [w * N(p, a)]: each
    normal component is scattered to the nodes with the weights of its
    point.  Exact arithmetic. *)
Theorem normals_scattered
  (fdi : Z -> Z -> Z -> xreal -> RowVector3 xreal -> Matrix3 xreal ->
         SparseMatrix xreal -> SparseMatrix xreal)
  (grid : Grid xreal) (P : Matrix3 xreal) (N : Matrix3 Q)
  (s : Staggered xreal) (a : axis) (W : SparseMatrix Q) :
  staggered_samples fdi grid P (fin_matrix N) = Returns s ->
  s_W_axis a s = fin_sparse W -> sp_wf W ->
  rows N = sp_rows W /\
  rows (s_v_axis a s) = sp_cols W /\
  forall c, 0 <= c < sp_cols W ->
            xeq (vget (s_v_axis a s) c) (scatter W (column a N) c).
Proof.
  intros Es EW HW.
  apply staggered_samples_inv in Es as (_ & Hv & _ & _).
  specialize (Hv a). rewrite EW, transpose_fin, column_fin_matrix, spmv_fin in Hv.
  apply bind_returns in Hv as [u [Hc Hv]]. apply returns_inj in Hv.
  apply eigen_assert_returns, Z.eqb_eq in Hc. cbn [transpose sp_cols] in Hc.
  pose proof HW as (Hr0 & Hc0 & _).
  split; [|split].
  - rewrite Hc. destruct a; unfold column, col0, col1, col2; now rewrite rows_map.
  - rewrite <- Hv, rows_map. unfold rows. rewrite length_apply_sp.
    cbn [transpose sp_rows]. lia.
  - intros c Hcol. rewrite <- Hv, vget_fin. simpl.
    rewrite vget_apply_sp.
    + now rewrite row_apply_transpose.
    + apply sp_wf_rows_nonneg. now apply sp_wf_transpose.
    + exact Hcol.
Qed.

Definition demo_normals : Matrix3 Q := [Row3 0 0 1; Row3 (3 # 5) 0 (4 # 5)]%Q.

(** The interpolation matrix of the two points on the grid staggered
    along z. *)
Definition demo_Wz : SparseMatrix Q :=
  fd_interpolate 3 3 2 1%Q (Row3 (0 + 0) (0 + 0) (0 + 1 / 2))%Q demo_points
                 (sp_empty 2 18).

Lemma sp_wf_demo_Wz : sp_wf demo_Wz.
Proof. apply sp_wf_b_sound. vm_compute. reflexivity. Qed.

Lemma demo_staggered_run :
  exists s,
    staggered_samples fd_interpolate demo_grid (fin_matrix demo_points)
      (fin_matrix demo_normals) = Returns s /\
    s_W_axis AxisZ s = fin_sparse demo_Wz.
Proof.
  destruct (staggered_samples_total fd_interpolate demo_grid
              (fin_matrix demo_points) (fin_matrix demo_normals)) as [s Es].
  - exact grid_fits_int_demo_grid.
  - reflexivity.
  - exact interpolation_shape_fd_interpolate.
  - exists s. split; [exact Es|].
    apply staggered_samples_inv in Es as (HW & _). rewrite (HW AxisZ).
    vm_compute. reflexivity.
Qed.

Lemma normals_scattered_witness :
  exists s,
    (staggered_samples fd_interpolate demo_grid (fin_matrix demo_points)
       (fin_matrix demo_normals) = Returns s /\
     s_W_axis AxisZ s = fin_sparse demo_Wz /\ sp_wf demo_Wz) /\
    rows (s_v_axis AxisZ s) = sp_cols demo_Wz /\
    xeq (vget (s_v_axis AxisZ s) 12) (scatter demo_Wz (column AxisZ demo_normals) 12).
Proof.
  destruct demo_staggered_run as (s & Es & EW).
  exists s. split; [exact (conj Es (conj EW sp_wf_demo_Wz))|].
  pose proof (normals_scattered fd_interpolate demo_grid (fin_matrix demo_points)
                demo_normals s AxisZ demo_Wz Es EW sp_wf_demo_Wz) as (_ & R & S).
  split; [exact R|]. apply S. cbn. lia.
Defined.

(** In binary64 the quotient of the longest axis can round below 62:
    with extents 11, 0.5 and 0.1 the routine computes [nx = 61]. *)
Lemma longest_axis_binary64_rounding :
  exists g, build_grid [Row3 0 0 0; Row3 11 0.5 0.125]%float = Returns g /\
            g_nx g = 61.
Proof. eexists. split; [vm_compute; reflexivity | reflexivity]. Qed.

(* ================================================================== *)
(** * Every node position is assigned (lines 47-59, 107) *)

(** X11.  Every row of the node-position matrix has been assigned the
    position of a node when the loops end: no uninitialised row reaches
    the extraction.  Holds for any scalar arithmetic. *)
Theorem node_positions_all_assigned {D : Type} `{Scalar D}
  (nx ny nz : Z) (corner : RowVector3 D) (h : D) :
  0 <= nx -> 0 <= ny -> 0 <= nz ->
  Forall (fun r => exists i j k,
                     0 <= i < nx /\ 0 <= j < ny /\ 0 <= k < nz /\
                     r = Some (node_position corner h i j k))
         (node_positions nx ny nz corner h).
Proof.
  intros Hx Hy Hz. apply Forall_forall. intros r Hr.
  apply (In_nth _ _ None) in Hr as [n [Hn <-]].
  rewrite length_node_positions in Hn.
  assert (Hind : 0 <= Z.of_nat n < nx * ny * nz) by lia.
  assert (nx <> 0) by (intros E; rewrite E in *; lia).
  assert (ny <> 0) by (intros E; rewrite E in *; lia).
  pose proof (ind2sub_spec nx ny nz (Z.of_nat n) ltac:(lia) ltac:(lia) Hind) as S.
  destruct (ind2sub nx ny (Z.of_nat n)) as [[i j] k].
  destruct S as (Hi & Hj & Hk & E).
  exists i, j, k. repeat split; try lia.
  pose proof (get_node_positions nx ny nz corner h i j k Hi Hj Hk) as G.
  rewrite E in G. unfold get_row in G.
  destruct (Z.of_nat n <? 0) eqn:En; [lia|].
  now rewrite Nat2Z.id in G.
Qed.

Lemma node_positions_all_assigned_witness :
  (0 <= 2 /\ 0 <= 3 /\ 0 <= 2) /\
  Forall (fun r => exists i j k,
                     0 <= i < 2 /\ 0 <= j < 3 /\ 0 <= k < 2 /\
                     r = Some (node_position (Row3 0 0 0) 0.5 i j k)%float)
         (node_positions 2 3 2 (Row3 0 0 0) 0.5)%float.
Proof.
  split; [lia|].
  exact (node_positions_all_assigned (D := float) 2 3 2 (Row3 0 0 0)%float 0.5%float
           ltac:(lia) ltac:(lia) ltac:(lia)).
Defined.

(* ================================================================== *)
(** * The points and the staggered grids (lines 40-44, 68-70) *)

Lemma axis_margin (l : list Q) (h x : Q) :
  (0 < h)%Q -> In x l ->
  (bbox_min l - 8 * h + 8 * h <= x)%Q /\
  (x + 6 * h < bbox_min l - 8 * h + h * inject_Z (Qfloor (dim_ratio l h) - 1))%Q.
Proof.
  intros Hh Hx. pose proof (bbox_bounds l x Hx) as [Hlo Hhi].
  split; [lra|].
  pose proof (Qlt_floor (dim_ratio l h)) as F.
  pose proof (dim_ratio_exact l h Hh) as R. unfold extent in R.
  set (r := dim_ratio l h) in *. set (n := Qfloor r) in *.
  assert (En : inject_Z (n - 1) == inject_Z n - 1).
  { unfold Z.sub. rewrite inject_Z_plus. simpl. ring. }
  assert (Em : inject_Z (n + 1) == inject_Z n + 1).
  { rewrite inject_Z_plus. reflexivity. }
  rewrite En. rewrite Em in F.
  assert (Hr : h * r == bbox_max l - bbox_min l + 16 * h).
  { rewrite R. field. lra. }
  assert (0 < h * (inject_Z n + 1 - r))%Q by (apply Qmult_lt_0_compat; lra).
  lra.
Qed.

Lemma inject_Z_pred (n : Z) : inject_Z (n - 1) == inject_Z n - 1.
Proof. unfold Z.sub. rewrite inject_Z_plus. simpl. ring. Qed.

(** X12.  For a non-empty point cloud of positive extent, every input
    point lies strictly inside each of the three staggered grids, so no
    interpolation of lines 68-70 is evaluated outside its grid.  Exact
    arithmetic. *)
Theorem points_inside_staggered_grids (P : Matrix3 Q) :
  P <> [] -> (0 < bbox_max_extent P)%Q ->
  exists g, build_grid (fin_matrix P) = Returns g /\
            forall a p, In p (fin_matrix P) -> strictly_inside (staggered_grid a g) p.
Proof.
  intros HP HE. eexists. split; [apply (build_grid_fin P HP HE)|].
  pose proof (reference_h_pos P HE) as Hh.
  set (h := reference_h P) in *.
  assert (H2 : ~ inject_Z 2 == 0) by (intros E; unfold Qeq in E; simpl in E; lia).
  intros a p Hp. apply in_map_iff in Hp as [q [<- Hq]].
  pose proof (axis_margin (col0 P) h (c0 q) Hh (in_map c0 P q Hq)) as [A0 B0].
  pose proof (axis_margin (col1 P) h (c1 q) Hh (in_map c1 P q Hq)) as [A1 B1].
  pose proof (axis_margin (col2 P) h (c2 q) Hh (in_map c2 P q Hq)) as [A2 B2].
  pose proof (inject_Z_pred (Qfloor (dim_ratio (col0 P) h) - 1)) as P0.
  pose proof (inject_Z_pred (Qfloor (dim_ratio (col1 P) h) - 1)) as P1.
  pose proof (inject_Z_pred (Qfloor (dim_ratio (col2 P) h) - 1)) as P2.
  assert (Hdiv : h / inject_Z 2 == h * (1 # 2)) by (field; exact H2).
  destruct a;
    unfold strictly_inside, staggered_grid, node_position, row_add, row_scale, fin_row;
    cbn [g_corner g_h g_nx g_ny g_nz c0 c1 c2];
    change (@of_int xreal _ 0) with (Fin (inject_Z 0));
    change (@of_int xreal _ 2) with (Fin (inject_Z 2));
    rewrite (div_fin h (inject_Z 2) H2);
    change (@ltb xreal _) with XReal.ltb;
    change (@add xreal _) with XReal.add;
    change (@mul xreal _) with XReal.mul;
    change (@of_int xreal _) with (fun z => Fin (inject_Z z));
    cbn [XReal.ltb XReal.add XReal.mul];
    rewrite !Qltb_true;
    change (inject_Z 0) with 0%Q;
    repeat split; try rewrite P0; try rewrite P1; try rewrite P2;
    try rewrite Hdiv; nra.
Qed.

Lemma points_inside_staggered_grids_witness :
  (two_points <> [] /\ (0 < bbox_max_extent two_points)%Q) /\
  exists g, build_grid (fin_matrix two_points) = Returns g /\
            forall a p, In p (fin_matrix two_points) ->
                        strictly_inside (staggered_grid a g) p.
Proof.
  assert (H1 : two_points <> []) by discriminate.
  assert (H2 : (0 < bbox_max_extent two_points)%Q) by (vm_compute; reflexivity).
  split; [split; assumption|].
  exact (points_inside_staggered_grids two_points H1 H2).
Defined.
